(** * ReAgent preprocessing transforms: a shallow embedding

    The definitions below follow [reagent/preprocessing/transforms.py].
    A batch is a Python [dict] from field names to values; transforms are
    callables that update the dict they are given (or build a new one) and
    keep a little state on the instance.  Exceptions are modelled by an
    outcome type, mutable objects by explicit state passing. *)

From stdpp Require Import gmap strings list fin_maps pretty.
From Stdlib Require Import ZArith.

Set Warnings "-register-all".

Open Scope Z_scope.

(** ** Exceptions and the state-and-error monad *)

Inductive exn : Type :=
| KeyError (k : string)
| IndexError
| AssertionError
| TypeError
| ValueError
| NotImplementedError
| AttributeError
| RuntimeError.

Inductive outcome (A : Type) : Type :=
| Ok (a : A)
| Raise (e : exn).
Arguments Ok {A} a.
Arguments Raise {A} e.

Definition is_ok {A} (o : outcome A) : bool :=
  match o with Ok _ => true | Raise _ => false end.

(** A computation over a mutable state [S].  The state that comes back is the
    state at the point of return or of the raise: a Python exception does not
    roll back earlier assignments. *)
Definition M (S A : Type) : Type := S → outcome A * S.

Definition raise {S A} (e : exn) : M S A := λ s, (Raise e, s).
Definition get {S} : M S S := λ s, (Ok s, s).
Definition modify {S} (f : S → S) : M S unit := λ s, (Ok tt, f s).

#[global] Instance M_ret {S} : MRet (M S) := λ A a s, (Ok a, s).
#[global] Instance M_bind {S} : MBind (M S) := λ A B f m s,
  match m s with
  | (Ok a, s') => f a s'
  | (Raise e, s') => (Raise e, s')
  end.

(** [for x in xs: body x] *)
Fixpoint for_each {S A} (xs : list A) (body : A → M S unit) : M S unit :=
  match xs with
  | [] => mret tt
  | x :: xs' => body x;; for_each xs' body
  end.

(** Lifting of library results: [None] is the library's own error. *)
Definition torch {S A} (o : option A) : M S A :=
  match o with Some a => mret a | None => raise RuntimeError end.
Definition of_outcome {S A} (o : outcome A) : M S A :=
  match o with Ok a => mret a | Raise e => raise e end.
Definition py_assert {S} (b : bool) : M S unit :=
  if b then mret tt else raise AssertionError.

(** ** Python list operations *)

(** Normalised position for subscription and [pop]: negative indices count
    from the end, anything outside [-len, len) is an [IndexError]. *)
Definition py_index (len : nat) (i : Z) : option nat :=
  if decide (0 ≤ i < Z.of_nat len) then Some (Z.to_nat i)
  else if decide (- Z.of_nat len ≤ i < 0) then Some (Z.to_nat (Z.of_nat len + i))
  else None.

Definition py_getitem {A} (l : list A) (i : Z) : option A :=
  j ← py_index (length l) i; l !! j.

Definition py_pop {A} (l : list A) (i : Z) : option (list A) :=
  j ← py_index (length l) i; Some (delete j l).

(** [list.insert] never raises: the position is clamped. *)
Definition py_insert {A} (l : list A) (i : Z) (x : A) : list A :=
  let j := if decide (0 ≤ i) then Z.to_nat i else Z.to_nat (Z.of_nat (length l) + i) in
  take j l ++ x :: drop j l.

(** ** Tensors: a shape and row-major contents *)

Record tensor (A : Type) : Type := Tensor { shape : list nat; data : list A }.
Arguments Tensor {A} shape data.
Arguments shape {A} t.
Arguments data {A} t.

Definition numel (sh : list nat) : nat := foldr Nat.mul 1%nat sh.
Definition ndim {A} (t : tensor A) : nat := length (shape t).
Definition wf {A} (t : tensor A) : Prop := length (data t) = numel (shape t).

(** All multi-indices of a shape, in storage order. *)
Fixpoint indices (sh : list nat) : list (list nat) :=
  match sh with
  | [] => [[]]
  | n :: sh' => i ← seq 0 n; (cons i) <$> indices sh'
  end.

(** Storage position of a multi-index; [None] when out of range. *)
Fixpoint offset (sh ix : list nat) : option nat :=
  match sh, ix with
  | [], [] => Some 0%nat
  | n :: sh', i :: ix' =>
      if decide (i < n)%nat then o ← offset sh' ix'; Some (i * numel sh' + o)%nat
      else None
  | _, _ => None
  end.

Definition tget {A} (t : tensor A) (ix : list nat) : option A :=
  o ← offset (shape t) ix; data t !! o.

(** The tensor of shape [sh] whose entry at [ix] is [f ix]. *)
Definition tabulate {A} (sh : list nat) (f : list nat → option A) : option (tensor A) :=
  d ← mapM f (indices sh); Some (Tensor sh d).

Definition full {A} (sh : list nat) (x : A) : tensor A :=
  Tensor sh (replicate (numel sh) x).

(** ** 64-bit integers

    The entries of an int64 tensor, and the Python ints that the library
    accepts as scalars, lie in [-2^63, 2^63); int64 arithmetic on tensors
    wraps around. *)
Definition int64 (z : Z) : Prop := - 2 ^ 63 ≤ z < 2 ^ 63.

#[global] Instance int64_dec z : Decision (int64 z).
Proof. unfold int64. apply _. Defined.

Definition wrap64 (z : Z) : Z := (z + 2 ^ 63) mod 2 ^ 64 - 2 ^ 63.

(** A Python int handed to the library as an int64 scalar. *)
Definition to_int64 (z : Z) : option Z :=
  if decide (int64 z) then Some z else None.

(** [torch.arange(0, n * step, step)] for [n] a length: the [n] multiples of
    [step].  A zero step is refused by the library.  [n * step] is formed by
    Python, without bound, and is refused when it does not fit int64; with at
    most one offset it is 0 or the step itself, and the step is checked where
    it comes from.  (Where [n * step + step] leaves int64 the library's own
    size computation may overflow as well; the statements below stay clear
    of that edge.) *)
Definition arange_stride (n : nat) (step : Z) : option (list Z) :=
  if decide (step = 0) then None
  else if decide ((1 < n)%nat → int64 (Z.of_nat n * step))
       then Some ((λ i : nat, Z.of_nat i * step) <$> seq 0 n)
       else None.

(** [torch.arange(n)] *)
Definition arange (n : Z) : option (list nat) :=
  if decide (0 ≤ n) then Some (seq 0 (Z.to_nat n)) else None.

(** ** Library operations on tensors *)

(** [Tensor.reshape] / [Tensor.view] with an explicit size list: at most one
    entry may be [-1], and is then inferred from the number of elements. *)
Definition infer_shape (spec : list Z) (n : nat) : option (list nat) :=
  if decide (Forall (λ z, -1 ≤ z) spec) then
    match filter (λ z, z = -1) spec with
    | [] =>
        let sh := Z.to_nat <$> spec in
        if decide (numel sh = n) then Some sh else None
    | [_] =>
        let p := numel (Z.to_nat <$> filter (λ z, z ≠ -1) spec) in
        if decide (p = 0)%nat then None
        else if decide (n mod p = 0)%nat
             then Some ((λ z, if decide (z = -1) then (n / p)%nat else Z.to_nat z) <$> spec)
             else None
    | _ => None
    end
  else None.

Definition reshape {A} (spec : list Z) (t : tensor A) : option (tensor A) :=
  sh ← infer_shape spec (numel (shape t)); Some (Tensor sh (data t)).

(** [torch.nn.functional.one_hot(t, num_classes)] on an int64 tensor: a new
    last dimension of size [num_classes] holding 1 at the class and 0
    elsewhere.  Classes must be non-negative and below [num_classes];
    [num_classes = -1] asks for the size to be inferred. *)
Definition one_hot (t : tensor Z) (num_classes : Z) : option (tensor Z) :=
  if decide (numel (shape t) = 0)%nat then
    if decide (num_classes ≤ 0) then None
    else Some (Tensor (shape t ++ [Z.to_nat num_classes]) [])
  else if decide (Forall (λ x, 0 ≤ x) (data t)) then
    let hi := foldr Z.max 0 (data t) in
    nc ← (if decide (num_classes = -1) then Some (hi + 1)
          else if decide (hi < num_classes) then Some num_classes else None);
    tabulate (shape t ++ [Z.to_nat nc])
      (λ ix, c ← tget t (take (ndim t) ix);
             j ← ix !! ndim t;
             Some (if decide (Z.of_nat j = c) then 1 else 0))
  else None.

(** [t.index_select(dim, index)] for a tensor of at least one dimension. *)
Definition index_select {A} (dim : Z) (index : list nat) (t : tensor A) : option (tensor A) :=
  d ← py_index (ndim t) dim;
  n ← shape t !! d;
  if decide (Forall (λ k, k < n)%nat index) then
    tabulate (<[d := length index]> (shape t))
      (λ ix, j ← ix !! d; k ← index !! j; tget t (<[d := k]> ix))
  else None.

(** [t.expand(sizes)]: sizes are aligned at the right; a dimension of size 1
    is stretched, any other must agree. *)
Definition expand {A} (sizes : list nat) (t : tensor A) : option (tensor A) :=
  let k := (length sizes - ndim t)%nat in
  if decide (ndim t ≤ length sizes)%nat then
    if decide (Forall2 (λ src tgt, src = tgt ∨ src = 1%nat) (shape t) (drop k sizes)) then
      tabulate sizes
        (λ ix, tget t (zip_with (λ n i, if decide (n = 1)%nat then 0%nat else i)
                                (shape t) (drop k ix)))
    else None
  else None.

(** Broadcast of two shapes, both given last dimension first. *)
Fixpoint broadcast_rev (a b : list nat) : option (list nat) :=
  match a, b with
  | [], _ => Some b
  | _, [] => Some a
  | x :: a', y :: b' =>
      r ← broadcast_rev a' b';
      if decide (x = y) then Some (x :: r)
      else if decide (x = 1)%nat then Some (y :: r)
      else if decide (y = 1)%nat then Some (x :: r)
      else None
  end.

(** [torch.broadcast_shapes] of a list of shapes *)
Definition broadcast_shapes (shapes : list (list nat)) : option (list nat) :=
  reverse <$> foldl (λ acc sh, r ← acc; broadcast_rev r (reverse sh)) (Some []) shapes.

(** Entry of the concatenation at [ix]: walk the inputs, consuming their
    extent along [d]. *)
Fixpoint cat_get {A} (ts : list (tensor A)) (d : nat) (ix : list nat) : option A :=
  match ts with
  | [] => None
  | t :: ts' =>
      n ← shape t !! d; i ← ix !! d;
      if decide (i < n)%nat then tget t ix
      else cat_get ts' d (<[d := (i - n)%nat]> ix)
  end.

(** [torch.cat(tensors, dim)]: a non-empty list; one-dimensional empty
    tensors are skipped; the others agree on every dimension but [dim]. *)
Definition cat {A} (ts : list (tensor A)) (dim : Z) : option (tensor A) :=
  match ts with
  | [] => None
  | _ =>
      match filter (λ t, shape t ≠ [0%nat]) ts with
      | [] => _ ← py_index 1 dim; Some (Tensor [0%nat] [])
      | ref :: rest =>
          d ← py_index (ndim ref) dim;
          if decide (Forall (λ t, <[d := 0%nat]> (shape t) = <[d := 0%nat]> (shape ref)) rest)
          then
            let total := sum_list ((λ t, default 0%nat (shape t !! d)) <$> (ref :: rest)) in
            tabulate (<[d := total]> (shape ref)) (cat_get (ref :: rest) d)
          else None
      end
  end.

(** The exception of a [torch.cat] that fails: [IndexError] for a dimension
    that the tensors do not have, [RuntimeError] otherwise. *)
Definition cat_error {A} (ts : list (tensor A)) (dim : Z) : exn :=
  match ts, filter (λ t, shape t ≠ [0%nat]) ts with
  | [], _ => RuntimeError
  | _, [] => if py_index 1 dim is Some _ then RuntimeError else IndexError
  | _, ref :: _ => if py_index (ndim ref) dim is Some _ then RuntimeError else IndexError
  end.

(** Entrywise conversion, as in a change of dtype. *)
Definition tmap {A B} (f : A → B) (t : tensor A) : tensor B :=
  Tensor (shape t) (f <$> data t).

(** ** Errors without state *)

#[global] Instance outcome_ret : MRet outcome := λ A a, Ok a.
#[global] Instance outcome_bind : MBind outcome := λ A B f o,
  match o with Ok a => f a | Raise e => Raise e end.

Definition or_raise {A} (e : exn) (o : option A) : outcome A :=
  match o with Some a => Ok a | None => Raise e end.

(** Focus a computation on a part of the state. *)
Definition zoom {S T A} (view : S → T) (update : T → S → S) (m : M T A) : M S A :=
  λ s, let '(o, t') := m (view s) in (o, update t' s).

Section Transforms.

(** Floating-point scalars are kept abstract: the constants 0.0 and 1.0,
    multiplication, the NaN test and the conversion from int64. *)
Context {F : Type}.
Variable f_zero f_one : F.
Variable f_mul : F → F → F.
Variable isnan : F → bool.
Variable of_long : Z → F.

(** A tensor is either an int64 or a floating-point tensor. *)
Inductive ttensor : Type :=
| TLong (t : tensor Z)
| TFloat (t : tensor F).

Definition tt_shape (t : ttensor) : list nat :=
  match t with TLong t => shape t | TFloat t => shape t end.
Definition tt_ndim (t : ttensor) : nat := length (tt_shape t).
Definition tt_wf (t : ttensor) : Prop :=
  match t with TLong t => wf t | TFloat t => wf t end.
Definition tt_reshape (spec : list Z) (t : ttensor) : option ttensor :=
  match t with
  | TLong t => TLong <$> reshape spec t
  | TFloat t => TFloat <$> reshape spec t
  end.
Definition tt_expand (sizes : list nat) (t : ttensor) : option ttensor :=
  match t with
  | TLong t => TLong <$> expand sizes t
  | TFloat t => TFloat <$> expand sizes t
  end.
Definition to_float (t : ttensor) : tensor F :=
  match t with
  | TLong t => tmap of_long t
  | TFloat t => t
  end.
Definition as_long (t : ttensor) : option (tensor Z) :=
  match t with TLong t => Some t | TFloat _ => None end.
(** Entry of a tensor as a float, whatever its dtype. *)
Definition tt_get (t : ttensor) (ix : list nat) : option F := tget (to_float t) ix.

(** [torch.cat] promotes to floating point as soon as one input is. *)
Definition tt_cat (ts : list ttensor) (dim : Z) : option ttensor :=
  match mapM as_long ts with
  | Some ls => TLong <$> cat ls dim
  | None => TFloat <$> cat (to_float <$> ts) dim
  end.

Definition tt_cat_error (ts : list ttensor) (dim : Z) : exn :=
  cat_error (to_float <$> ts) dim.

(** ** Field values *)

Inductive value : Type :=
| VNone
| VTensor (t : ttensor)
| VNdarray (a : tensor string)            (* a numpy array of strings *)
| VTuple (a b : value)                    (* a pair such as (value, presence) *)
| VList (l : list string)                 (* a list of strings such as mdp_id *)
| VDict (m : gmap Z value).               (* a dict keyed by feature or sequence id *)

(** [data[k]], [data[k] = v], [k in data], [del data[k]], [data.pop(k)] *)
Definition getitem (k : string) : M (gmap string value) value :=
  λ d, match d !! k with
       | Some v => (Ok v, d)
       | None => (Raise (KeyError k), d)
       end.
Definition setitem (k : string) (v : value) : M (gmap string value) unit :=
  modify (<[k := v]>).
Definition contains (k : string) : M (gmap string value) bool :=
  λ d, (Ok (bool_decide (is_Some (d !! k))), d).
Definition delitem (k : string) : M (gmap string value) unit :=
  λ d, match d !! k with
       | Some _ => (Ok tt, delete k d)
       | None => (Raise (KeyError k), d)
       end.
Definition popitem (k : string) : M (gmap string value) value :=
  λ d, match d !! k with
       | Some v => (Ok v, delete k d)
       | None => (Raise (KeyError k), d)
       end.

(** ** OneHotActions *)

Record OneHotActions : Type := mkOneHotActions {
  OneHotActions_keys : list string;
  OneHotActions_num_actions : Z;
}.

Definition OneHotActions_init (keys : list string) (num_actions : Z) : OneHotActions :=
  mkOneHotActions keys num_actions.

Definition OneHotActions_call (self : OneHotActions) : M (gmap string value) unit :=
  for_each (OneHotActions_keys self) (λ k,
    v ← getitem k;
    match v with
    | VTensor t =>
        (* one_hot is only applicable to an index tensor *)
        i ← torch (as_long t);
        h ← torch (one_hot i (OneHotActions_num_actions self + 1));
        index ← torch (arange (OneHotActions_num_actions self));
        r ← torch (index_select (-1) index h);
        setitem k (VTensor (TLong r))
    | _ => raise TypeError
    end).

(** ** ColumnVector *)

Record ColumnVector : Type := mkColumnVector {
  ColumnVector_keys : list string;
}.

Definition ColumnVector_init (keys : list string) : ColumnVector :=
  mkColumnVector keys.

(** [value.ndim == 1 or (value.ndim == 2 and value.shape[1] == 1)] *)
Definition column_shape (sh : list nat) : bool :=
  bool_decide (length sh = 1%nat)
  || (bool_decide (length sh = 2%nat) && bool_decide (sh !! 1%nat = Some 1%nat)).

Definition ColumnVector_call (self : ColumnVector) : M (gmap string value) unit :=
  for_each (ColumnVector_keys self) (λ k,
    raw_value ← getitem k;
    value ← match raw_value with
            | VTuple value _presence => mret value
            | VList l => mret (VNdarray (Tensor [length l] l))
            | VTensor _ => mret raw_value
            | _ => raise NotImplementedError
            end;
    match value with
    | VTensor t =>
        py_assert (column_shape (tt_shape t));;
        r ← torch (tt_reshape [-1; 1] t);
        setitem k (VTensor r)
    | VNdarray a =>
        py_assert (column_shape (shape a));;
        r ← of_outcome (or_raise ValueError (reshape [-1; 1] a));
        setitem k (VNdarray r)
    | _ => raise AttributeError
    end).

(** ** AppendConstant *)

Record AppendConstant : Type := mkAppendConstant {
  AppendConstant_keys : list string;
  AppendConstant_dim : Z;
  AppendConstant_const : F;
}.

Definition AppendConstant_init (keys : list string) (dim : Z) (const : F) : AppendConstant :=
  mkAppendConstant keys dim const.

(** [value.shape[:-1]] *)
Definition all_but_last {A} (l : list A) : list A := take (length l - 1) l.

Definition AppendConstant_call (self : AppendConstant) : M (gmap string value) unit :=
  for_each (AppendConstant_keys self) (λ k,
    v ← getitem k;
    match v with
    | VTensor value =>
        let extra_col :=
          full (all_but_last (tt_shape value) ++ [1%nat])
               (f_mul (AppendConstant_const self) f_one) in
        let tensors := [TFloat extra_col; value] in
        r ← of_outcome (or_raise (tt_cat_error tensors (AppendConstant_dim self))
                          (tt_cat tensors (AppendConstant_dim self)));
        setitem k (VTensor r)
    | _ => raise AttributeError
    end).

(** ** Cat *)

Definition _broadcast_tensors_for_cat (tensors : list ttensor) (dim : Z)
    : outcome (list ttensor) :=
  let dims :=
    if decide (0 ≤ dim) then (λ _, dim) <$> tensors
    else (λ t, Z.of_nat (tt_ndim t) + dim) <$> tensors in
  let shapes := tt_shape <$> tensors in
  shapes_except_cat_dim ←
    mapM (λ sd, or_raise IndexError (py_pop sd.1 sd.2)) (zip shapes dims);
  broadcast_shape ← or_raise RuntimeError (broadcast_shapes shapes_except_cat_dim);
  final_shapes ←
    mapM (λ td, n ← or_raise IndexError (py_getitem (tt_shape td.1) dim);
                mret (py_insert broadcast_shape td.2 n))
         (zip tensors dims);
  mapM (λ ts, or_raise RuntimeError (tt_expand ts.2 ts.1)) (zip tensors final_shapes).

Record Cat : Type := mkCat {
  Cat_input_keys : list string;
  Cat_output_key : string;
  Cat_dim : Z;
  Cat_broadcast : bool;
}.


Definition as_tensor (e : exn) (v : value) : outcome ttensor :=
  match v with VTensor t => Ok t | _ => Raise e end.

Definition Cat_call (self : Cat) : M (gmap string value) unit :=
  vs ← (fix collect ks : M (gmap string value) (list value) :=
          match ks with
          | [] => mret []
          | k :: ks' => v ← getitem k; vs ← collect ks'; mret (v :: vs)
          end) (Cat_input_keys self);
  tensors ←
    (if Cat_broadcast self then
       of_outcome (ts ← mapM (as_tensor AttributeError) vs;
                   _broadcast_tensors_for_cat ts (Cat_dim self))
     else of_outcome (mapM (as_tensor TypeError) vs));
  r ← of_outcome (or_raise (tt_cat_error tensors (Cat_dim self))
                    (tt_cat tensors (Cat_dim self)));
  setitem (Cat_output_key self) (VTensor r).

(** ** Instance state, collaborators and the batch, side by side

    [world] records, in order, the collaborator objects that have been
    constructed so far. *)

Inductive event : Type :=
| NewPreprocessor
| NewSparsePreprocessor.

Inductive device : Type :=
| cpu
| cuda (index : nat).

Record st (Self : Type) : Type := St {
  world : list event;
  self : Self;
  batch : gmap string value;
}.
Arguments St {Self} world self batch.
Arguments world {Self} s.
Arguments self {Self} s.
Arguments batch {Self} s.

Definition on_batch {Self A} (m : M (gmap string value) A) : M (st Self) A :=
  zoom batch (λ d s, St (world s) (self s) d) m.
Definition get_self {Self} : M (st Self) Self := λ s, (Ok (self s), s).
Definition set_self {Self} (x : Self) : M (st Self) unit :=
  λ s, (Ok tt, St (world s) x (batch s)).
Definition log {Self} (e : event) : M (st Self) unit :=
  λ s, (Ok tt, St (world s ++ [e]) (self s) (batch s)).
(** Calling a transform that is stored in a field of [self]. *)
Definition sub {Self Sub A} (view : Self → Sub) (update : Sub → Self → Self)
    (m : M (st Sub) A) : M (st Self) A :=
  zoom (λ s, St (world s) (view (self s)) (batch s))
       (λ t s, St (world t) (update (self t) (self s)) (batch t)) m.

(** ** DenseNormalization *)

(** The normalization collaborator ([reagent.core.parameters],
    [reagent.preprocessing.preprocessor]) is taken as a parameter. *)
Variable NormalizationData : Type.
Variable NormalizationParameters : Type.
Variable dense_normalization_parameters : NormalizationData → NormalizationParameters.
Variable Preprocessor : Type.
Variable Preprocessor_init : NormalizationParameters → device → Preprocessor.
Variable Preprocessor_call : Preprocessor → ttensor → ttensor → outcome (tensor F).

Record DenseNormalization : Type := mkDenseNormalization {
  DenseNormalization_keys : list string;
  DenseNormalization_normalization_data : NormalizationData;
  DenseNormalization_device : device;
  DenseNormalization__preprocessor : option Preprocessor;
}.

Definition DenseNormalization_init (keys : list string)
    (normalization_data : NormalizationData) (dev : option device)
    : M (list event) DenseNormalization :=
  mret (mkDenseNormalization keys normalization_data (default cpu dev) None).

(** [torch.isnan(value)], in storage order *)
Definition nan_mask (t : ttensor) : list bool :=
  match t with
  | TLong t => (λ _, false) <$> data t
  | TFloat t => isnan <$> data t
  end.

(** [t[mask] = 0] for a boolean mask whose shape is a prefix of [t]'s *)
Definition masked_zero {A} (zero : A) (mask_shape : list nat) (mask : list bool)
    (t : tensor A) : option (tensor A) :=
  if decide (mask_shape `prefix_of` shape t) then
    let r := numel (drop (length mask_shape) (shape t)) in
    Some (Tensor (shape t)
            (imap (λ o x, if default false (mask !! (o / r)%nat) then zero else x) (data t)))
  else None.

Definition tt_masked_zero (mask_shape : list nat) (mask : list bool) (t : ttensor)
    : option ttensor :=
  match t with
  | TLong t => TLong <$> masked_zero 0 mask_shape mask t
  | TFloat t => TFloat <$> masked_zero f_zero mask_shape mask t
  end.

(** Row [i] of a tensor, as iterating over the tensor yields it. *)
Definition row {A} (i : nat) (t : tensor A) : tensor A :=
  let r := numel (tail (shape t)) in
  Tensor (tail (shape t)) (take r (drop (i * r) (data t))).

Definition tt_row (i : nat) (t : ttensor) : ttensor :=
  match t with
  | TLong t => TLong (row i t)
  | TFloat t => TFloat (row i t)
  end.

(** [value, presence = t] for a tensor [t]: its rows, which must be two.
    A tensor without dimensions cannot be iterated over. *)
Definition unpack_rows (t : ttensor) : outcome (ttensor * ttensor) :=
  match tt_shape t with
  | [] => Raise TypeError
  | n :: _ => if decide (n = 2%nat) then Ok (tt_row 0 t, tt_row 1 t) else Raise ValueError
  end.

(** The two masks on a tensor of two rows, whose rows are [value] and
    [presence]: entry [c] of either row is set to zero where entry [c] of
    the first row is NaN. *)
Definition zero_rows {A} (zero : A) (mask : list bool) (t : tensor A) : tensor A :=
  let r := numel (tail (shape t)) in
  Tensor (shape t)
    (imap (λ o x, if default false (mask !! (if decide (o < r)%nat then o else o - r)%nat)
                  then zero else x) (data t)).

Definition tt_zero_rows (t : ttensor) : ttensor :=
  let mask := nan_mask (tt_row 0 t) in
  match t with
  | TLong t => TLong (zero_rows 0 mask t)
  | TFloat t => TFloat (zero_rows f_zero mask t)
  end.

(** [value, presence = data[k]] followed by [value.to(...)] and
    [presence.to(...)]: a pair of tensors, or a tensor of two rows.  Any
    other object of two items has items without a [to] method; an object of
    another number of items does not unpack. *)
Definition unpack_pair (v : value) : outcome (ttensor * ttensor) :=
  match v with
  | VNone => Raise TypeError
  | VTensor t => unpack_rows t
  | VNdarray a =>
      match shape a with
      | [] => Raise TypeError
      | n :: _ => Raise (if decide (n = 2%nat) then AttributeError else ValueError)
      end
  | VTuple (VTensor value) (VTensor presence) => Ok (value, presence)
  | VTuple _ _ => Raise AttributeError
  | VList l => Raise (if decide (length l = 2%nat) then AttributeError else ValueError)
  | VDict m => Raise (if decide (size m = 2%nat) then AttributeError else ValueError)
  end.

(** The body of the loop over [self.keys].  Tensors are values here: the
    masked value and presence are what the preprocessor receives.  That the
    masks are written in place, into tensors that other fields may share, is
    followed in [DenseNormalization_key_obj] below. *)
Definition DenseNormalization_key (k : string) : M (st DenseNormalization) unit :=
  v ← on_batch (getitem k);
  vp ← of_outcome (unpack_pair v);
  let mask := nan_mask vp.1 in
  presence ← of_outcome (or_raise IndexError
                (tt_masked_zero (tt_shape vp.1) mask vp.2));
  value ← of_outcome (or_raise IndexError
                (tt_masked_zero (tt_shape vp.1) mask vp.1));
  s ← get_self;
  match DenseNormalization__preprocessor s with
  | Some p =>
      r ← of_outcome (Preprocessor_call p value presence);
      on_batch (setitem k (VTensor (TFloat r)))
  | None => raise TypeError
  end.

Definition DenseNormalization_call : M (st DenseNormalization) unit :=
  s ← get_self;
  match DenseNormalization__preprocessor s with
  | None =>
      log NewPreprocessor;;
      set_self (mkDenseNormalization
        (DenseNormalization_keys s) (DenseNormalization_normalization_data s)
        (DenseNormalization_device s)
        (Some (Preprocessor_init
                 (dense_normalization_parameters (DenseNormalization_normalization_data s))
                 (DenseNormalization_device s))))
  | Some _ => mret tt
  end;;
  for_each (DenseNormalization_keys s) DenseNormalization_key.

(** ** MapIDListFeatures *)

(** The feature configuration ([reagent.core.types]) and the sparse
    preprocessor ([reagent.preprocessing.sparse_preprocessor]) are taken as
    parameters. *)
Variable ModelFeatureConfig : Type.
Variable id2name : ModelFeatureConfig → gmap Z string.
Variable SparsePreprocessor : Type.
Variable make_sparse_preprocessor : ModelFeatureConfig → device → SparsePreprocessor.
Variable preprocess_id_list : SparsePreprocessor → gmap Z value → outcome value.
Variable preprocess_id_score_list : SparsePreprocessor → gmap Z value → outcome value.

Record MapIDListFeatures : Type := mkMapIDListFeatures {
  MapIDListFeatures_id_list_keys : list string;
  MapIDListFeatures_id_score_list_keys : list string;
  MapIDListFeatures_feature_config : ModelFeatureConfig;
  MapIDListFeatures_sparse_preprocessor : SparsePreprocessor;
}.

Definition MapIDListFeatures_init (id_list_keys id_score_list_keys : list string)
    (feature_config : ModelFeatureConfig) (dev : device)
    : M (list event) MapIDListFeatures :=
  py_assert (bool_decide
    (list_to_set id_list_keys ∩ list_to_set id_score_list_keys = (∅ : gset string)));;
  modify (λ w, w ++ [NewSparsePreprocessor]);;
  mret (mkMapIDListFeatures id_list_keys id_score_list_keys feature_config
          (make_sparse_preprocessor feature_config dev)).

(** The body of the loop over the configured keys. *)
Definition MapIDListFeatures_key (s : MapIDListFeatures) (k : string)
    : M (st MapIDListFeatures) unit :=
  present ← on_batch (contains k);
  (* if no ids, it means we're not using sparse features. *)
  if bool_decide (id2name (MapIDListFeatures_feature_config s) = ∅) || negb present
  then on_batch (setitem k VNone)
  else
    v ← on_batch (getitem k);
    match v with
    | VDict m =>
        if bool_decide (k ∈ MapIDListFeatures_id_list_keys s) then
          r ← of_outcome
                (preprocess_id_list (MapIDListFeatures_sparse_preprocessor s) m);
          on_batch (setitem k r)
        else
          r ← of_outcome
                (preprocess_id_score_list (MapIDListFeatures_sparse_preprocessor s) m);
          on_batch (setitem k r)
    | _ => raise AssertionError
    end.

Definition MapIDListFeatures_call : M (st MapIDListFeatures) unit :=
  s ← get_self;
  for_each (MapIDListFeatures_id_list_keys s ++ MapIDListFeatures_id_score_list_keys s)
    (MapIDListFeatures_key s).

(** ** FixedLengthSequences *)

Record FixedLengthSequences : Type := mkFixedLengthSequences {
  FixedLengthSequences_keys : list string;
  FixedLengthSequences_sequence_id : Z;
  FixedLengthSequences_to_keys : list string;
  FixedLengthSequences_expected_length : option Z;
}.

(** [to_keys or keys]: [None] and the empty list both fall back to [keys]. *)
Definition FixedLengthSequences_init (keys : list string) (sequence_id : Z)
    (expected_length : option Z) (to_keys : option (list string))
    : outcome FixedLengthSequences :=
  let to_keys := match to_keys with
                 | Some (k :: ks) => k :: ks
                 | _ => keys
                 end in
  if bool_decide (length to_keys = length keys)
  then Ok (mkFixedLengthSequences keys sequence_id to_keys expected_length)
  else Raise AssertionError.

(** [value[0].shape[0]]: the payload is a (value, presence) pair in the
    documented format; a bare tensor is indexed by row. *)
Definition first_length (payload : value) : outcome Z :=
  match payload with
  | VTuple (VTensor t) _ =>
      or_raise IndexError (Z.of_nat <$> tt_shape t !! 0%nat)
  | VTensor t =>
      match tt_shape t with
      | S _ :: n :: _ => Ok (Z.of_nat n)
      | _ => Raise IndexError
      end
  | _ => Raise TypeError
  end.

(** The body of the loop over [zip(self.keys, self.to_keys)].  The field
    is a dict keyed by sequence id, or a tuple that the sequence id indexes,
    and its entry an (offsets, value) pair with a one-dimensional int64
    offsets tensor, as in the ragged format.  What the source does on other
    objects (a tensor as the field or as the entry, float offsets) depends on
    what these objects happen to support; it is not represented, and such
    values are given [TypeError]. *)
Definition FixedLengthSequences_key (kk : string * string)
    : M (st FixedLengthSequences) unit :=
  let key := kk.1 in
  let to_key := kk.2 in
  s ← get_self;
  v ← on_batch (getitem key);
  entry ← match v with
          | VDict m =>
              of_outcome (or_raise
                (KeyError (pretty (FixedLengthSequences_sequence_id s)))
                (m !! FixedLengthSequences_sequence_id s))
          | VTuple a b =>
              of_outcome (or_raise IndexError
                (py_getitem [a; b] (FixedLengthSequences_sequence_id s)))
          | _ => raise TypeError
          end;
  match entry with
  | VTuple (VTensor (TLong offsets)) value =>
      match shape offsets with
      | [n] =>
          expected_length ←
            match FixedLengthSequences_expected_length s with
            | Some e =>
                (* the constructor's argument, any Python int: the library
                   takes it as an int64 scalar *)
                torch (to_int64 e)
            | None =>
                e ← (if decide (1 < n)%nat then
                       (* If batch size is larger than 1, just use the offsets *)
                       o1 ← torch (data offsets !! 1%nat);
                       o0 ← torch (data offsets !! 0%nat);
                       (* a difference of int64 entries *)
                       mret (wrap64 (o1 - o0))
                     else
                       (* If batch size is 1 *)
                       of_outcome (first_length value));
                set_self (mkFixedLengthSequences
                  (FixedLengthSequences_keys s) (FixedLengthSequences_sequence_id s)
                  (FixedLengthSequences_to_keys s) (Some e));;
                mret e
            end;
          expected_offsets ← torch (arange_stride n expected_length);
          py_assert (bool_decide (expected_offsets = data offsets));;
          on_batch (setitem to_key value)
      | _ => raise TypeError
      end
  | _ => raise TypeError
  end.

Definition FixedLengthSequences_call : M (st FixedLengthSequences) unit :=
  s ← get_self;
  for_each (zip (FixedLengthSequences_keys s) (FixedLengthSequences_to_keys s))
    FixedLengthSequences_key.

(** ** SlateView *)

Record SlateView : Type := mkSlateView {
  SlateView_keys : list string;
  SlateView_slate_size : option Z;
}.

(** The body of the loop over [self.keys]. *)
Definition SlateView_key (self : SlateView) (k : string) : M (gmap string value) unit :=
  v ← getitem k;
  match v with
  | VTensor t =>
      match tt_shape t with
      | [_; dim] =>
          match SlateView_slate_size self with
          | Some slate_size =>
              r ← torch (tt_reshape [-1; slate_size; Z.of_nat dim] t);
              setitem k (VTensor r)
          | None => raise TypeError
          end
      | _ => raise ValueError
      end
  | _ => raise AttributeError
  end.

Definition SlateView_call (self : SlateView) : M (gmap string value) unit :=
  for_each (SlateView_keys self) (SlateView_key self).

(** ** FixedLengthSequenceDenseNormalization *)

Record FixedLengthSequenceDenseNormalization : Type :=
  mkFixedLengthSequenceDenseNormalization {
    fixed_length_sequences : FixedLengthSequences;
    dense_normalization : DenseNormalization;
    slate_view : SlateView;
  }.

(** [f"{k}:{sequence_id}"] *)
Definition derived_key (sequence_id : Z) (k : string) : string :=
  k +:+ ":" +:+ pretty sequence_id.

Definition FixedLengthSequenceDenseNormalization_init (keys : list string)
    (sequence_id : Z) (normalization_data : NormalizationData)
    (expected_length : option Z) (dev : option device)
    : M (list event) FixedLengthSequenceDenseNormalization :=
  let to_keys := derived_key sequence_id <$> keys in
  fls ← of_outcome
          (FixedLengthSequences_init keys sequence_id expected_length (Some to_keys));
  dn ← DenseNormalization_init to_keys normalization_data dev;
  (* We will override this in __call__() *)
  mret (mkFixedLengthSequenceDenseNormalization fls dn (mkSlateView to_keys (Some (-1)))).

(** ** Dict objects on a heap: Rename and Filter

    Rename and Filter build a second dict, so the dicts are placed on a
    heap and a call takes and returns an address. *)

Definition loc : Type := positive.

(** [dict(data)] and [{}]: a new object at an unused address *)
Definition alloc (d : gmap string value) : M (gmap loc (gmap string value)) loc :=
  λ h, let l := fresh (dom h) in (Ok l, <[l := d]> h).

(** Run a computation on the dict stored at [l].  Python never hands out an
    address that is not allocated; the model answers [RuntimeError] there. *)
Definition at_loc {A} (l : loc) (m : M (gmap string value) A)
    : M (gmap loc (gmap string value)) A :=
  λ h, match h !! l with
       | Some d => let '(o, d') := m d in (o, <[l := d']> h)
       | None => (Raise RuntimeError, h)
       end.

Record Rename : Type := mkRename {
  Rename_old_names : list string;
  Rename_new_names : list string;
}.

Definition Rename_init (old_names new_names : list string) : outcome Rename :=
  Ok (mkRename old_names new_names).

Definition Rename_call (self : Rename) (data : loc)
    : M (gmap loc (gmap string value)) loc :=
  d ← at_loc data get;
  new_data ← alloc d;
  for_each (zip (Rename_old_names self) (Rename_new_names self)) (λ on,
    v ← at_loc new_data (popitem on.1);
    at_loc new_data (setitem on.2 v));;
  mret new_data.

Record Filter : Type := mkFilter {
  Filter_keep_keys : option (list string);
  Filter_remove_keys : option (list string);
}.

Definition Filter_init (keep_keys remove_keys : option (list string)) : outcome Filter :=
  if bool_decide (bool_decide (keep_keys = None) ≠ bool_decide (remove_keys = None))
  then Ok (mkFilter keep_keys remove_keys)
  else Raise AssertionError.

Definition Filter_call (self : Filter) (data : loc)
    : M (gmap loc (gmap string value)) loc :=
  match Filter_keep_keys self with
  | Some (k0 :: ks) =>
      new_data ← alloc ∅;
      for_each (k0 :: ks) (λ k,
        present ← at_loc data (contains k);
        if present : bool then
          v ← at_loc data (getitem k);
          at_loc new_data (setitem k v)
        else mret tt);;
      mret new_data
  | _ =>
      d ← at_loc data get;
      new_data ← alloc d;
      match Filter_remove_keys self with
      | Some remove_keys =>
          for_each remove_keys (λ k,
            present ← at_loc new_data (contains k);
            if present : bool then at_loc new_data (delitem k) else mret tt)
      | None => raise TypeError
      end;;
      mret new_data
  end.

(** ** Tensors as objects

    The transforms above take a tensor for its contents, which is all that
    a transform working on its own field can observe.  Python holds tensors
    by reference: [data[to_key] = value] in FixedLengthSequences makes two
    fields share one tensor, and [value[mask] = 0] in DenseNormalization
    writes into that tensor, whoever else holds it.  To follow a tensor
    through the composite FixedLengthSequenceDenseNormalization, a field
    here holds the address of a tensor, and a store maps each address to the
    device and the contents of the tensor.  Every tensor of the store has a
    storage of its own, and the preprocessor, a collaborator, reads its
    arguments and returns a new tensor. *)

#[global] Instance device_eq_dec : EqDecision device.
Proof. solve_decision. Defined.

Inductive ref_value : Type :=
| RNone
| RTensor (l : loc)
| RNdarray (a : tensor string)
| RTuple (a b : ref_value)
| RList (l : list string)
| RDict (m : gmap Z ref_value).

Record ost (Self : Type) : Type := OSt {
  oworld : list event;
  oself : Self;
  obatch : gmap string ref_value;
  otensors : gmap loc (device * ttensor);
}.
Arguments OSt {Self} _ _ _ _.
Arguments oworld {Self} _.
Arguments oself {Self} _.
Arguments obatch {Self} _.
Arguments otensors {Self} _.

Definition ref_getitem {Self} (k : string) : M (ost Self) ref_value :=
  λ s, match obatch s !! k with
       | Some v => (Ok v, s)
       | None => (Raise (KeyError k), s)
       end.
Definition ref_setitem {Self} (k : string) (v : ref_value) : M (ost Self) unit :=
  λ s, (Ok tt, OSt (oworld s) (oself s) (<[k := v]> (obatch s)) (otensors s)).
Definition oget_self {Self} : M (ost Self) Self := λ s, (Ok (oself s), s).
Definition oset_self {Self} (x : Self) : M (ost Self) unit :=
  λ s, (Ok tt, OSt (oworld s) x (obatch s) (otensors s)).
Definition olog {Self} (e : event) : M (ost Self) unit :=
  λ s, (Ok tt, OSt (oworld s ++ [e]) (oself s) (obatch s) (otensors s)).
(** Calling a transform that is stored in a field of [self]. *)
Definition osub {Self Sub A} (view : Self → Sub) (update : Sub → Self → Self)
    (m : M (ost Sub) A) : M (ost Self) A :=
  zoom (λ s, OSt (oworld s) (view (oself s)) (obatch s) (otensors s))
       (λ t s, OSt (oworld t) (update (oself t) (oself s)) (obatch t) (otensors t)) m.

(** Reading and writing the contents of a tensor, and making a new tensor.
    Python never hands out an address that is not allocated; the model
    answers [RuntimeError] there. *)
Definition tensor_read {Self} (l : loc) : M (ost Self) (device * ttensor) :=
  λ s, match otensors s !! l with
       | Some t => (Ok t, s)
       | None => (Raise RuntimeError, s)
       end.
Definition tensor_write {Self} (l : loc) (t : ttensor) : M (ost Self) unit :=
  λ s, match otensors s !! l with
       | Some old =>
           (Ok tt, OSt (oworld s) (oself s) (obatch s) (<[l := (old.1, t)]> (otensors s)))
       | None => (Raise RuntimeError, s)
       end.
Definition tensor_new {Self} (dev : device) (t : ttensor) : M (ost Self) loc :=
  λ s, let l := fresh (dom (otensors s)) in
       (Ok l, OSt (oworld s) (oself s) (obatch s) (<[l := (dev, t)]> (otensors s))).
(** [t.to(device)]: the tensor itself when it lives on that device, a copy
    on the device otherwise *)
Definition tensor_to {Self} (dev : device) (l : loc) : M (ost Self) loc :=
  t ← tensor_read l;
  if decide (t.1 = dev) then mret l else tensor_new dev t.2.

(** *** FixedLengthSequences *)

Definition first_length_obj {Self} (payload : ref_value) : M (ost Self) Z :=
  match payload with
  | RTuple (RTensor l) _ =>
      t ← tensor_read l;
      of_outcome (or_raise IndexError (Z.of_nat <$> tt_shape t.2 !! 0%nat))
  | RTensor l =>
      t ← tensor_read l;
      match tt_shape t.2 with
      | S _ :: n :: _ => mret (Z.of_nat n)
      | _ => raise IndexError
      end
  | _ => raise TypeError
  end.

(** The body of the loop of FixedLengthSequences, on the fields that
    [FixedLengthSequences_key] covers: [data[to_key] = value] stores the
    address of the payload, not a copy.  The expected offsets are built on
    the CPU; the library refuses to compare them with offsets that live on
    another device. *)
Definition FixedLengthSequences_key_obj (kk : string * string)
    : M (ost FixedLengthSequences) unit :=
  let key := kk.1 in
  let to_key := kk.2 in
  s ← oget_self;
  v ← ref_getitem key;
  entry ← match v with
          | RDict m =>
              of_outcome (or_raise
                (KeyError (pretty (FixedLengthSequences_sequence_id s)))
                (m !! FixedLengthSequences_sequence_id s))
          | RTuple a b =>
              of_outcome (or_raise IndexError
                (py_getitem [a; b] (FixedLengthSequences_sequence_id s)))
          | _ => raise TypeError
          end;
  match entry with
  | RTuple (RTensor lo) value =>
      o ← tensor_read lo;
      match o.2 with
      | TLong offsets =>
          match shape offsets with
          | [n] =>
              expected_length ←
                match FixedLengthSequences_expected_length s with
                | Some e => torch (to_int64 e)
                | None =>
                    e ← (if decide (1 < n)%nat then
                           o1 ← torch (data offsets !! 1%nat);
                           o0 ← torch (data offsets !! 0%nat);
                           mret (wrap64 (o1 - o0))
                         else first_length_obj value);
                    oset_self (mkFixedLengthSequences
                      (FixedLengthSequences_keys s) (FixedLengthSequences_sequence_id s)
                      (FixedLengthSequences_to_keys s) (Some e));;
                    mret e
                end;
              expected_offsets ← torch (arange_stride n expected_length);
              (* [expected_offsets] is made on the CPU, and is compared there *)
              (if decide (o.1 = cpu) then mret tt else raise RuntimeError);;
              py_assert (bool_decide (expected_offsets = data offsets));;
              ref_setitem to_key value
          | _ => raise TypeError
          end
      | TFloat _ => raise TypeError
      end
  | _ => raise TypeError
  end.

Definition FixedLengthSequences_call_obj : M (ost FixedLengthSequences) unit :=
  s ← oget_self;
  for_each (zip (FixedLengthSequences_keys s) (FixedLengthSequences_to_keys s))
    FixedLengthSequences_key_obj.

(** *** DenseNormalization *)

(** The body of the loop of DenseNormalization.  The two masks are written
    into the tensors that the field holds, when these live on the device of
    the transform, and into copies otherwise.  The rows of a tensor of two
    rows are views of it: what is written to them is written to the tensor.
    Every tensor of the store has a storage of its own. *)
Definition DenseNormalization_key_obj (k : string) : M (ost DenseNormalization) unit :=
  v ← ref_getitem k;
  s ← oget_self;
  let preprocess (value presence : ttensor) : M (ost DenseNormalization) unit :=
    match DenseNormalization__preprocessor s with
    | Some p =>
        r ← of_outcome (Preprocessor_call p value presence);
        l ← tensor_new (DenseNormalization_device s) (TFloat r);
        ref_setitem k (RTensor l)
    | None => raise TypeError
    end in
  match v with
  | RNone => raise TypeError
  | RTuple (RTensor lv) (RTensor lp) =>
      lv ← tensor_to (DenseNormalization_device s) lv;
      lp ← tensor_to (DenseNormalization_device s) lp;
      (* presence[torch.isnan(value)] = 0 *)
      value ← tensor_read lv;
      presence ← tensor_read lp;
      presence ← of_outcome (or_raise IndexError
                    (tt_masked_zero (tt_shape value.2) (nan_mask value.2) presence.2));
      tensor_write lp presence;;
      (* value[torch.isnan(value)] = 0 *)
      value ← tensor_read lv;
      value ← of_outcome (or_raise IndexError
                    (tt_masked_zero (tt_shape value.2) (nan_mask value.2) value.2));
      tensor_write lv value;;
      presence ← tensor_read lp;
      preprocess value presence.2
  | RTuple _ _ => raise AttributeError
  | RTensor l =>
      t ← tensor_read l;
      match tt_shape t.2 with
      | [] => raise TypeError
      | n :: _ =>
          if decide (n = 2%nat) then
            let t' := tt_zero_rows t.2 in
            (if decide (t.1 = DenseNormalization_device s)
             then tensor_write l t' else mret tt);;
            preprocess (tt_row 0 t') (tt_row 1 t')
          else raise ValueError
      end
  | RNdarray a =>
      match shape a with
      | [] => raise TypeError
      | n :: _ => raise (if decide (n = 2%nat) then AttributeError else ValueError)
      end
  | RList l => raise (if decide (length l = 2%nat) then AttributeError else ValueError)
  | RDict m => raise (if decide (size m = 2%nat) then AttributeError else ValueError)
  end.

Definition DenseNormalization_call_obj : M (ost DenseNormalization) unit :=
  s ← oget_self;
  match DenseNormalization__preprocessor s with
  | None =>
      olog NewPreprocessor;;
      oset_self (mkDenseNormalization
        (DenseNormalization_keys s) (DenseNormalization_normalization_data s)
        (DenseNormalization_device s)
        (Some (Preprocessor_init
                 (dense_normalization_parameters (DenseNormalization_normalization_data s))
                 (DenseNormalization_device s))))
  | Some _ => mret tt
  end;;
  for_each (DenseNormalization_keys s) DenseNormalization_key_obj.

(** *** SlateView *)

(** The body of the loop of SlateView.  A view is a new tensor over the
    storage of the one it views; nothing in the composite writes to a tensor
    after this point, so the view is given contents of its own. *)
Definition SlateView_key_obj {Self} (self : SlateView) (k : string) : M (ost Self) unit :=
  v ← ref_getitem k;
  match v with
  | RTensor l =>
      t ← tensor_read l;
      match tt_shape t.2 with
      | [_; dim] =>
          match SlateView_slate_size self with
          | Some slate_size =>
              r ← torch (tt_reshape [-1; slate_size; Z.of_nat dim] t.2);
              l' ← tensor_new t.1 r;
              ref_setitem k (RTensor l')
          | None => raise TypeError
          end
      | _ => raise ValueError
      end
  | _ => raise AttributeError
  end.

Definition SlateView_call_obj {Self} (self : SlateView) : M (ost Self) unit :=
  for_each (SlateView_keys self) (SlateView_key_obj self).

(** *** FixedLengthSequenceDenseNormalization *)

Definition FixedLengthSequenceDenseNormalization_call
    : M (ost FixedLengthSequenceDenseNormalization) unit :=
  osub fixed_length_sequences
       (λ x s, mkFixedLengthSequenceDenseNormalization
                 x (dense_normalization s) (slate_view s))
       FixedLengthSequences_call_obj;;
  osub dense_normalization
       (λ x s, mkFixedLengthSequenceDenseNormalization
                 (fixed_length_sequences s) x (slate_view s))
       DenseNormalization_call_obj;;
  s ← oget_self;
  oset_self (mkFixedLengthSequenceDenseNormalization
               (fixed_length_sequences s) (dense_normalization s)
               (mkSlateView (SlateView_keys (slate_view s))
                  (FixedLengthSequences_expected_length (fixed_length_sequences s))));;
  s ← oget_self;
  SlateView_call_obj (slate_view s).

(** ** Compose *)

(** [Compose(t1, ..., tn)(data)]: each transform is a callable that takes the
    object it is given and returns an object, with effects on a state [S]. *)
Fixpoint Compose_call {S D} (transforms : list (D → M S D)) (data : D) : M S D :=
  match transforms with
  | [] => mret data
  | t :: ts => data ← t data; Compose_call ts data
  end.

(** ** ValuePresence *)

(** [f"{k}_presence"] *)
Definition presence_key (k : string) : string := k +:+ "_presence".

(** [keys] is [list(data.keys())], the keys of the dict in its own order;
    the map does not record that order, so the call takes it as an
    argument. *)
Definition ValuePresence_call (keys : list string) : M (gmap string value) unit :=
  for_each keys (λ k,
    present ← contains (presence_key k);
    if present : bool then
      v ← getitem k;
      p ← getitem (presence_key k);
      setitem k (VTuple v p);;
      delitem (presence_key k)
    else mret tt).

(** ** Lambda *)

Record Lambda : Type := mkLambda {
  Lambda_keys : list string;
  Lambda_fn : value → outcome value;
}.

Definition Lambda_call (self : Lambda) : M (gmap string value) unit :=
  for_each (Lambda_keys self) (λ k,
    v ← getitem k;
    r ← of_outcome (Lambda_fn self v);
    setitem k r).

(** ** SelectValuePresenceColumns *)

(** [t[:, indices]] for a list of integers: the listed positions of
    dimension 1, negative ones counted from the end. *)
Definition select_columns {A} (indices : list Z) (t : tensor A) : option (tensor A) :=
  match shape t with
  | _ :: n :: _ => index ← mapM (py_index n) indices; index_select 1 index t
  | _ => None
  end.

Definition tt_select_columns (indices : list Z) (t : ttensor) : option ttensor :=
  match t with
  | TLong t => TLong <$> select_columns indices t
  | TFloat t => TFloat <$> select_columns indices t
  end.

Record SelectValuePresenceColumns : Type := mkSelectValuePresenceColumns {
  SelectValuePresenceColumns_source : string;
  SelectValuePresenceColumns_dest : string;
  SelectValuePresenceColumns_indices : list Z;
}.

(** The source unpacks whatever the field holds into two names; the fields
    covered here are (value, presence) pairs of tensors, any other value is
    given the error of a value that cannot be unpacked. *)
Definition SelectValuePresenceColumns_call (self : SelectValuePresenceColumns)
    : M (gmap string value) unit :=
  v ← getitem (SelectValuePresenceColumns_source self);
  match v with
  | VTuple (VTensor value) (VTensor presence) =>
      value ← of_outcome (or_raise IndexError
                 (tt_select_columns (SelectValuePresenceColumns_indices self) value));
      presence ← of_outcome (or_raise IndexError
                 (tt_select_columns (SelectValuePresenceColumns_indices self) presence));
      setitem (SelectValuePresenceColumns_dest self)
              (VTuple (VTensor value) (VTensor presence))
  | _ => raise TypeError
  end.

(** ** MaskByPresence *)

Record MaskByPresence : Type := mkMaskByPresence {
  MaskByPresence_keys : list string;
}.

(** [value * presence.float()] for two tensors of one shape *)
Definition mask_mul (value presence : ttensor) : ttensor :=
  TFloat (Tensor (tt_shape value)
            (zip_with f_mul (data (to_float value)) (data (to_float presence)))).

Definition MaskByPresence_call (self : MaskByPresence) : M (gmap string value) unit :=
  for_each (MaskByPresence_keys self) (λ k,
    value_presence ← getitem k;
    match value_presence with
    | VTuple value presence =>
        match value, presence with
        | VTensor value, VTensor presence =>
            py_assert (bool_decide (tt_shape value = tt_shape presence));;
            setitem k (VTensor (mask_mul value presence))
        | _, _ => raise AttributeError
        end
    | _ => raise AssertionError
    end).

(** ** UnsqueezeRepeat *)

(** [t.unsqueeze(dim)]: a new dimension of size 1 at position [dim], counted
    from the end when negative; the contents are those of [t]. *)
Definition unsqueeze {A} (dim : Z) (t : tensor A) : option (tensor A) :=
  p ← py_index (S (ndim t)) dim;
  Some (Tensor (take p (shape t) ++ 1%nat :: drop p (shape t)) (data t)).

(** [t.repeat(counts)] with one count per dimension, as the caller below
    passes them. *)
Definition tensor_repeat {A} (counts : list Z) (t : tensor A) : option (tensor A) :=
  if decide (length counts = ndim t ∧ Forall (λ c, 0 ≤ c) counts) then
    tabulate (zip_with (λ n c, n * Z.to_nat c)%nat (shape t) counts)
      (λ ix, tget t (zip_with (λ i n, i mod n)%nat ix (shape t)))
  else None.

Definition tt_unsqueeze (dim : Z) (t : ttensor) : option ttensor :=
  match t with
  | TLong t => TLong <$> unsqueeze dim t
  | TFloat t => TFloat <$> unsqueeze dim t
  end.

Definition tt_repeat (counts : list Z) (t : ttensor) : option ttensor :=
  match t with
  | TLong t => TLong <$> tensor_repeat counts t
  | TFloat t => TFloat <$> tensor_repeat counts t
  end.

Record UnsqueezeRepeat : Type := mkUnsqueezeRepeat {
  UnsqueezeRepeat_keys : list string;
  UnsqueezeRepeat_dim : Z;
  UnsqueezeRepeat_num_repeat : Z;
}.

Definition UnsqueezeRepeat_call (self : UnsqueezeRepeat) : M (gmap string value) unit :=
  for_each (UnsqueezeRepeat_keys self) (λ k,
    v ← getitem k;
    t ← of_outcome (as_tensor AttributeError v);
    u ← of_outcome (or_raise IndexError (tt_unsqueeze (UnsqueezeRepeat_dim self) t));
    setitem k (VTensor u);;
    if decide (UnsqueezeRepeat_num_repeat self ≠ 1) then
      p ← of_outcome (or_raise IndexError
            (py_index (tt_ndim u) (UnsqueezeRepeat_dim self)));
      let repeat_counters :=
        <[p := UnsqueezeRepeat_num_repeat self]> (replicate (tt_ndim u) 1) in
      r ← torch (tt_repeat repeat_counters u);
      setitem k (VTensor r)
    else mret tt).

(** ** OuterProduct *)

(** [torch.einsum("...i,...j->...ij", (x, y)).flatten(start_dim=-2)]: the
    leading dimensions are broadcast, the last dimension holds the products
    [x[..., i] * y[..., j]] at position [i * m + j].  The product of two
    int64 entries is an int64: it wraps around. *)
Definition outer_flat {A} (mul : A → A → A) (x y : tensor A) : option (tensor A) :=
  n ← last (shape x);
  m ← last (shape y);
  bs ← broadcast_shapes [all_but_last (shape x); all_but_last (shape y)];
  x' ← expand (bs ++ [n]) x;
  y' ← expand (bs ++ [m]) y;
  tabulate (bs ++ [(n * m)%nat])
    (λ ix, let b := take (length bs) ix in
           k ← ix !! length bs;
           a ← tget x' (b ++ [(k / m)%nat]);
           c ← tget y' (b ++ [(k mod m)%nat]);
           Some (mul a c)).

Definition _get_product_features (x y : ttensor) : option ttensor :=
  match as_long x, as_long y with
  | Some a, Some b => TLong <$> outer_flat (λ a b, wrap64 (a * b)) a b
  | _, _ => TFloat <$> outer_flat f_mul (to_float x) (to_float y)
  end.

Record OuterProduct : Type := mkOuterProduct {
  OuterProduct_key1 : string;
  OuterProduct_key2 : string;
  OuterProduct_output_key : string;
  OuterProduct_drop_inputs : bool;
}.

Definition OuterProduct_call (self : OuterProduct) : M (gmap string value) unit :=
  x ← getitem (OuterProduct_key1 self);
  y ← getitem (OuterProduct_key2 self);
  match x, y with
  | VTensor x, VTensor y =>
      prod ← torch (_get_product_features x y);
      setitem (OuterProduct_output_key self) (VTensor prod);;
      if OuterProduct_drop_inputs self then
        delitem (OuterProduct_key1 self);;
        delitem (OuterProduct_key2 self)
      else mret tt
  | _, _ => raise TypeError
  end.

(** ** Notions used in the statements *)

(** The same entries under another shape. *)
Definition with_shape (sh : list nat) (t : ttensor) : ttensor :=
  match t with
  | TLong t => TLong (Tensor sh (data t))
  | TFloat t => TFloat (Tensor sh (data t))
  end.

(** Agreement of two heaps away from one address. *)
Definition same_but (l : loc) (h h' : gmap loc (gmap string value)) : Prop :=
  ∀ l', l' ≠ l → h' !! l' = h !! l'.

(** The collaborators built so far and the instance are unchanged. *)
Definition same_instance {Self} (s s' : st Self) : Prop :=
  world s' = world s ∧ self s' = self s.

(** Two batches that agree on every key outside [T]. *)
Definition outside {V} (T : list string) (d d' : gmap string V) : Prop :=
  ∀ k, k ∉ T → d' !! k = d !! k.

(** What an in-place mask can do to a tensor: same type and shape, every
    entry kept or set to zero. *)
Definition zeroed (t t' : ttensor) : Prop :=
  match t, t' with
  | TLong a, TLong b =>
      shape b = shape a ∧ Forall2 (λ x y, y = x ∨ y = 0) (data a) (data b)
  | TFloat a, TFloat b =>
      shape b = shape a ∧ Forall2 (λ x y, y = x ∨ y = f_zero) (data a) (data b)
  | _, _ => False
  end.

(** A key that is bound to a tensor of the store. *)
Definition holds_tensor {Self} (s : ost Self) (k : string) : Prop :=
  ∃ l x, obatch s !! k = Some (RTensor l) ∧ otensors s !! l = Some x.

(** [data[key][sequence_id]] for a field that is a dict or a pair. *)
Definition sequence_entry (sequence_id : Z) (v : ref_value) : option ref_value :=
  match v with
  | RDict m => m !! sequence_id
  | RTuple a b => py_getitem [a; b] sequence_id
  | _ => None
  end.

(** Every tensor of the first store is in the second, at its address and on
    its device, with entries that were kept or set to zero. *)
Definition only_zeroed (T T' : gmap loc (device * ttensor)) : Prop :=
  ∀ l dev t, T !! l = Some (dev, t) → ∃ t', T' !! l = Some (dev, t') ∧ zeroed t t'.

(** Every tensor of the first store is in the second, unchanged. *)
Definition kept (T T' : gmap loc (device * ttensor)) : Prop :=
  ∀ l x, T !! l = Some x → T' !! l = Some x.


(** * Properties *)

(** ** Facts about indexing *)

Lemma length_indices sh : length (indices sh) = numel sh.
Proof.
  induction sh as [|n sh IH]; simpl; [done|].
  generalize 0%nat. induction n as [|n IHn]; intros s; simpl; [done|].
  rewrite length_app, length_fmap, IH, IHn. done.
Qed.

Lemma lookup_bind_blocks {B} (g : nat → list B) (m s n i o : nat) :
  (∀ j, length (g j) = m) → (i < n)%nat → (o < m)%nat →
  (seq s n ≫= g) !! (i * m + o)%nat = g (s + i)%nat !! o.
Proof.
  intros Hg. revert s i. induction n as [|n IH]; intros s i Hi Ho; [lia|].
  simpl. destruct i as [|i].
  - rewrite lookup_app_l by (rewrite Hg; lia).
    by replace (s + 0)%nat with s by lia.
  - rewrite lookup_app_r by (rewrite Hg; lia).
    rewrite Hg. replace (S i * m + o - m)%nat with (i * m + o)%nat by lia.
    rewrite IH by lia. f_equal. f_equal. lia.
Qed.

Lemma offset_lt sh ix o : offset sh ix = Some o → (o < numel sh)%nat.
Proof.
  revert ix o. induction sh as [|n sh IH]; intros [|i ix] o H; simplify_eq/=.
  - lia.
  - case_decide; [|done]. destruct (offset sh ix) as [o'|] eqn:E; simplify_eq/=.
    apply IH in E. nia.
Qed.

Lemma offset_length sh ix o : offset sh ix = Some o → length ix = length sh.
Proof.
  revert ix o. induction sh as [|n sh IH]; intros [|i ix] o H; simplify_eq/=; [done|].
  case_decide; [|done]. destruct (offset sh ix) as [o'|] eqn:E; simplify_eq/=.
  f_equal. eauto.
Qed.

Lemma indices_offset sh ix o : offset sh ix = Some o → indices sh !! o = Some ix.
Proof.
  revert ix o. induction sh as [|n sh IH]; intros [|i ix] o H; simplify_eq/=; [done|].
  case_decide; [|done]. destruct (offset sh ix) as [o'|] eqn:E; simplify_eq/=.
  rewrite (lookup_bind_blocks _ (numel sh)).
  - rewrite list_lookup_fmap, (IH _ _ E). done.
  - intros j. by rewrite length_fmap, length_indices.
  - done.
  - by eapply offset_lt.
Qed.

Lemma tabulate_shape {A} sh (f : list nat → option A) t :
  tabulate sh f = Some t → shape t = sh.
Proof. unfold tabulate. intros H. destruct (mapM f (indices sh)); by simplify_eq/=. Qed.

Lemma tabulate_wf {A} sh (f : list nat → option A) t :
  tabulate sh f = Some t → wf t.
Proof.
  unfold tabulate, wf. intros H.
  destruct (mapM f (indices sh)) as [d|] eqn:E; simplify_eq/=.
  apply length_mapM in E. by rewrite <- E, length_indices.
Qed.

Lemma tabulate_get {A} sh (f : list nat → option A) t ix :
  tabulate sh f = Some t → is_Some (offset sh ix) → tget t ix = f ix.
Proof.
  unfold tabulate, tget. intros H [o Ho].
  destruct (mapM f (indices sh)) as [d|] eqn:E; simplify_eq/=.
  rewrite Ho. simpl. apply mapM_Some in E.
  pose proof (indices_offset _ _ _ Ho) as Hix.
  destruct (Forall2_lookup_l _ _ _ _ _ E Hix) as (y & Hy & Hf). by rewrite Hy.
Qed.

Lemma offset_indices sh ix : ix ∈ indices sh → is_Some (offset sh ix).
Proof.
  revert ix. induction sh as [|n sh IH]; intros ix; simpl.
  - intros ->%list_elem_of_singleton. by eexists.
  - intros (i & Hix & Hi)%list_elem_of_bind.
    apply list_elem_of_fmap in Hix as (ix' & -> & Hix').
    apply elem_of_seq in Hi. simpl. rewrite decide_True by lia.
    destruct (IH _ Hix') as [o ->]. by eexists.
Qed.

Lemma tabulate_is_Some {A} sh (f : list nat → option A) :
  (∀ ix, is_Some (offset sh ix) → is_Some (f ix)) → is_Some (tabulate sh f).
Proof.
  intros Hf. unfold tabulate.
  destruct (mapM f (indices sh)) as [d|] eqn:E; [by eexists|].
  exfalso. assert (is_Some (mapM f (indices sh))) as [? ?]; [|congruence].
  apply mapM_is_Some. apply Forall_forall. intros ix Hix.
  apply Hf. by apply offset_indices.
Qed.

(** ** Facts about the library operations *)

Lemma offset_is_Some sh ix :
  is_Some (offset sh ix) ↔ Forall2 (λ i n, i < n)%nat ix sh.
Proof.
  revert ix. induction sh as [|n sh IH]; intros [|i ix]; simpl.
  - split; [constructor | by eexists].
  - split; [by intros [? ?] | inversion 1].
  - split; [by intros [? ?] | inversion 1].
  - case_decide as Hi.
    + rewrite Forall2_cons, <- IH.
      destruct (offset sh ix); simpl.
      * split; [by intros _; split | by intros _; eexists].
      * split; [by intros [? ?] | by intros [_ [? ?]]].
    + split; [by intros [? ?] | inversion 1; done].
Qed.

Lemma tget_is_Some {A} (t : tensor A) ix :
  wf t → is_Some (offset (shape t) ix) → is_Some (tget t ix).
Proof.
  intros Hwf [o Ho]. unfold tget. rewrite Ho. simpl.
  apply lookup_lt_is_Some. rewrite Hwf. by eapply offset_lt.
Qed.

Lemma tget_in_range {A} (t : tensor A) ix x :
  tget t ix = Some x → Forall2 (λ i n, i < n)%nat ix (shape t).
Proof.
  unfold tget. intros H. apply offset_is_Some.
  destruct (offset (shape t) ix); [by eexists|done].
Qed.

Lemma py_index_last n : py_index (S n) (-1) = Some n.
Proof.
  unfold py_index. rewrite decide_False by lia. rewrite decide_True by lia.
  f_equal. lia.
Qed.

Lemma py_index_nat n (i : nat) : (i < n)%nat → py_index n (Z.of_nat i) = Some i.
Proof.
  intros. unfold py_index. rewrite decide_True by lia. f_equal. lia.
Qed.

(** The one-hot encoding has a new last dimension that holds 1 exactly at
    the class. *)
Lemma one_hot_spec (t : tensor Z) (nc : Z) :
  wf t → 0 < nc → Forall (λ x, 0 ≤ x < nc) (data t) →
  ∃ h, one_hot t nc = Some h
       ∧ shape h = shape t ++ [Z.to_nat nc]
       ∧ wf h
       ∧ ∀ ix (j : nat) c,
           tget t ix = Some c → (Z.of_nat j < nc) →
           tget h (ix ++ [j]) = Some (if decide (Z.of_nat j = c) then 1 else 0).
Proof.
  intros Hwf Hnc Hall. unfold one_hot.
  destruct (decide (numel (shape t) = 0)%nat) as [Hz|Hz].
  - rewrite decide_False by lia. eexists. split_and!; [done|done| |].
    + unfold wf. simpl. unfold numel. rewrite foldr_app. simpl.
      fold (numel (shape t)).
      assert (∀ l a, foldr Nat.mul a l = (numel l * a)%nat) as Hf.
      { induction l as [|x l IH]; intros a; simpl; [lia|]. rewrite IH. lia. }
      rewrite Hf, Hz. done.
    + intros ix j c Hc _. exfalso. unfold tget in Hc.
      destruct (offset (shape t) ix) as [o|] eqn:Ho; [|done].
      apply offset_lt in Ho. lia.
  - rewrite decide_True by (eapply Forall_impl; [done|]; simpl; lia).
    assert (foldr Z.max 0 (data t) < nc) as Hhi.
    { clear -Hall Hnc. induction Hall; simpl; lia. }
    rewrite decide_False by lia. rewrite decide_True by done. simpl.
    assert (is_Some (tabulate (shape t ++ [Z.to_nat nc])
      (λ ix, c ← tget t (take (ndim t) ix);
             j ← ix !! ndim t;
             Some (if decide (Z.of_nat j = c) then 1 else 0)))) as [h Hh].
    { apply tabulate_is_Some. intros ix Hix%offset_is_Some.
      apply Forall2_app_inv_r in Hix as (ix1 & ix2 & H1 & H2 & ->).
      pose proof (Forall2_length _ _ _ H1) as Hlen.
      apply Forall2_length in H2 as Hlen2. destruct ix2 as [|j [|??]]; try done.
      unfold ndim. rewrite <- Hlen, take_app_length.
      destruct (tget_is_Some t ix1 Hwf) as [c ->]; [by apply offset_is_Some|].
      simpl. rewrite lookup_app_r by lia. rewrite Nat.sub_diag. simpl. by eexists. }
    exists h. split_and!; [done| by eapply tabulate_shape | by eapply tabulate_wf |].
    intros ix j c Hc Hj.
    pose proof (tget_in_range _ _ _ Hc) as Hr.
    pose proof (Forall2_length _ _ _ Hr) as Hlen.
    rewrite (tabulate_get _ _ _ _ Hh).
    + unfold ndim. rewrite <- Hlen, take_app_length, Hc. simpl.
      rewrite lookup_app_r by lia. rewrite Nat.sub_diag. done.
    + apply offset_is_Some. apply Forall2_app; [done|].
      constructor; [lia|constructor].
Qed.

(** Selecting the first [n] entries of the last dimension. *)
Lemma index_select_last_prefix {A} (h : tensor A) sh (m n : nat) :
  wf h → shape h = sh ++ [m] → (n ≤ m)%nat →
  ∃ r, index_select (-1) (seq 0 n) h = Some r
       ∧ shape r = sh ++ [n]
       ∧ wf r
       ∧ ∀ ix (j : nat),
           Forall2 (λ i k, i < k)%nat ix sh → (j < n)%nat →
           tget r (ix ++ [j]) = tget h (ix ++ [j]).
Proof.
  intros Hwf Hsh Hn. unfold index_select, ndim. rewrite Hsh.
  rewrite length_app. simpl. rewrite Nat.add_1_r, py_index_last. simpl.
  rewrite lookup_app_r by lia. rewrite Nat.sub_diag. simpl.
  rewrite decide_True by (apply Forall_forall; intros k Hk%elem_of_seq; lia).
  rewrite length_seq.
  assert (<[length sh := n]> (sh ++ [m]) = sh ++ [n]) as Hins.
  { rewrite insert_app_r_alt by lia. by rewrite Nat.sub_diag. }
  rewrite Hins.
  assert (is_Some (tabulate (sh ++ [n])
    (λ ix, j ← ix !! length sh; k ← seq 0 n !! j; tget h (<[length sh := k]> ix))))
    as [r Hr].
  { apply tabulate_is_Some. intros ix Hix%offset_is_Some.
    apply Forall2_app_inv_r in Hix as (ix1 & ix2 & H1 & H2 & ->).
    pose proof (Forall2_length _ _ _ H1) as Hlen.
    apply Forall2_length in H2 as Hlen2. destruct ix2 as [|j [|??]]; try done.
    apply Forall2_cons_1 in H2 as [Hj _].
    rewrite lookup_app_r by lia. rewrite <- Hlen, Nat.sub_diag. simpl.
    rewrite lookup_seq_lt by done. simpl.
    rewrite insert_app_r_alt by lia. rewrite Nat.sub_diag. simpl.
    apply tget_is_Some; [done|]. rewrite Hsh. apply offset_is_Some.
    apply Forall2_app; [done|]. constructor; [lia|constructor]. }
  exists r. split_and!; [done| by eapply tabulate_shape | by eapply tabulate_wf |].
  intros ix j Hix Hj. pose proof (Forall2_length _ _ _ Hix) as Hlen.
  rewrite (tabulate_get _ _ _ _ Hr).
  - rewrite lookup_app_r by lia. rewrite <- Hlen, Nat.sub_diag. simpl.
    rewrite lookup_seq_lt by done. simpl.
    rewrite insert_app_r_alt by lia. by rewrite Nat.sub_diag.
  - apply offset_is_Some. apply Forall2_app; [done|]. constructor; [lia|constructor].
Qed.

Lemma infer_shape_column n : infer_shape [-1; 1] n = Some [n; 1%nat].
Proof.
  unfold infer_shape. rewrite decide_True by (repeat constructor; lia).
  change (filter (λ z, z = -1) [-1; 1]) with [-1].
  change (filter (λ z, z ≠ -1) [-1; 1]) with [1].
  change (numel (Z.to_nat <$> [1])) with 1%nat.
  cbv iota. rewrite decide_False by lia. rewrite Nat.mod_1_r, decide_True by done.
  rewrite Nat.div_1_r. reflexivity.
Qed.

Arguments tabulate : simpl never.
Arguments expand : simpl never.
Arguments cat : simpl never.
Arguments one_hot : simpl never.
Arguments index_select : simpl never.

(** An expanded tensor reads the source at index 0 along every stretched
    dimension. *)
Lemma expand_spec {A} (t : tensor A) (sizes : list nat) :
  wf t → (ndim t ≤ length sizes)%nat →
  Forall2 (λ src tgt, src = tgt ∨ src = 1%nat) (shape t)
          (drop (length sizes - ndim t) sizes) →
  ∃ r, expand sizes t = Some r
       ∧ shape r = sizes
       ∧ wf r
       ∧ ∀ ix, Forall2 (λ i n, i < n)%nat ix sizes →
           tget r ix =
           tget t (zip_with (λ n i, if decide (n = 1)%nat then 0%nat else i)
                            (shape t) (drop (length sizes - ndim t) ix)).
Proof.
  intros Hwf Hlen Hcompat. unfold expand.
  rewrite decide_True by done. rewrite decide_True by done.
  assert (∀ sh tg ix,
    Forall2 (λ src tgt, src = tgt ∨ src = 1%nat) sh tg →
    Forall2 (λ i n, i < n)%nat ix tg →
    Forall2 (λ i n, i < n)%nat
      (zip_with (λ n i, if decide (n = 1)%nat then 0%nat else i) sh ix) sh) as Hin.
  { intros sh tg ix H. revert ix.
    induction H as [|n m sh tg Hn _ IH]; intros ix Hix.
    - by destruct ix.
    - inversion Hix as [|i ? ix' ? Hi Hix']; subst. simpl. constructor; [|by apply IH].
      case_decide; lia. }
  assert (is_Some (tabulate sizes
    (λ ix, tget t (zip_with (λ n i, if decide (n = 1)%nat then 0%nat else i)
                            (shape t) (drop (length sizes - ndim t) ix)))))
    as [r Hr].
  { apply tabulate_is_Some. intros ix Hix%offset_is_Some.
    apply tget_is_Some; [done|]. apply offset_is_Some.
    eapply Hin; [done|]. by apply Forall2_drop. }
  exists r. split_and!; [done|by eapply tabulate_shape|by eapply tabulate_wf|].
  intros ix Hix. apply (tabulate_get _ _ _ _ Hr). by apply offset_is_Some.
Qed.

(** Concatenation of two tensors that agree away from dimension [d]. *)
Lemma cat_pair_spec {A} (a b : tensor A) (d n1 n2 : nat) :
  wf a → wf b →
  shape a !! d = Some n1 → shape b !! d = Some n2 →
  <[d := 0%nat]> (shape b) = <[d := 0%nat]> (shape a) →
  shape a ≠ [0%nat] → shape b ≠ [0%nat] →
  ∃ r, cat [a; b] (Z.of_nat d) = Some r
       ∧ shape r = <[d := (n1 + n2)%nat]> (shape a)
       ∧ wf r
       ∧ ∀ ix, Forall2 (λ i n, i < n)%nat ix (shape r) →
           tget r ix = cat_get [a; b] d ix.
Proof.
  intros Hwfa Hwfb Ha Hb Hsame Hna Hnb. unfold cat.
  rewrite filter_cons_True by done. rewrite filter_cons_True by done.
  rewrite filter_nil.
  rewrite py_index_nat by (by eapply lookup_lt_Some). simpl.
  rewrite decide_True by (by repeat constructor).
  rewrite Ha, Hb. simpl. rewrite Nat.add_0_r.
  assert (shape b = <[d := n2]> (shape a)) as Hshb.
  { rewrite <- (list_insert_id (shape b) d n2) by done.
    rewrite <- (list_insert_insert_eq (shape b) d n2 0%nat), Hsame.
    by rewrite list_insert_insert_eq. }
  match goal with
  | |- ∃ r, tabulate ?sh ?f = Some r ∧ _ =>
      assert (is_Some (tabulate sh f)) as [r Hr]
  end.
  { apply tabulate_is_Some. intros ix Hix%offset_is_Some.
    destruct (ix !! d) as [i|] eqn:Hi; simpl.
    2: { apply Forall2_length in Hix. rewrite length_insert in Hix.
         apply lookup_ge_None in Hi. apply lookup_lt_Some in Ha. lia. }
    assert (i < n1 + n2)%nat as Hlt.
    { eapply (Forall2_lookup_lr _ _ _ d) in Hix; [done|done|].
      apply list_lookup_insert_eq. by eapply lookup_lt_Some. }
    case_decide as Hc.
    - apply tget_is_Some; [done|]. apply offset_is_Some.
      rewrite <- (list_insert_id ix d i), <- (list_insert_id (shape a) d n1) by done.
      rewrite <- (list_insert_insert_eq (shape a) d n1 (n1 + n2)%nat).
      by apply Forall2_insert.
    - rewrite list_lookup_insert_eq by (by eapply lookup_lt_Some). simpl.
      rewrite decide_True by lia.
      apply tget_is_Some; [done|]. apply offset_is_Some. rewrite Hshb.
      rewrite <- (list_insert_insert_eq (shape a) d n2 (n1 + n2)%nat).
      apply Forall2_insert; [done|lia]. }
  exists r. split_and!; [done|by eapply tabulate_shape|by eapply tabulate_wf|].
  intros ix Hix. rewrite (tabulate_get _ _ _ _ Hr); [done|]. apply offset_is_Some.
  by rewrite <- (tabulate_shape _ _ _ Hr).
Qed.

Lemma tget_tmap {A B} (f : A → B) (t : tensor A) ix :
  tget (tmap f t) ix = f <$> tget t ix.
Proof.
  unfold tget, tmap. simpl. destruct (offset (shape t) ix); simpl; [|done].
  by rewrite list_lookup_fmap.
Qed.


Lemma wf_tmap {A B} (f : A → B) (t : tensor A) : wf t → wf (tmap f t).
Proof. unfold wf, tmap. simpl. by rewrite length_fmap. Qed.

(** ** Facts about the monad and its loops *)

(** Unfolding of the monadic plumbing. *)
Ltac run :=
  repeat progress
    (unfold on_batch, sub, zoom, get_self, set_self, log, getitem, setitem, contains,
       delitem, popitem, modify, get, raise, torch, of_outcome, or_raise,
       py_assert, mbind, M_bind, mret, M_ret, outcome_bind, outcome_ret;
     cbn beta iota zeta; simpl).

Lemma string_length_app (a b : string) :
  String.length (a +:+ b) = (String.length a + String.length b)%nat.
Proof.
  induction a as [|c a IH]; [done|].
  change (String c a +:+ b) with (String c (a +:+ b)). simpl. by rewrite IH.
Qed.

Lemma bind_run {S A B} (m : M S A) (f : A → M S B) s :
  (m ≫= f) s = match m s with
               | (Ok a, s') => f a s'
               | (Raise e, s') => (Raise e, s')
               end.
Proof. done. Qed.

Lemma bind_ok {S A B} (m : M S A) (f : A → M S B) s a s' :
  m s = (Ok a, s') → (m ≫= f) s = f a s'.
Proof. intros H. by rewrite bind_run, H. Qed.

Lemma bind_inv {S A B} (m : M S A) (f : A → M S B) s o s' :
  (m ≫= f) s = (o, s') →
  (∃ a s1, m s = (Ok a, s1) ∧ f a s1 = (o, s'))
  ∨ (∃ e, m s = (Raise e, s') ∧ o = Raise e).
Proof.
  unfold mbind, M_bind. destruct (m s) as [[a|e] s1]; intros H.
  - left. by exists a, s1.
  - right. exists e. by simplify_eq.
Qed.

(** A loop keeps every relation on states that its body keeps. *)
Lemma for_each_preserves {S A} (R : S → S → Prop) (xs : list A)
    (body : A → M S unit) :
  (∀ s, R s s) → (∀ s1 s2 s3, R s1 s2 → R s2 s3 → R s1 s3) →
  (∀ x, x ∈ xs → ∀ s, R s (body x s).2) →
  ∀ s, R s (for_each xs body s).2.
Proof.
  intros Hrefl Htrans. induction xs as [|x xs IH]; intros Hbody s; simpl; [done|].
  rewrite bind_run. pose proof (Hbody x ltac:(by left) s) as Hx.
  destruct (body x s) as [[[]|e] s1]; simpl in *; [|done].
  eapply Htrans; [done|]. apply IH. intros y Hy. apply Hbody. by right.
Qed.

(** When a loop returns, every iteration has returned, from a state that
    the earlier iterations reached and to a state from which the later
    ones reached the end. *)
Lemma for_each_inv {S A} (R : S → S → Prop) (xs : list A) (body : A → M S unit) :
  (∀ s, R s s) → (∀ s1 s2 s3, R s1 s2 → R s2 s3 → R s1 s3) →
  (∀ x, x ∈ xs → ∀ s, R s (body x s).2) →
  ∀ s, (for_each xs body s).1 = Ok tt →
    ∀ x, x ∈ xs →
      ∃ s1, R s s1 ∧ (body x s1).1 = Ok tt ∧ R (body x s1).2 (for_each xs body s).2.
Proof.
  intros Hrefl Htrans. induction xs as [|x xs IH]; intros Hbody s Hok y Hy.
  { by apply elem_of_nil in Hy. }
  simpl in *. rewrite bind_run in *.
  pose proof (Hbody x ltac:(by left) s) as Hx.
  assert (∀ z, z ∈ xs → ∀ s, R s (body z s).2) as Hbody'.
  { intros z Hz. apply Hbody. by right. }
  destruct (body x s) as [[[]|e] s1] eqn:Hb; simpl in *; [|done].
  apply elem_of_cons in Hy as [->|Hy].
  - exists s. rewrite Hb. simpl. split_and!; [done|done|].
    by apply for_each_preserves.
  - destruct (IH Hbody' s1 Hok y Hy) as (s2 & H1 & H2 & H3).
    exists s2. split_and!; [|done|done]. by eapply Htrans.
Qed.

(** A loop whose body cannot fail under an invariant does not fail. *)
Lemma for_each_ok {S A} (I : S → Prop) (xs : list A) (body : A → M S unit) :
  (∀ x s, I s → (body x s).1 = Ok tt ∧ I (body x s).2) →
  ∀ s, I s → (for_each xs body s).1 = Ok tt ∧ I (for_each xs body s).2.
Proof.
  intros Hbody. induction xs as [|x xs IH]; intros s Hs; simpl; [done|].
  unfold mbind, M_bind. destruct (Hbody x s Hs) as [Ho Hi].
  destruct (body x s) as [[[]|e] s1]; simpl in *; [|done]. by apply IH.
Qed.

(** An exception that leaves a loop was raised by one of its iterations. *)
Lemma for_each_raise {S A} (xs : list A) (body : A → M S unit) s e :
  (for_each xs body s).1 = Raise e → ∃ x s1, x ∈ xs ∧ (body x s1).1 = Raise e.
Proof.
  revert s. induction xs as [|x xs IH]; intros s; simpl; [done|].
  rewrite bind_run. destruct (body x s) as [[[]|e'] s1] eqn:Hb; simpl.
  - intros (y & s2 & Hy & Hr)%IH. exists y, s2. split; [by right|done].
  - intros [= ->]. exists x, s. split; [by left|]. by rewrite Hb.
Qed.

(** A loop whose body rewrites the key it is given and nothing else. *)
Lemma for_each_per_key (body : string → M (gmap string value) unit)
    (P : string → value → value → Prop) keys (d : gmap string value) :
  NoDup keys →
  (∀ k, k ∈ keys →
     ∃ v, d !! k = Some v
          ∧ ∀ d' : gmap string value, d' !! k = Some v →
              ∃ v', P k v v' ∧ body k d' = (Ok tt, <[k := v']> d')) →
  ∃ d', for_each keys body d = (Ok tt, d')
        ∧ (∀ k, k ∈ keys → ∃ v v', d !! k = Some v ∧ d' !! k = Some v' ∧ P k v v')
        ∧ (∀ k, k ∉ keys → d' !! k = d !! k).
Proof.
  intros Hnd. revert d. induction Hnd as [|k keys Hk Hnd IH]; intros d Hbody.
  - exists d. split_and!; [done| by intros k Hk%elem_of_nil | done].
  - destruct (Hbody k) as (v & Hv & Hstep); [by left|].
    destruct (Hstep d Hv) as (v' & HP & Hrun).
    destruct (IH (<[k := v']> d)) as (d' & Hd' & Hin & Hout).
    { intros k2 Hk2. destruct (Hbody k2) as (v2 & Hv2 & Hstep2); [by right|].
      exists v2. split; [|done]. rewrite lookup_insert_ne; [done|].
      intros ->. done. }
    exists d'. split_and!.
    + simpl. unfold mbind, M_bind. by rewrite Hrun.
    + intros k2 [->|Hk2]%elem_of_cons.
      * exists v, v'. split_and!; [done| |done].
        rewrite Hout by done. by rewrite lookup_insert_eq.
      * destruct (Hin k2 Hk2) as (v2 & v2' & H1 & H2 & H3).
        exists v2, v2'. split_and!; [|done|done].
        rewrite lookup_insert_ne in H1; [done|]. intros ->. done.
    + intros k2 Hk2. rewrite Hout by (intros ?; apply Hk2; by right).
      rewrite lookup_insert_ne; [done|]. intros ->. apply Hk2. by left.
Qed.

(** ** The cached stride of FixedLengthSequences *)

Lemma int64_multiples (n : nat) (e : Z) :
  int64 (Z.of_nat (S n) * e) → int64 e ∧ int64 (Z.of_nat n * e).
Proof. unfold int64. rewrite Nat2Z.inj_succ. intros H. split; nia. Qed.

Lemma wrap64_int64 z : int64 z → wrap64 z = z.
Proof. unfold int64, wrap64. intros H. rewrite Z.mod_small; lia. Qed.

Lemma int64_wrap64 z : int64 (wrap64 z).
Proof.
  unfold int64, wrap64.
  pose proof (Z.mod_pos_bound (z + 2 ^ 63) (2 ^ 64) ltac:(lia)). lia.
Qed.

Arguments wrap64 : simpl never.

(** With a cached length, one key is accepted exactly when its offsets are
    the multiples of that length; a length that is zero, or that the library
    cannot take as an int64 together with the end of the range, is refused;
    the cache is not touched. *)
Lemma FixedLengthSequences_cached_check key to_key sid e w d m n offs payload :
  d !! key = Some (VDict m) →
  m !! sid = Some (VTuple (VTensor (TLong (Tensor [n] offs))) payload) →
  let s := mkFixedLengthSequences [key] sid [to_key] (Some e) in
  FixedLengthSequences_call (St w s d) =
    if decide (e ≠ 0 ∧ int64 e ∧ ((1 < n)%nat → int64 (Z.of_nat n * e)))
    then if decide (offs = (λ i : nat, Z.of_nat i * e) <$> seq 0 n)
         then (Ok tt, St w s (<[to_key := payload]> d))
         else (Raise AssertionError, St w s d)
    else (Raise RuntimeError, St w s d).
Proof.
  intros Hd Hm s. unfold FixedLengthSequences_call, FixedLengthSequences_key.
  run. rewrite Hd. run. rewrite Hm. run. unfold to_int64, arange_stride.
  destruct (decide (int64 e)) as [Hi|Hi]; run.
  2:{ by rewrite decide_False by (by intros (_ & ? & _)). }
  destruct (decide (e = 0)) as [He|He]; run.
  { by rewrite decide_False by (by intros (? & _)). }
  destruct (decide ((1 < n)%nat → int64 (Z.of_nat n * e))) as [Hn|Hn]; run.
  2:{ by rewrite decide_False by (by intros (_ & _ & ?)). }
  rewrite (decide_True (P := _ ∧ _)) by done.
  unfold bool_decide. destruct (decide_rel _ _ _) as [E|E]; simpl.
  - rewrite decide_True by done. done.
  - rewrite decide_False by done. done.
Qed.

(** C1.  An instance built with [expected_length=None] that first sees
    offsets [0,4,8] for its sequence id accepts them and caches the stride 4
    on the instance; a later call on that instance with offsets [0,5,10]
    fails its assertion and leaves the batch as it was.  In general, once a
    stride [e] is cached, offsets are accepted exactly when the offset at
    every position [i] is [i * e]: the stride is not inferred again.  (The
    general part is stated where the end of the expected range fits int64
    with room for one more stride.) *)
Theorem FixedLengthSequences_stride_is_cached
    key to_key sid w w' (d1 d2 : gmap string value) m1 m2 p1 p2 s0 :
  FixedLengthSequences_init [key] sid None (Some [to_key]) = Ok s0 →
  d1 !! key = Some (VDict m1) →
  m1 !! sid = Some (VTuple (VTensor (TLong (Tensor [3%nat] [0; 4; 8]))) p1) →
  d2 !! key = Some (VDict m2) →
  m2 !! sid = Some (VTuple (VTensor (TLong (Tensor [3%nat] [0; 5; 10]))) p2) →
  ∃ s1,
    FixedLengthSequences_call (St w s0 d1) = (Ok tt, St w s1 (<[to_key := p1]> d1))
    ∧ FixedLengthSequences_expected_length s1 = Some 4
    ∧ FixedLengthSequences_call (St w' s1 d2) = (Raise AssertionError, St w' s1 d2)
    ∧ ∀ e n offs (d : gmap string value) m p,
        e ≠ 0 → int64 (Z.of_nat (S n) * e) →
        d !! key = Some (VDict m) →
        m !! sid = Some (VTuple (VTensor (TLong (Tensor [n] offs))) p) →
        let s := mkFixedLengthSequences [key] sid [to_key] (Some e) in
        FixedLengthSequences_call (St w s d) =
          if decide (offs = (λ i : nat, Z.of_nat i * e) <$> seq 0 n)
          then (Ok tt, St w s (<[to_key := p]> d))
          else (Raise AssertionError, St w s d).
Proof.
  intros Hinit Hd1 Hm1 Hd2 Hm2.
  assert (s0 = mkFixedLengthSequences [key] sid [to_key] None) as ->.
  { unfold FixedLengthSequences_init in Hinit. simpl in Hinit. congruence. }
  exists (mkFixedLengthSequences [key] sid [to_key] (Some 4)).
  split_and!.
  - unfold FixedLengthSequences_call, FixedLengthSequences_key. run.
    rewrite Hd1. run. rewrite Hm1. run.
    change (wrap64 (4 - 0)) with 4. by run.
  - done.
  - rewrite (FixedLengthSequences_cached_check _ _ _ _ _ _ _ _ _ _ Hd2 Hm2).
    rewrite decide_True; [by rewrite decide_False|].
    unfold int64. split_and!; try done; try lia; intros _; lia.
  - intros e n offs d m p He Hb Hd Hm s. subst s.
    rewrite (FixedLengthSequences_cached_check _ _ _ _ _ _ _ _ _ _ Hd Hm).
    apply int64_multiples in Hb as [H1 H2].
    by rewrite decide_True by (split_and!; [done|done|by intros _]).
Qed.

(** ** OneHotActions *)

(** C2.  Every configured key that holds indices in [0, num_actions] is
    replaced by a tensor with one more dimension, of size [num_actions]:
    an index [i < num_actions] becomes the vector with 1 at position [i] and
    0 elsewhere, the index [num_actions] becomes the all-zero vector. *)
Theorem OneHotActions_encodes keys num_actions (d : gmap string value) :
  NoDup keys → 0 ≤ num_actions →
  (∀ k, k ∈ keys →
     ∃ t, d !! k = Some (VTensor (TLong t)) ∧ wf t
          ∧ Forall (λ x, 0 ≤ x ≤ num_actions) (data t)) →
  ∃ d', OneHotActions_call (OneHotActions_init keys num_actions) d = (Ok tt, d')
    ∧ (∀ k, k ∉ keys → d' !! k = d !! k)
    ∧ ∀ k, k ∈ keys →
        ∃ t r, d !! k = Some (VTensor (TLong t))
               ∧ d' !! k = Some (VTensor (TLong r))
               ∧ shape r = shape t ++ [Z.to_nat num_actions]
               ∧ ∀ ix i, tget t ix = Some i →
                   (i < num_actions →
                      ∀ j : nat, Z.of_nat j < num_actions →
                        tget r (ix ++ [j]) = Some (if decide (Z.of_nat j = i) then 1 else 0))
                   ∧ (i = num_actions →
                      ∀ j : nat, Z.of_nat j < num_actions →
                        tget r (ix ++ [j]) = Some 0).
Proof.
  intros Hnd Hn Hkeys.
  set (P := λ (_ : string) (v v' : value),
    ∃ t r, v = VTensor (TLong t) ∧ v' = VTensor (TLong r)
           ∧ shape r = shape t ++ [Z.to_nat num_actions]
           ∧ ∀ ix (j : nat) i, tget t ix = Some i → Z.of_nat j < num_actions →
               tget r (ix ++ [j]) = Some (if decide (Z.of_nat j = i) then 1 else 0)).
  destruct (for_each_per_key
    (λ k, v ← getitem k;
          match v with
          | VTensor t =>
              i ← torch (as_long t);
              h ← torch (one_hot i (num_actions + 1));
              index ← torch (arange num_actions);
              r ← torch (index_select (-1) index h);
              setitem k (VTensor (TLong r))
          | _ => raise TypeError
          end) P keys d Hnd) as (d' & Hrun & Hin & Hout).
  { intros k Hk. destruct (Hkeys k Hk) as (t & Hd & Hwf & Hall).
    eexists. split; [done|]. intros d0 Hd0.
    destruct (one_hot_spec t (num_actions + 1)) as (h & Hh & Hsh & Hwfh & Hget);
      [done|lia| |].
    { eapply Forall_impl; [done|]. simpl. lia. }
    destruct (index_select_last_prefix h (shape t) (Z.to_nat (num_actions + 1))
                (Z.to_nat num_actions)) as (r & Hr & Hshr & Hwfr & Hgetr);
      [done|done|lia|].
    exists (VTensor (TLong r)). split.
    - exists t, r. split_and!; [done|done|done|].
      intros ix j i Hi Hj. rewrite Hgetr.
      + apply Hget; [done|lia].
      + by eapply tget_in_range.
      + lia.
    - run. rewrite Hd0. run. rewrite Hh. run. unfold arange.
      rewrite decide_True by done. run. rewrite Hr. by run. }
  exists d'. split_and!; [done|done|].
  intros k Hk. destruct (Hin k Hk) as (v & v' & Hv & Hv' & t & r & -> & -> & Hsh & Hget).
  exists t, r. split_and!; [done|done|done|].
  intros ix i Hi. split.
  - intros _ j Hj. by apply Hget.
  - intros -> j Hj. rewrite (Hget _ _ _ Hi Hj). rewrite decide_False by lia. done.
Qed.

(** ** ColumnVector *)

Lemma with_shape_id t : with_shape (tt_shape t) t = t.
Proof. by destruct t as [[??]|[??]]. Qed.

Lemma tt_reshape_column t :
  tt_reshape [-1; 1] t = Some (with_shape [numel (tt_shape t); 1%nat] t).
Proof.
  destruct t as [t|t]; unfold tt_reshape, tt_shape, reshape;
    by rewrite infer_shape_column.
Qed.

(** One key of ColumnVector, for a tensor or a (value, presence) pair. *)
Lemma ColumnVector_key k (d : gmap string value) raw t rest :
  d !! k = Some raw →
  raw = VTensor t ∨ (∃ p, raw = VTuple (VTensor t) p) →
  ColumnVector_call (ColumnVector_init (k :: rest)) d =
    if column_shape (tt_shape t)
    then ColumnVector_call (ColumnVector_init rest)
           (<[k := VTensor (with_shape [numel (tt_shape t); 1%nat] t)]> d)
    else (Raise AssertionError, d).
Proof.
  intros Hd Hraw. unfold ColumnVector_call at 1. run. rewrite Hd.
  destruct Hraw as [->|[p ->]]; run.
  - destruct (column_shape (tt_shape t)); run; [|done].
    rewrite tt_reshape_column. by run.
  - destruct (column_shape (tt_shape t)); run; [|done].
    rewrite tt_reshape_column. by run.
Qed.

(** C7.  On keys that already hold tensors of shape (n, 1) the transform
    changes nothing, so a second application gives what the first gave.
    A tensor (or the value of a (value, presence) pair) of shape (n) or
    (n, 1) is replaced by the same entries under shape (n, 1); for any
    other shape the assertion fails and the batch is left as it was. *)
Theorem ColumnVector_contract :
  (∀ keys (d : gmap string value),
     Forall (λ k, ∃ t n, d !! k = Some (VTensor t) ∧ tt_shape t = [n; 1%nat]) keys →
     let call := ColumnVector_call (ColumnVector_init keys) in
     call d = (Ok tt, d) ∧ (call;; call) d = call d)
  ∧ (∀ k (d : gmap string value) raw t n,
       d !! k = Some raw →
       raw = VTensor t ∨ (∃ p, raw = VTuple (VTensor t) p) →
       tt_shape t = [n] ∨ tt_shape t = [n; 1%nat] →
       ColumnVector_call (ColumnVector_init [k]) d =
         (Ok tt, <[k := VTensor (with_shape [n; 1%nat] t)]> d))
  ∧ (∀ k (d : gmap string value) raw t,
       d !! k = Some raw →
       raw = VTensor t ∨ (∃ p, raw = VTuple (VTensor t) p) →
       (∀ n, tt_shape t ≠ [n] ∧ tt_shape t ≠ [n; 1%nat]) →
       ColumnVector_call (ColumnVector_init [k]) d = (Raise AssertionError, d)).
Proof.
  split_and!.
  - intros keys d Hkeys call.
    assert (call d = (Ok tt, d)) as Hcall.
    { subst call. induction Hkeys as [|k keys (t & n & Hd & Hsh) _ IH]; [done|].
      rewrite (ColumnVector_key k d (VTensor t) t keys Hd) by (by left).
      rewrite Hsh. simpl. rewrite Nat.mul_1_r, <- Hsh, with_shape_id.
      by rewrite insert_id. }
    split; [done|]. unfold mbind, M_bind. by rewrite Hcall.
  - intros k d raw t n Hd Hraw Hsh.
    rewrite (ColumnVector_key k d raw t [] Hd Hraw).
    destruct Hsh as [->| ->]; simpl; by rewrite ?Nat.mul_1_r.
  - intros k d raw t Hd Hraw Hsh.
    rewrite (ColumnVector_key k d raw t [] Hd Hraw).
    assert (column_shape (tt_shape t) = false) as ->; [|done].
    unfold column_shape. destruct (tt_shape t) as [|a [|b [|c l]]]; simpl; try done.
    + destruct (Hsh a) as [? _]. done.
    + apply bool_decide_eq_false. intros [= ->]. destruct (Hsh a) as [_ ?]. done.
Qed.

(** ** Rename and Filter on the heap *)

Lemma same_but_refl l h : same_but l h h.
Proof. by intros ??. Qed.

Lemma same_but_trans l h1 h2 h3 :
  same_but l h1 h2 → same_but l h2 h3 → same_but l h1 h3.
Proof. intros H1 H2 l' Hl'. by rewrite H2, H1. Qed.

Lemma at_loc_same_but {A} l (m : M (gmap string value) A) h :
  same_but l h (at_loc l m h).2.
Proof.
  intros l' Hl'. unfold at_loc. destruct (h !! l) as [d|]; [|done].
  destruct (m d) as [o d']. simpl. by rewrite lookup_insert_ne.
Qed.

Lemma at_loc_read {A} l (m : M (gmap string value) A) h :
  (∀ d, (m d).2 = d) → (at_loc l m h).2 = h.
Proof.
  intros Hm. unfold at_loc. destruct (h !! l) as [d|] eqn:Hd; [|done].
  pose proof (Hm d) as Hd'. destruct (m d) as [o d']. simpl in *. subst.
  by apply insert_id.
Qed.

Lemma alloc_fresh (h : gmap loc (gmap string value)) :
  h !! fresh (dom h) = None.
Proof. apply not_elem_of_dom, is_fresh. Qed.

Lemma same_but_new (h h' : gmap loc (gmap string value)) l :
  h !! l = None → same_but l h h' → ∀ l', is_Some (h !! l') → h' !! l' = h !! l'.
Proof.
  intros Hl Hsame l' Hl'. apply Hsame. intros ->. rewrite Hl in Hl'.
  by destruct Hl'.
Qed.

Lemma at_loc_get l (h : gmap loc (gmap string value)) d :
  h !! l = Some d → at_loc l get h = (Ok d, h).
Proof. intros H. unfold at_loc, get. rewrite H. by rewrite insert_id. Qed.

(** Rename only writes to the copy it has made. *)
Lemma Rename_call_run self data (h : gmap loc (gmap string value)) d :
  h !! data = Some d →
  let new := fresh (dom h) in
  same_but new h (Rename_call self data h).2
  ∧ ∀ l, (Rename_call self data h).1 = Ok l → l = new.
Proof.
  intros Hd new. unfold Rename_call.
  rewrite (bind_ok _ _ _ _ _ (at_loc_get _ _ _ Hd)).
  rewrite (bind_ok _ _ _ new (<[new := d]> h)) by done.
  set (body := λ on : string * string,
    v ← at_loc new (popitem on.1); at_loc new (setitem on.2 v)).
  assert (∀ x, x ∈ zip (Rename_old_names self) (Rename_new_names self) →
            ∀ s, same_but new s (body x s).2) as Hbody.
  { intros x _ s. unfold body. rewrite bind_run.
    pose proof (at_loc_same_but new (popitem x.1) s) as H1.
    destruct (at_loc new (popitem x.1) s) as [[v|e] s1]; simpl in *; [|done].
    eapply same_but_trans; [done|]. apply at_loc_same_but. }
  pose proof (for_each_preserves (same_but new)
    (zip (Rename_old_names self) (Rename_new_names self)) body
    (same_but_refl new) (same_but_trans new) Hbody (<[new := d]> h)) as Hloop.
  rewrite bind_run.
  destruct (for_each _ body _) as [[[]|e] h1]; simpl in *.
  - split; [|by intros l [= <-]].
    intros l Hl. rewrite Hloop by done. by rewrite lookup_insert_ne.
  - split; [|done].
    intros l Hl. rewrite Hloop by done. by rewrite lookup_insert_ne.
Qed.

Lemma at_loc_contains l (h : gmap loc (gmap string value)) d k :
  h !! l = Some d →
  at_loc l (contains k) h = (Ok (bool_decide (is_Some (d !! k))), h).
Proof. intros H. unfold at_loc, contains. rewrite H. by rewrite insert_id. Qed.

Lemma at_loc_getitem l (h : gmap loc (gmap string value)) d k :
  h !! l = Some d → is_Some (d !! k) →
  ∃ v, d !! k = Some v ∧ at_loc l (getitem k) h = (Ok v, h).
Proof.
  intros H [v Hv]. exists v. split; [done|].
  unfold at_loc, getitem. rewrite H, Hv. by rewrite insert_id.
Qed.

Lemma at_loc_setitem l (h : gmap loc (gmap string value)) d k v :
  h !! l = Some d →
  at_loc l (setitem k v) h = (Ok tt, <[l := <[k := v]> d]> h).
Proof. intros H. unfold at_loc, setitem, modify. by rewrite H. Qed.

Lemma at_loc_delitem l (h : gmap loc (gmap string value)) d k :
  h !! l = Some d → is_Some (d !! k) →
  at_loc l (delitem k) h = (Ok tt, <[l := delete k d]> h).
Proof. intros H [v Hv]. unfold at_loc, delitem. by rewrite H, Hv. Qed.

(** Filter only writes to the dict it has made, and returns it in both of
    its modes. *)
Lemma Filter_call_run self data (h : gmap loc (gmap string value)) d :
  h !! data = Some d →
  let new := fresh (dom h) in
  same_but new h (Filter_call self data h).2
  ∧ (∀ l, (Filter_call self data h).1 = Ok l → l = new)
  ∧ ((∃ k ks, Filter_keep_keys self = Some (k :: ks))
     ∨ (Filter_keep_keys self = None ∧ is_Some (Filter_remove_keys self)) →
     (Filter_call self data h).1 = Ok new).
Proof.
  intros Hd new.
  assert (h !! new = None) as Hnew by apply alloc_fresh.
  assert (data ≠ new) as Hne by (intros ->; congruence).
  set (I := λ s : gmap loc (gmap string value),
    s !! data = Some d ∧ is_Some (s !! new) ∧ same_but new h s).
  assert (∀ d0, I (<[new := d0]> h)) as Hinit.
  { intros d0. split_and!.
    - by rewrite lookup_insert_ne.
    - rewrite lookup_insert_eq. by eexists.
    - intros l Hl. by rewrite lookup_insert_ne. }
  assert (∀ ks s, I s →
    let body := λ k : string,
      present ← at_loc data (contains k);
      if present : bool then v ← at_loc data (getitem k); at_loc new (setitem k v)
      else mret tt in
    (for_each ks body s).1 = Ok tt ∧ I (for_each ks body s).2) as Hkeep.
  { intros ks. apply for_each_ok. intros k s (Hs1 & [dn Hs2] & Hs3).
    rewrite (bind_ok _ _ _ _ _ (at_loc_contains _ _ _ k Hs1)).
    case_bool_decide as Hk; [|done].
    destruct (at_loc_getitem _ _ _ k Hs1 Hk) as (v & Hv & Hget).
    rewrite (bind_ok _ _ _ _ _ Hget), (at_loc_setitem _ _ _ _ _ Hs2). simpl.
    split; [done|]. split_and!.
    - by rewrite lookup_insert_ne.
    - rewrite lookup_insert_eq. by eexists.
    - intros l Hl. rewrite lookup_insert_ne by done. by apply Hs3. }
  assert (∀ ks s, I s →
    let body := λ k : string,
      present ← at_loc new (contains k);
      if present : bool then at_loc new (delitem k) else mret tt in
    (for_each ks body s).1 = Ok tt ∧ I (for_each ks body s).2) as Hremove.
  { intros ks. apply for_each_ok. intros k s (Hs1 & [dn Hs2] & Hs3).
    rewrite (bind_ok _ _ _ _ _ (at_loc_contains _ _ _ k Hs2)).
    case_bool_decide as Hk; [|done].
    rewrite (at_loc_delitem _ _ _ _ Hs2 Hk). simpl.
    split; [done|]. split_and!.
    - by rewrite lookup_insert_ne.
    - rewrite lookup_insert_eq. by eexists.
    - intros l Hl. rewrite lookup_insert_ne by done. by apply Hs3. }
  unfold Filter_call.
  destruct (Filter_keep_keys self) as [[|k0 ks]|] eqn:Hkk.
  - rewrite (bind_ok _ _ _ _ _ (at_loc_get _ _ _ Hd)).
    rewrite (bind_ok _ _ _ new (<[new := d]> h)) by done.
    destruct (Filter_remove_keys self) as [rs|].
    + destruct (Hremove rs _ (Hinit d)) as [Ho (_ & _ & Hs)].
      rewrite bind_run. destruct (for_each rs _ _) as [[[]|e] h1]; simpl in *; [|done].
      split_and!; [done|by intros l [= <-]|].
      intros [(? & ? & ?)|[? _]]; done.
    + rewrite bind_run. simpl. split_and!; [by apply Hinit|done|].
      intros [(? & ? & ?)|[? _]]; done.
  - rewrite (bind_ok _ _ _ new (<[new := ∅]> h)) by done.
    destruct (Hkeep (k0 :: ks) _ (Hinit ∅)) as [Ho (_ & _ & Hs)].
    rewrite bind_run.
    destruct (for_each (k0 :: ks) _ _) as [[[]|e] h1]; simpl in *; [|done].
    split_and!; [done|by intros l [= <-]|done].
  - rewrite (bind_ok _ _ _ _ _ (at_loc_get _ _ _ Hd)).
    rewrite (bind_ok _ _ _ new (<[new := d]> h)) by done.
    destruct (Filter_remove_keys self) as [rs|].
    + destruct (Hremove rs _ (Hinit d)) as [Ho (_ & _ & Hs)].
      rewrite bind_run. destruct (for_each rs _ _) as [[[]|e] h1]; simpl in *; [|done].
      split_and!; [done|by intros l [= <-]|done].
    + rewrite bind_run. simpl. split_and!; [by apply Hinit|done|].
      intros [(? & ? & ?)|[_ [? ?]]]; done.
Qed.

(** C10.  Rename and Filter leave the dict they are given, and every other
    dict that exists, exactly as it was; what they return is an object that
    did not exist before the call.  Filter returns such an object both
    with a keep-list and with a remove-list. *)
Theorem Rename_Filter_do_not_mutate data (h : gmap loc (gmap string value)) d :
  h !! data = Some d →
  (∀ self : Rename,
     (Rename_call self data h).2 !! data = Some d
     ∧ (∀ l, is_Some (h !! l) → (Rename_call self data h).2 !! l = h !! l)
     ∧ (∀ new, (Rename_call self data h).1 = Ok new → new ≠ data ∧ h !! new = None))
  ∧ (∀ self : Filter,
       (Filter_call self data h).2 !! data = Some d
       ∧ (∀ l, is_Some (h !! l) → (Filter_call self data h).2 !! l = h !! l)
       ∧ (∀ new, (Filter_call self data h).1 = Ok new → new ≠ data ∧ h !! new = None)
       ∧ ((∃ k ks, Filter_keep_keys self = Some (k :: ks))
          ∨ (Filter_keep_keys self = None ∧ is_Some (Filter_remove_keys self)) →
          is_ok (Filter_call self data h).1 = true)).
Proof.
  intros Hd. pose proof (alloc_fresh h) as Hnew.
  assert (fresh (dom h) ≠ data) as Hne by (intros E; rewrite E in Hnew; congruence).
  split.
  - intros self. destruct (Rename_call_run self data h d Hd) as [Hs Hl].
    split_and!.
    + rewrite Hs by done. done.
    + by apply (same_but_new _ _ (fresh (dom h))).
    + intros new ->%Hl. done.
  - intros self. destruct (Filter_call_run self data h d Hd) as (Hs & Hl & Hok).
    split_and!.
    + rewrite Hs by done. done.
    + by apply (same_but_new _ _ (fresh (dom h))).
    + intros new ->%Hl. done.
    + intros Hmode. by rewrite (Hok Hmode).
Qed.

(** C5, as the code has it.  Rename has no check at construction:
    it accepts any two lists, and a call pairs the names with [zip], so
    the names beyond the length of the shorter list are ignored. *)
Theorem Rename_init_accepts_any_lengths old_names new_names :
  Rename_init old_names new_names = Ok (mkRename old_names new_names)
  ∧ ∀ data (h : gmap loc (gmap string value)),
      Rename_call (mkRename old_names new_names) data h =
      Rename_call (mkRename (take (length new_names) old_names)
                            (take (length old_names) new_names)) data h.
Proof.
  split; [done|]. intros data h. unfold Rename_call. simpl.
  by rewrite zip_with_take_both.
Qed.

(** ** Construction of the collaborators *)

Lemma same_instance_refl {Self} (s : st Self) : same_instance s s.
Proof. done. Qed.

Lemma same_instance_trans {Self} (s1 s2 s3 : st Self) :
  same_instance s1 s2 → same_instance s2 s3 → same_instance s1 s3.
Proof. intros [??] [??]. split; congruence. Qed.

Lemma DenseNormalization_key_same_instance k s :
  same_instance s (DenseNormalization_key k s).2.
Proof.
  unfold same_instance, DenseNormalization_key. run.
  repeat (case_match; simplify_eq/=; try done).
Qed.

Lemma MapIDListFeatures_key_same_instance self0 k s :
  same_instance s (MapIDListFeatures_key self0 k s).2.
Proof.
  unfold same_instance, MapIDListFeatures_key. run.
  repeat (case_match; simplify_eq/=; try done).
Qed.

(** C4, as the code has it.  DenseNormalization is built without its
    preprocessor; the first call constructs it, once, and later calls reuse
    it.  MapIDListFeatures constructs its sparse preprocessor in the
    constructor, and calls never construct anything. *)
Theorem collaborators_lazy_and_eager :
  (∀ keys normalization_data dev w,
     ∃ s0, DenseNormalization_init keys normalization_data dev w = (Ok s0, w)
           ∧ DenseNormalization__preprocessor s0 = None)
  ∧ (∀ s w d,
       DenseNormalization__preprocessor s = None →
       let r := (DenseNormalization_call (St w s d)).2 in
       world r = w ++ [NewPreprocessor]
       ∧ DenseNormalization__preprocessor (self r) =
           Some (Preprocessor_init
                   (dense_normalization_parameters
                      (DenseNormalization_normalization_data s))
                   (DenseNormalization_device s)))
  ∧ (∀ s w d p,
       DenseNormalization__preprocessor s = Some p →
       let r := (DenseNormalization_call (St w s d)).2 in
       world r = w ∧ self r = s)
  ∧ (∀ id_list_keys id_score_list_keys feature_config dev w s0 w',
       MapIDListFeatures_init id_list_keys id_score_list_keys feature_config dev w
         = (Ok s0, w') →
       w' = w ++ [NewSparsePreprocessor]
       ∧ MapIDListFeatures_sparse_preprocessor s0 =
           make_sparse_preprocessor feature_config dev)
  ∧ (∀ s w d,
       let r := (MapIDListFeatures_call (St w s d)).2 in
       world r = w ∧ self r = s).
Proof.
  split_and!.
  - intros. by eexists.
  - intros s w d Hp r. subst r. unfold DenseNormalization_call.
    rewrite bind_run. simpl. rewrite Hp. rewrite bind_run. simpl.
    match goal with
    | |- context [for_each ?ks DenseNormalization_key ?s0] =>
        pose proof (for_each_preserves same_instance ks DenseNormalization_key
          same_instance_refl same_instance_trans
          (λ k _, DenseNormalization_key_same_instance k) s0) as [Hw Hs];
        destruct (for_each ks DenseNormalization_key s0) as [o s1]
    end.
    simpl in *. by rewrite Hw, Hs.
  - intros s w d p Hp r. subst r. unfold DenseNormalization_call.
    rewrite bind_run. simpl. rewrite Hp. rewrite bind_run. simpl.
    match goal with
    | |- context [for_each ?ks DenseNormalization_key ?s0] =>
        pose proof (for_each_preserves same_instance ks DenseNormalization_key
          same_instance_refl same_instance_trans
          (λ k _, DenseNormalization_key_same_instance k) s0) as [Hw Hs];
        destruct (for_each ks DenseNormalization_key s0) as [o s1]
    end.
    simpl in *. by rewrite Hw, Hs.
  - intros ilk islk cfg dev w s0 w'. unfold MapIDListFeatures_init. run.
    case_bool_decide; simpl; [|done]. by intros [= <- <-].
  - intros s w d r. subst r. unfold MapIDListFeatures_call.
    rewrite bind_run. simpl.
    match goal with
    | |- context [for_each ?ks ?b ?s0] =>
        pose proof (for_each_preserves same_instance ks b
          same_instance_refl same_instance_trans
          (λ k _, MapIDListFeatures_key_same_instance s k) s0) as [Hw Hs];
        destruct (for_each ks b s0) as [o s1]
    end.
    simpl in *. by rewrite Hw, Hs.
Qed.

(** ** MapIDListFeatures and absent keys *)

(** What one iteration of MapIDListFeatures does to the batch. *)
Lemma MapIDListFeatures_key_run self0 k s :
  same_instance s (MapIDListFeatures_key self0 k s).2
  ∧ ((MapIDListFeatures_key self0 k s).1 = Ok tt →
     ∃ v', batch (MapIDListFeatures_key self0 k s).2 = <[k := v']> (batch s)
           ∧ (batch s !! k = None ∨ batch s !! k = Some VNone → v' = VNone))
  ∧ (batch s !! k = None ∨ id2name (MapIDListFeatures_feature_config self0) = ∅ →
     MapIDListFeatures_key self0 k s =
       (Ok tt, St (world s) (self s) (<[k := VNone]> (batch s)))).
Proof.
  split; [apply MapIDListFeatures_key_same_instance|].
  unfold MapIDListFeatures_key. run.
  destruct (batch s !! k) as [v|] eqn:Hk; simpl.
  - case_bool_decide as He; simpl; rewrite ?Hk; simpl.
    + split; [|done]. intros _. exists VNone. split; [done|]. by intros _.
    + split; [|by intros [?|?]].
      destruct v; simpl; try done.
      repeat (case_match; simplify_eq/=; try done);
        intros _; eexists; (split; [done|]); by intros [?|?].
  - rewrite orb_true_r. split; [|done].
    intros _. exists VNone. split; [done|]. by intros _.
Qed.

Lemma MapIDListFeatures_key_no_KeyError self0 k s k' :
  (∀ m, preprocess_id_list (MapIDListFeatures_sparse_preprocessor self0) m
        ≠ Raise (KeyError k')) →
  (∀ m, preprocess_id_score_list (MapIDListFeatures_sparse_preprocessor self0) m
        ≠ Raise (KeyError k')) →
  (MapIDListFeatures_key self0 k s).1 ≠ Raise (KeyError k').
Proof.
  intros H1 H2. unfold MapIDListFeatures_key. run.
  destruct (batch s !! k) as [v|] eqn:Hk; simpl.
  - case_bool_decide as He; simpl; rewrite ?Hk; simpl; [done|].
    destruct v; simpl; try done.
    case_bool_decide; simpl.
    + pose proof (H1 m). destruct (preprocess_id_list _ m); simpl; [done|congruence].
    + pose proof (H2 m).
      destruct (preprocess_id_score_list _ m); simpl; [done|congruence].
  - by rewrite orb_true_r.
Qed.

Lemma MapIDListFeatures_absent_becomes_None self0 k keys s :
  (k ∈ keys ∧ batch s !! k = None) ∨ batch s !! k = Some VNone →
  (for_each keys (MapIDListFeatures_key self0) s).1 = Ok tt →
  batch (for_each keys (MapIDListFeatures_key self0) s).2 !! k = Some VNone.
Proof.
  revert s. induction keys as [|k0 keys IH]; intros s Hk; simpl.
  { intros _. destruct Hk as [[Hk _]|Hk]; [by apply elem_of_nil in Hk|done]. }
  rewrite bind_run.
  destruct (MapIDListFeatures_key_run self0 k0 s) as (_ & Hrun & _).
  destruct (MapIDListFeatures_key self0 k0 s) as [[[]|e] s1]; simpl in *; [|done].
  destruct (Hrun eq_refl) as (v' & Hb & Hv'). apply IH.
  rewrite Hb. destruct (decide (k0 = k)) as [->|Hne].
  - right. rewrite lookup_insert_eq. f_equal. apply Hv'.
    destruct Hk as [[_ ?]|?]; [by left|by right].
  - rewrite lookup_insert_ne by done.
    destruct Hk as [[Hin ?]|?]; [left|by right].
    split; [|done]. apply elem_of_cons in Hin as [->|?]; done.
Qed.

Lemma MapIDListFeatures_no_vocabulary self0 keys s :
  id2name (MapIDListFeatures_feature_config self0) = ∅ →
  ∃ d', for_each keys (MapIDListFeatures_key self0) s = (Ok tt, St (world s) (self s) d')
        ∧ (∀ k, k ∈ keys → d' !! k = Some VNone)
        ∧ (∀ k, k ∉ keys → d' !! k = batch s !! k).
Proof.
  intros He. revert s. induction keys as [|k0 keys IH]; intros s; simpl.
  { exists (batch s). destruct s. split_and!; [done| |done].
    by intros k Hk%elem_of_nil. }
  destruct (MapIDListFeatures_key_run self0 k0 s) as (_ & _ & Hrun).
  rewrite bind_run, Hrun by (by right).
  destruct (IH (St (world s) (self s) (<[k0 := VNone]> (batch s))))
    as (d' & -> & Hin & Hout). simpl in *.
  exists d'. split_and!; [done| |].
  - intros k [->|Hk]%elem_of_cons; [|by apply Hin].
    destruct (decide (k0 ∈ keys)); [by apply Hin|].
    rewrite Hout by done. by rewrite lookup_insert_eq.
  - intros k Hk. rewrite Hout by (intros ?; apply Hk; by right).
    rewrite lookup_insert_ne; [done|]. intros ->. apply Hk. by left.
Qed.

(** C8.  Provided the sparse preprocessor itself raises no [KeyError],
    a call raises none: a configured key that is absent from the batch is
    set to [None] and the loop goes on, whether or not a vocabulary is
    declared, so that a call that returns leaves [None] under that key.
    Without a vocabulary every configured key ends as [None], also the
    keys that held data, and the call returns. *)
Theorem MapIDListFeatures_never_misses_a_key (s : MapIDListFeatures) :
  (∀ m k, preprocess_id_list (MapIDListFeatures_sparse_preprocessor s) m
          ≠ Raise (KeyError k)) →
  (∀ m k, preprocess_id_score_list (MapIDListFeatures_sparse_preprocessor s) m
          ≠ Raise (KeyError k)) →
  let keys := MapIDListFeatures_id_list_keys s ++ MapIDListFeatures_id_score_list_keys s in
  (∀ w d k, (MapIDListFeatures_call (St w s d)).1 ≠ Raise (KeyError k))
  ∧ (∀ w (d : gmap string value) k rest,
       d !! k = None →
       for_each (k :: rest) (MapIDListFeatures_key s) (St w s d) =
       for_each rest (MapIDListFeatures_key s) (St w s (<[k := VNone]> d)))
  ∧ (∀ w (d : gmap string value) k,
       k ∈ keys → d !! k = None →
       (MapIDListFeatures_call (St w s d)).1 = Ok tt →
       batch (MapIDListFeatures_call (St w s d)).2 !! k = Some VNone)
  ∧ (id2name (MapIDListFeatures_feature_config s) = ∅ →
     ∀ w (d : gmap string value),
       ∃ d', MapIDListFeatures_call (St w s d) = (Ok tt, St w s d')
             ∧ (∀ k, k ∈ keys → d' !! k = Some VNone)
             ∧ (∀ k, k ∉ keys → d' !! k = d !! k)).
Proof.
  intros H1 H2 keys. split_and!.
  - intros w d k Hr. unfold MapIDListFeatures_call in Hr.
    rewrite bind_run in Hr. simpl in Hr.
    apply for_each_raise in Hr as (x & s1 & _ & Hx).
    by eapply MapIDListFeatures_key_no_KeyError.
  - intros w d k rest Hd. simpl. rewrite bind_run.
    destruct (MapIDListFeatures_key_run s k (St w s d)) as (_ & _ & Hrun).
    by rewrite Hrun by (by left).
  - intros w d k Hk Hd. unfold MapIDListFeatures_call. rewrite bind_run. simpl.
    apply MapIDListFeatures_absent_becomes_None. by left.
  - intros He w d. unfold MapIDListFeatures_call. rewrite bind_run. simpl.
    apply (MapIDListFeatures_no_vocabulary s keys (St w s d) He).
Qed.

(** ** Source fields of FixedLengthSequences and of the composite *)

Lemma FixedLengthSequenceDenseNormalization_init_run
    keys sequence_id normalization_data expected_length dev w :
  FixedLengthSequenceDenseNormalization_init
    keys sequence_id normalization_data expected_length dev w =
  (Ok (mkFixedLengthSequenceDenseNormalization
         (mkFixedLengthSequences keys sequence_id
            (derived_key sequence_id <$> keys) expected_length)
         (mkDenseNormalization (derived_key sequence_id <$> keys)
            normalization_data (default cpu dev) None)
         (mkSlateView (derived_key sequence_id <$> keys) (Some (-1)))), w).
Proof.
  unfold FixedLengthSequenceDenseNormalization_init, FixedLengthSequences_init.
  destruct keys as [|k keys]; [done|].
  rewrite bool_decide_true; [done|]. simpl. by rewrite length_fmap.
Qed.

Ltac orun :=
  repeat progress
    (unfold ref_getitem, ref_setitem, oget_self, oset_self, olog, osub, zoom,
       tensor_read, tensor_write, tensor_new, tensor_to, first_length_obj,
       raise, torch, of_outcome, or_raise, py_assert,
       mbind, M_bind, mret, M_ret, outcome_bind, outcome_ret;
     cbn beta iota zeta; simpl).

Lemma outside_refl {V} T (d : gmap string V) : outside T d d.
Proof. by intros ??. Qed.

Lemma outside_trans {V} T (d1 d2 d3 : gmap string V) :
  outside T d1 d2 → outside T d2 d3 → outside T d1 d3.
Proof. intros H1 H2 k Hk. by rewrite H2, H1. Qed.

Lemma outside_insert {V} T (d : gmap string V) k v :
  k ∈ T → outside T d (<[k := v]> d).
Proof. intros Hk k' Hk'. rewrite lookup_insert_ne; [done|]. by intros ->. Qed.

(** *** What the in-place masks can do *)

Lemma Forall2_imap_r {A B} (P : A → B → Prop) (f : nat → A → B) (l : list A) :
  (∀ i x, P x (f i x)) → Forall2 P l (imap f l).
Proof.
  revert f. induction l as [|x l IH]; intros f Hf; simpl; [by apply Forall2_nil|].
  apply Forall2_cons. split; [done|]. apply IH. intros i y. apply Hf.
Qed.

Lemma zeroed_refl t : zeroed t t.
Proof.
  destruct t as [t|t]; simpl; (split; [done|]);
    apply Forall_Forall2_diag, Forall_forall; intros; by left.
Qed.

Lemma Forall2_kept_or_trans {A} (z : A) (l1 l2 l3 : list A) :
  Forall2 (λ x y, y = x ∨ y = z) l1 l2 → Forall2 (λ x y, y = x ∨ y = z) l2 l3 →
  Forall2 (λ x y, y = x ∨ y = z) l1 l3.
Proof.
  intros H. revert l3. induction H as [|x y l1 l2 Hxy _ IH]; intros l3 H'.
  - by apply Forall2_nil_inv_l in H' as ->.
  - apply Forall2_cons_inv_l in H' as (w & l3' & Hyw & H' & ->).
    apply Forall2_cons. split; [|by apply IH].
    destruct Hxy as [-> | ->], Hyw as [-> | ->]; auto.
Qed.

Lemma zeroed_trans t1 t2 t3 : zeroed t1 t2 → zeroed t2 t3 → zeroed t1 t3.
Proof.
  destruct t1 as [a|a], t2 as [b|b], t3 as [c|c]; simpl; try done;
    intros [Hs1 H1] [Hs2 H2]; (split; [congruence|]);
    by eapply Forall2_kept_or_trans.
Qed.

Lemma tt_masked_zero_zeroed mask_shape mask t t' :
  tt_masked_zero mask_shape mask t = Some t' → zeroed t t'.
Proof.
  destruct t as [t|t]; simpl; unfold masked_zero; case_decide; intros ?; simplify_eq/=;
    (split; [done|]); apply Forall2_imap_r; intros i x; case_match; auto.
Qed.

Lemma only_zeroed_refl T : only_zeroed T T.
Proof. intros l dev t H. exists t. split; [done|apply zeroed_refl]. Qed.

Lemma only_zeroed_trans T1 T2 T3 :
  only_zeroed T1 T2 → only_zeroed T2 T3 → only_zeroed T1 T3.
Proof.
  intros H1 H2 l dev t H. destruct (H1 _ _ _ H) as (t2 & Ht2 & Hz2).
  destruct (H2 _ _ _ Ht2) as (t3 & Ht3 & Hz3). exists t3. split; [done|].
  by eapply zeroed_trans.
Qed.

Lemma kept_refl T : kept T T.
Proof. by intros ??. Qed.

Lemma kept_trans T1 T2 T3 : kept T1 T2 → kept T2 T3 → kept T1 T3.
Proof. intros H1 H2 l x H. by apply H2, H1. Qed.

Lemma kept_only_zeroed T T' : kept T T' → only_zeroed T T'.
Proof. intros H l dev t Hl. exists t. split; [by apply H|apply zeroed_refl]. Qed.

Lemma kept_new (T : gmap loc (device * ttensor)) x : kept T (<[fresh (dom T) := x]> T).
Proof.
  intros l y Hl. rewrite lookup_insert_ne; [done|]. intros <-.
  apply (is_fresh (dom T)). apply elem_of_dom. by eexists.
Qed.

Lemma kept_insert_outside (T T' : gmap loc (device * ttensor)) l x :
  kept T T' → T !! l = None → kept T (<[l := x]> T').
Proof.
  intros K Hl l' y H'. rewrite lookup_insert_ne; [by apply K|]. intros <-. congruence.
Qed.

Lemma only_zeroed_write (T : gmap loc (device * ttensor)) l dev t t' :
  T !! l = Some (dev, t) → zeroed t t' → only_zeroed T (<[l := (dev, t')]> T).
Proof.
  intros Hl Hz l0 dev0 t0 H0. destruct (decide (l0 = l)) as [->|Hne].
  - rewrite lookup_insert_eq. simplify_eq. by exists t'.
  - rewrite lookup_insert_ne by done. exists t0. split; [done|apply zeroed_refl].
Qed.

(** *** FixedLengthSequences *)

(** FixedLengthSequences writes no tensor, and no key but its [to_keys]. *)
Lemma FixedLengthSequences_key_obj_frame kk s :
  otensors (FixedLengthSequences_key_obj kk s).2 = otensors s
  ∧ ∀ T, kk.2 ∈ T → outside T (obatch s) (obatch (FixedLengthSequences_key_obj kk s).2).
Proof.
  unfold FixedLengthSequences_key_obj. orun.
  repeat (case_match; simplify_eq/=);
    (split; [done|]; intros T HT;
     first [apply outside_refl | by apply outside_insert]).
Qed.

Lemma FixedLengthSequences_call_obj_frame s :
  otensors (FixedLengthSequences_call_obj s).2 = otensors s
  ∧ outside (FixedLengthSequences_to_keys (oself s)) (obatch s)
      (obatch (FixedLengthSequences_call_obj s).2).
Proof.
  unfold FixedLengthSequences_call_obj. rewrite bind_run. simpl.
  apply (for_each_preserves
    (λ s1 s2 : ost FixedLengthSequences,
       otensors s2 = otensors s1
       ∧ outside (FixedLengthSequences_to_keys (oself s)) (obatch s1) (obatch s2))).
  - intros ?. split; [done|apply outside_refl].
  - intros s1 s2 s3 [H1 H1'] [H2 H2']. split; [congruence|by eapply outside_trans].
  - intros [k tk] Hin s1.
    destruct (FixedLengthSequences_key_obj_frame (k, tk) s1) as [HT Hout].
    split; [done|]. apply Hout. by apply elem_of_zip_r in Hin.
Qed.

(** *** DenseNormalization *)

Lemma only_zeroed_masked (T : gmap loc (device * ttensor)) l x mask_shape mask t' :
  T !! l = Some x → tt_masked_zero mask_shape mask x.2 = Some t' →
  only_zeroed T (<[l := (x.1, t')]> T).
Proof.
  destruct x as [dev t]. intros Hl Hm.
  eapply only_zeroed_write; [done|by eapply tt_masked_zero_zeroed].
Qed.

Lemma tt_zero_rows_zeroed t : zeroed t (tt_zero_rows t).
Proof.
  destruct t as [t|t]; simpl; (split; [done|]);
    apply Forall2_imap_r; intros i x; case_match; auto.
Qed.

Lemma only_zeroed_rows (T : gmap loc (device * ttensor)) l x :
  T !! l = Some x → only_zeroed T (<[l := (x.1, tt_zero_rows x.2)]> T).
Proof.
  destruct x as [dev t]. intros Hl.
  eapply only_zeroed_write; [done|apply tt_zero_rows_zeroed].
Qed.

Ltac store_steps :=
  repeat first
    [ apply only_zeroed_refl
    | eapply only_zeroed_trans; [|apply kept_only_zeroed, kept_new]
    | eapply only_zeroed_trans; [|eapply only_zeroed_masked; eassumption]
    | eapply only_zeroed_trans; [|eapply only_zeroed_rows; eassumption] ].

Lemma DenseNormalization_key_obj_frame k s :
  only_zeroed (otensors s) (otensors (DenseNormalization_key_obj k s).2)
  ∧ ∀ T, k ∈ T → outside T (obatch s) (obatch (DenseNormalization_key_obj k s).2).
Proof.
  unfold DenseNormalization_key_obj. orun.
  repeat (case_match; simplify_eq/=).
  all: split; [|intros T HT; first [apply outside_refl | by apply outside_insert]].
  all: store_steps.
Qed.

Lemma DenseNormalization_call_obj_frame s :
  only_zeroed (otensors s) (otensors (DenseNormalization_call_obj s).2)
  ∧ outside (DenseNormalization_keys (oself s)) (obatch s)
      (obatch (DenseNormalization_call_obj s).2).
Proof.
  pose (R := λ s1 s2 : ost DenseNormalization,
          only_zeroed (otensors s1) (otensors s2)
          ∧ outside (DenseNormalization_keys (oself s)) (obatch s1) (obatch s2)).
  assert (∀ s0, R s0 (for_each (DenseNormalization_keys (oself s))
                         DenseNormalization_key_obj s0).2) as Hloop.
  { apply for_each_preserves.
    - intros ?. split; [apply only_zeroed_refl|apply outside_refl].
    - intros s1 s2 s3 [H1 H1'] [H2 H2'].
      split; [by eapply only_zeroed_trans|by eapply outside_trans].
    - intros k Hin s1. destruct (DenseNormalization_key_obj_frame k s1) as [HT Hout].
      split; [done|by apply Hout]. }
  unfold DenseNormalization_call_obj. rewrite bind_run. simpl. rewrite bind_run.
  destruct (DenseNormalization__preprocessor (oself s)); simpl; [apply Hloop|].
  match goal with |- context [for_each _ _ ?s0] => apply (Hloop s0) end.
Qed.

(** *** SlateView *)

Lemma SlateView_key_obj_run {Self} sv k (s : ost Self) :
  kept (otensors s) (otensors (SlateView_key_obj sv k s).2)
  ∧ (∀ T, k ∈ T → outside T (obatch s) (obatch (SlateView_key_obj sv k s).2))
  ∧ (∀ k0, holds_tensor s k0 → holds_tensor (SlateView_key_obj sv k s).2 k0)
  ∧ ((SlateView_key_obj sv k s).1 = Ok tt → holds_tensor (SlateView_key_obj sv k s).2 k).
Proof.
  unfold SlateView_key_obj, holds_tensor. orun.
  repeat (case_match; simplify_eq/=);
    (split_and!;
     [ first [apply kept_refl | apply kept_new]
     | intros T HT; first [apply outside_refl | by apply outside_insert]
     | intros k0 (lk & xk & Hk0 & Hl0);
       first [ by eexists _, _
             | destruct (decide (k = k0)) as [->|];
               [ rewrite lookup_insert_eq; eexists _, _; split; [done|];
                 by rewrite lookup_insert_eq
               | rewrite lookup_insert_ne by done; eexists _, _; split; [done|];
                 by apply kept_new ] ]
     | first [ done
             | intros _; rewrite lookup_insert_eq; eexists _, _; split; [done|];
               by rewrite lookup_insert_eq ] ]).
Qed.

Lemma SlateView_call_obj_run {Self} sv (s : ost Self) :
  kept (otensors s) (otensors (SlateView_call_obj sv s).2)
  ∧ outside (SlateView_keys sv) (obatch s) (obatch (SlateView_call_obj sv s).2)
  ∧ ((SlateView_call_obj sv s).1 = Ok tt →
     ∀ k, k ∈ SlateView_keys sv → holds_tensor (SlateView_call_obj sv s).2 k).
Proof.
  unfold SlateView_call_obj. split_and!.
  - apply (for_each_preserves (λ s1 s2 : ost Self, kept (otensors s1) (otensors s2))).
    + intros ?. apply kept_refl.
    + intros ???. apply kept_trans.
    + intros k Hk s1. by apply SlateView_key_obj_run.
  - apply (for_each_preserves
      (λ s1 s2 : ost Self, outside (SlateView_keys sv) (obatch s1) (obatch s2))).
    + intros ?. apply outside_refl.
    + intros ???. apply outside_trans.
    + intros k Hk s1. by apply SlateView_key_obj_run.
  - intros Hok k Hk.
    destruct (for_each_inv
      (λ s1 s2 : ost Self, holds_tensor s1 k → holds_tensor s2 k)
      (SlateView_keys sv) (SlateView_key_obj sv)) with (s := s) (x := k)
      as (s1 & _ & Hb & Hrest); [done|by auto| |done|done|].
    + intros x _ s1. apply SlateView_key_obj_run.
    + apply Hrest. by apply SlateView_key_obj_run.
Qed.

(** *** The composite *)

(** The three stages of the composite, in order. *)
Lemma FixedLengthSequenceDenseNormalization_call_run s w d T :
  FixedLengthSequenceDenseNormalization_call (OSt w s d T) =
  match FixedLengthSequences_call_obj (OSt w (fixed_length_sequences s) d T) with
  | (Raise e, t1) =>
      (Raise e, OSt (oworld t1)
                  (mkFixedLengthSequenceDenseNormalization
                     (oself t1) (dense_normalization s) (slate_view s))
                  (obatch t1) (otensors t1))
  | (Ok _, t1) =>
      match DenseNormalization_call_obj
              (OSt (oworld t1) (dense_normalization s) (obatch t1) (otensors t1)) with
      | (Raise e, t2) =>
          (Raise e, OSt (oworld t2)
                      (mkFixedLengthSequenceDenseNormalization
                         (oself t1) (oself t2) (slate_view s))
                      (obatch t2) (otensors t2))
      | (Ok _, t2) =>
          let sv := mkSlateView (SlateView_keys (slate_view s))
                      (FixedLengthSequences_expected_length (oself t1)) in
          SlateView_call_obj sv
            (OSt (oworld t2)
               (mkFixedLengthSequenceDenseNormalization (oself t1) (oself t2) sv)
               (obatch t2) (otensors t2))
      end
  end.
Proof.
  unfold FixedLengthSequenceDenseNormalization_call.
  rewrite bind_run. unfold osub at 1, zoom. simpl.
  destruct (FixedLengthSequences_call_obj _) as [[[]|e1] t1]; simpl; [|done].
  rewrite bind_run. unfold osub at 1, zoom. simpl.
  destruct (DenseNormalization_call_obj _) as [[[]|e2] t2]; simpl; [|done].
  done.
Qed.

Lemma DenseNormalization_key_obj_ok k s lv lp v p :
  obatch s !! k = Some (RTuple (RTensor lv) (RTensor lp)) →
  otensors s !! lv = Some (DenseNormalization_device (oself s), v) →
  otensors s !! lp = Some (DenseNormalization_device (oself s), p) →
  lv ≠ lp →
  (DenseNormalization_key_obj k s).1 = Ok tt →
  ∃ vm pm,
    tt_masked_zero (tt_shape v) (nan_mask v) v = Some vm
    ∧ tt_masked_zero (tt_shape v) (nan_mask v) p = Some pm
    ∧ otensors (DenseNormalization_key_obj k s).2 !! lv
      = Some (DenseNormalization_device (oself s), vm)
    ∧ otensors (DenseNormalization_key_obj k s).2 !! lp
      = Some (DenseNormalization_device (oself s), pm)
    ∧ (∀ l x, l ≠ lv → l ≠ lp → otensors s !! l = Some x →
              otensors (DenseNormalization_key_obj k s).2 !! l = Some x).
Proof.
  intros Hk Hv Hp Hne. unfold DenseNormalization_key_obj. orun.
  rewrite Hk. simpl. rewrite Hv. simpl. rewrite decide_True by done. simpl.
  rewrite Hp. simpl. rewrite decide_True by done. simpl. rewrite Hv, Hp. simpl.
  destruct (tt_masked_zero (tt_shape v) (nan_mask v) p) as [pm|] eqn:Hpm; simpl; [|done].
  rewrite Hp. simpl. rewrite lookup_insert_ne by done. rewrite Hv. simpl.
  destruct (tt_masked_zero (tt_shape v) (nan_mask v) v) as [vm|] eqn:Hvm; simpl; [|done].
  rewrite lookup_insert_ne by done. rewrite Hv. simpl.
  rewrite lookup_insert_ne by done. rewrite lookup_insert_eq. simpl.
  destruct (DenseNormalization__preprocessor (oself s)) as [pre|]; simpl; [|done].
  destruct (Preprocessor_call pre vm pm) as [r|e]; simpl; [|done].
  intros _. exists vm, pm. split_and!; [done|done| | |].
  - apply kept_new. by rewrite lookup_insert_eq.
  - apply kept_new. rewrite lookup_insert_ne by done. by rewrite lookup_insert_eq.
  - intros l x Hl1 Hl2 Hl. apply kept_new. by rewrite !lookup_insert_ne by done.
Qed.

Lemma for_each_single {S A} (x : A) (body : A → M S unit) s :
  for_each [x] body s = match body x s with
                        | (Ok _, s') => (Ok tt, s')
                        | (Raise e, s') => (Raise e, s')
                        end.
Proof. simpl. rewrite bind_run. by destruct (body x s) as [[[]|e] s']. Qed.

Lemma DenseNormalization_call_obj_ok k s lv lp v p :
  DenseNormalization_keys (oself s) = [k] →
  obatch s !! k = Some (RTuple (RTensor lv) (RTensor lp)) →
  otensors s !! lv = Some (DenseNormalization_device (oself s), v) →
  otensors s !! lp = Some (DenseNormalization_device (oself s), p) →
  lv ≠ lp →
  (DenseNormalization_call_obj s).1 = Ok tt →
  ∃ vm pm,
    tt_masked_zero (tt_shape v) (nan_mask v) v = Some vm
    ∧ tt_masked_zero (tt_shape v) (nan_mask v) p = Some pm
    ∧ otensors (DenseNormalization_call_obj s).2 !! lv
      = Some (DenseNormalization_device (oself s), vm)
    ∧ otensors (DenseNormalization_call_obj s).2 !! lp
      = Some (DenseNormalization_device (oself s), pm)
    ∧ (∀ l x, l ≠ lv → l ≠ lp → otensors s !! l = Some x →
              otensors (DenseNormalization_call_obj s).2 !! l = Some x).
Proof.
  intros Hks Hk Hv Hp Hne. unfold DenseNormalization_call_obj.
  rewrite bind_run. simpl. rewrite bind_run, Hks.
  destruct (DenseNormalization__preprocessor (oself s)) as [pre|] eqn:Hpre;
    unfold olog, oset_self; rewrite ?bind_run; cbn [mret M_ret];
    rewrite for_each_single.
  - pose proof (DenseNormalization_key_obj_ok k s lv lp v p Hk Hv Hp Hne) as H.
    destruct (DenseNormalization_key_obj k s) as [[[]|e] s']; simpl in *; [|done].
    intros _. by apply H.
  - match goal with
    | |- context [DenseNormalization_key_obj k ?s0] =>
        pose proof (DenseNormalization_key_obj_ok k s0 lv lp v p Hk Hv Hp Hne) as H;
        destruct (DenseNormalization_key_obj k s0) as [[[]|e] s']
    end; simpl in *; [|done].
    intros _. by apply H.
Qed.

(** A payload on another device is copied, and the masks go to the copies. *)
Lemma DenseNormalization_key_obj_off_device k s lv lp dv dp v p :
  obatch s !! k = Some (RTuple (RTensor lv) (RTensor lp)) →
  otensors s !! lv = Some (dv, v) →
  otensors s !! lp = Some (dp, p) →
  dv ≠ DenseNormalization_device (oself s) →
  dp ≠ DenseNormalization_device (oself s) →
  kept (otensors s) (otensors (DenseNormalization_key_obj k s).2).
Proof.
  intros Hk Hv Hp Hdv Hdp. unfold DenseNormalization_key_obj. orun.
  rewrite Hk. simpl. rewrite Hv. simpl. rewrite decide_False by done. simpl.
  pose proof (kept_new (otensors s) (DenseNormalization_device (oself s), v)) as K1.
  set (l1 := fresh (dom (otensors s))) in *.
  set (T1 := <[l1 := (DenseNormalization_device (oself s), v)]> (otensors s)) in *.
  rewrite (K1 _ _ Hp). simpl. rewrite decide_False by done. simpl.
  pose proof (kept_new T1 (DenseNormalization_device (oself s), p)) as K2.
  set (l2 := fresh (dom T1)) in *.
  set (T2 := <[l2 := (DenseNormalization_device (oself s), p)]> T1) in *.
  assert (T1 !! l1 = Some (DenseNormalization_device (oself s), v)) as H1
    by apply lookup_insert_eq.
  assert (l1 ≠ l2) as Hne.
  { intros E. apply (is_fresh (dom T1)). fold l2. rewrite <- E.
    apply elem_of_dom. by eexists. }
  assert (kept (otensors s) T2) as K by (by eapply kept_trans).
  rewrite (K2 _ _ H1). simpl. unfold T2 at 1. rewrite lookup_insert_eq. simpl.
  assert (otensors s !! l1 = None) as N1 by apply not_elem_of_dom, is_fresh.
  assert (otensors s !! l2 = None) as N2.
  { destruct (otensors s !! l2) as [x|] eqn:E; [|done]. exfalso.
    apply (is_fresh (dom T1)). fold l2. apply elem_of_dom. exists x. by apply K1. }
  clear K1 K2 H1 Hne. clearbody T2 l2. clear T1. clearbody l1.
  repeat (case_match; simplify_eq/=);
    repeat first
      [ exact K
      | apply kept_insert_outside; [|done]
      | eapply kept_trans; [|apply kept_new] ].
Qed.

Lemma DenseNormalization_call_obj_off_device k s lv lp dv dp v p :
  DenseNormalization_keys (oself s) = [k] →
  obatch s !! k = Some (RTuple (RTensor lv) (RTensor lp)) →
  otensors s !! lv = Some (dv, v) →
  otensors s !! lp = Some (dp, p) →
  dv ≠ DenseNormalization_device (oself s) →
  dp ≠ DenseNormalization_device (oself s) →
  kept (otensors s) (otensors (DenseNormalization_call_obj s).2).
Proof.
  intros Hks Hk Hv Hp Hdv Hdp. unfold DenseNormalization_call_obj.
  rewrite bind_run. simpl. rewrite bind_run, Hks.
  destruct (DenseNormalization__preprocessor (oself s)) as [pre|] eqn:Hpre;
    unfold olog, oset_self; rewrite ?bind_run; cbn [mret M_ret];
    rewrite for_each_single.
  - pose proof (DenseNormalization_key_obj_off_device k s lv lp dv dp v p
                  Hk Hv Hp Hdv Hdp) as H.
    by destruct (DenseNormalization_key_obj k s) as [[[]|e] s'].
  - match goal with
    | |- context [DenseNormalization_key_obj k ?s0] =>
        pose proof (DenseNormalization_key_obj_off_device k s0 lv lp dv dp v p
                      Hk Hv Hp Hdv Hdp) as H;
        destruct (DenseNormalization_key_obj k s0) as [[[]|e] s']
    end; done.
Qed.


Lemma FixedLengthSequences_key_obj_ok kk s :
  (FixedLengthSequences_key_obj kk s).1 = Ok tt →
  ∃ v lo value,
    obatch s !! kk.1 = Some v
    ∧ sequence_entry (FixedLengthSequences_sequence_id (oself s)) v
      = Some (RTuple (RTensor lo) value)
    ∧ obatch (FixedLengthSequences_key_obj kk s).2 = <[kk.2 := value]> (obatch s).
Proof.
  unfold FixedLengthSequences_key_obj. orun.
  destruct (obatch s !! kk.1) as [v|]; simpl; [|done].
  intros Hok. exists v.
  destruct v as [| | |a b| |m]; simpl in *; try done.
  - destruct (py_getitem [a; b] _) as [[| | |[|lo| | | |] value| |]|]; simpl in *;
      try done.
    exists lo, value. split_and!; [done|done|].
    repeat (case_match; simplify_eq/=); done.
  - destruct (m !! _) as [[| | |[|lo| | | |] value| |]|]; simpl in *; try done.
    exists lo, value. split_and!; [done|done|].
    repeat (case_match; simplify_eq/=); done.
Qed.

Lemma derived_key_ne sequence_id k : derived_key sequence_id k ≠ k.
Proof.
  intros H. apply (f_equal String.length) in H. unfold derived_key in H.
  rewrite !string_length_app in H. simpl in H. lia.
Qed.

Lemma FixedLengthSequences_call_obj_ok s :
  length (FixedLengthSequences_to_keys (oself s))
    = length (FixedLengthSequences_keys (oself s)) →
  (∀ k, k ∈ FixedLengthSequences_keys (oself s) →
        k ∉ FixedLengthSequences_to_keys (oself s)) →
  (FixedLengthSequences_call_obj s).1 = Ok tt →
  ∀ k, k ∈ FixedLengthSequences_keys (oself s) →
    ∃ v lo value,
      obatch s !! k = Some v
      ∧ sequence_entry (FixedLengthSequences_sequence_id (oself s)) v
        = Some (RTuple (RTensor lo) value).
Proof.
  intros Hlen Hdisj Hok k Hk.
  apply list_elem_of_lookup in Hk as [i Hi].
  destruct (lookup_lt_is_Some_2 (FixedLengthSequences_to_keys (oself s)) i)
    as [tk Htk].
  { rewrite Hlen. by eapply lookup_lt_Some. }
  unfold FixedLengthSequences_call_obj in Hok. rewrite bind_run in Hok. simpl in Hok.
  pose (R := λ s1 s2 : ost FixedLengthSequences,
          FixedLengthSequences_sequence_id (oself s2)
            = FixedLengthSequences_sequence_id (oself s1)
          ∧ outside (FixedLengthSequences_to_keys (oself s)) (obatch s1) (obatch s2)).
  destruct (for_each_inv R
    (zip (FixedLengthSequences_keys (oself s)) (FixedLengthSequences_to_keys (oself s)))
    FixedLengthSequences_key_obj) with (s := s) (x := (k, tk))
    as (s1 & [Hid Hs1] & Hb & _).
  - intros ?. split; [done|apply outside_refl].
  - intros s1 s2 s3 [H1 H1'] [H2 H2']. split; [congruence|by eapply outside_trans].
  - intros [k' tk'] Hin s1. split.
    + unfold FixedLengthSequences_key_obj. orun.
      repeat (case_match; simplify_eq/=); done.
    + apply FixedLengthSequences_key_obj_frame. by apply elem_of_zip_r in Hin.
  - done.
  - by eapply (elem_of_lookup_zip_with_2 pair).
  - apply FixedLengthSequences_key_obj_ok in Hb as (v & lo & value & Hv & He & _).
    exists v, lo, value. simpl in Hv. rewrite <- Hid. split; [|done].
    rewrite <- Hv. symmetry. apply Hs1. apply Hdisj.
    apply list_elem_of_lookup. by exists i.
Qed.

Lemma FixedLengthSequences_call_obj_single s k tk m lo value :
  FixedLengthSequences_keys (oself s) = [k] →
  FixedLengthSequences_to_keys (oself s) = [tk] →
  obatch s !! k = Some (RDict m) →
  m !! FixedLengthSequences_sequence_id (oself s) = Some (RTuple (RTensor lo) value) →
  (FixedLengthSequences_call_obj s).1 = Ok tt →
  obatch (FixedLengthSequences_call_obj s).2 = <[tk := value]> (obatch s)
  ∧ otensors (FixedLengthSequences_call_obj s).2 = otensors s.
Proof.
  intros Hks Htk Hk Hm Hret. pose proof (FixedLengthSequences_call_obj_frame s) as [HT _].
  split; [|done]. revert Hret. clear HT.
  unfold FixedLengthSequences_call_obj. rewrite bind_run. simpl.
  rewrite Hks, Htk. change (zip [k] [tk]) with [(k, tk)]. rewrite for_each_single.
  pose proof (FixedLengthSequences_key_obj_ok (k, tk) s) as Hok.
  destruct (FixedLengthSequences_key_obj (k, tk) s) as [[[]|e] s']; simpl in *; [|done].
  intros _. destruct (Hok eq_refl) as (v & lo' & value' & Hv & He & Hb).
  rewrite Hk in Hv. simplify_eq/=. done.
Qed.

(** C9.  A field holds the addresses of its tensors and the store holds
    the tensors.  FixedLengthSequences writes into no tensor and rebinds no
    key outside [to_keys], whatever the outcome; so, when no source key is
    a destination key, every source key is bound after the call to the
    value it had, with the contents it had, and when the call returns this
    value has an entry (offsets, payload) for the sequence id.

    The composite rebinds no key outside the derived keys
    "field:sequence_id", whatever the outcome; a source key that is the
    derived key of another source key is rebound.  Every tensor of the
    store is there after the call, at its address and on its device, each
    entry kept or set to zero; when the call returns, every derived key is
    bound to a tensor.

    For one field, a dict whose payload (value, presence) lives on the
    device of the normalization: when the call returns, the field is bound
    to the same dict, the value tensor of its payload has its NaN entries
    set to zero, the presence tensor has the entries at these positions set
    to zero, and every other tensor of the store, the offsets among them,
    is as it was.  The source field is bound to the original objects, not
    to the original contents.  When the payload lives on other devices, the
    masks go to copies: every tensor of the store is as it was, whatever
    the outcome. *)
Theorem FixedLengthSequences_keeps_source_fields :
  (∀ keys sid el tk s w d T,
     FixedLengthSequences_init keys sid el tk = Ok s →
     let r := FixedLengthSequences_call_obj (OSt w s d T) in
     otensors r.2 = T
     ∧ (∀ k, k ∉ FixedLengthSequences_to_keys s → obatch r.2 !! k = d !! k)
     ∧ ((∀ k, k ∈ keys → k ∉ FixedLengthSequences_to_keys s) →
        r.1 = Ok tt →
        ∀ k, k ∈ keys →
          ∃ v lo value,
            obatch r.2 !! k = Some v
            ∧ sequence_entry sid v = Some (RTuple (RTensor lo) value)))
  ∧ (∀ keys sid nd el dev w0 s w1 w d T,
       FixedLengthSequenceDenseNormalization_init keys sid nd el dev w0 = (Ok s, w1) →
       let r := FixedLengthSequenceDenseNormalization_call (OSt w s d T) in
       (∀ k, k ∉ derived_key sid <$> keys → obatch r.2 !! k = d !! k)
       ∧ only_zeroed T (otensors r.2)
       ∧ (r.1 = Ok tt → ∀ k, k ∈ keys → holds_tensor r.2 (derived_key sid k)))
  ∧ (∀ k sid nd el dev w0 s w1 w d T m lo lv lp v p,
       FixedLengthSequenceDenseNormalization_init [k] sid nd el dev w0 = (Ok s, w1) →
       d !! k = Some (RDict m) →
       m !! sid = Some (RTuple (RTensor lo) (RTuple (RTensor lv) (RTensor lp))) →
       T !! lv = Some (default cpu dev, v) →
       T !! lp = Some (default cpu dev, p) →
       lv ≠ lp →
       let r := FixedLengthSequenceDenseNormalization_call (OSt w s d T) in
       r.1 = Ok tt →
       ∃ vm pm,
         tt_masked_zero (tt_shape v) (nan_mask v) v = Some vm
         ∧ tt_masked_zero (tt_shape v) (nan_mask v) p = Some pm
         ∧ obatch r.2 !! k = Some (RDict m)
         ∧ otensors r.2 !! lv = Some (default cpu dev, vm)
         ∧ otensors r.2 !! lp = Some (default cpu dev, pm)
         ∧ (∀ l x, l ≠ lv → l ≠ lp → T !! l = Some x → otensors r.2 !! l = Some x))
  ∧ (∀ k sid nd el dev w0 s w1 w d T m lo lv lp dv dp v p,
       FixedLengthSequenceDenseNormalization_init [k] sid nd el dev w0 = (Ok s, w1) →
       d !! k = Some (RDict m) →
       m !! sid = Some (RTuple (RTensor lo) (RTuple (RTensor lv) (RTensor lp))) →
       T !! lv = Some (dv, v) → dv ≠ default cpu dev →
       T !! lp = Some (dp, p) → dp ≠ default cpu dev →
       let r := FixedLengthSequenceDenseNormalization_call (OSt w s d T) in
       obatch r.2 !! k = Some (RDict m) ∧ kept T (otensors r.2)).
Proof.
  split_and!.
  - intros keys sid el tk s w d T Hinit r.
    assert (FixedLengthSequences_keys s = keys
            ∧ FixedLengthSequences_sequence_id s = sid
            ∧ length (FixedLengthSequences_to_keys s) = length keys) as (Hk & Hsid & Hlen).
    { unfold FixedLengthSequences_init in Hinit.
      case_bool_decide; simplify_eq/=. done. }
    destruct (FixedLengthSequences_call_obj_frame (OSt w s d T)) as [HT Hout].
    split_and!; [done|done|].
    intros Hdisj Hok k Hin.
    destruct (FixedLengthSequences_call_obj_ok (OSt w s d T)) with (k := k)
      as (v & lo & value & Hv & He); simpl; rewrite ?Hk; try done.
    exists v, lo, value. rewrite <- Hsid. split; [|done].
    subst r. rewrite Hout by (by apply Hdisj). done.
  - intros keys sid nd el dev w0 s w1 w d T Hinit r.
    rewrite FixedLengthSequenceDenseNormalization_init_run in Hinit.
    simplify_eq/=. subst r.
    set (to_keys := derived_key sid <$> keys) in *.
    rewrite FixedLengthSequenceDenseNormalization_call_run. simpl.
    destruct (FixedLengthSequences_call_obj_frame
      (OSt w (mkFixedLengthSequences keys sid to_keys el) d T)) as [HT1 Hout1].
    destruct (FixedLengthSequences_call_obj _) as [[[]|e1] t1]; simpl in *;
      [|split_and!; [done|rewrite HT1; apply only_zeroed_refl|done]].
    destruct (DenseNormalization_call_obj_frame
      (OSt (oworld t1) (mkDenseNormalization to_keys nd (default cpu dev) None)
          (obatch t1) (otensors t1))) as [HT2 Hout2].
    simpl in HT2, Hout2. rewrite HT1 in HT2 at 1.
    destruct (DenseNormalization_call_obj _) as [[[]|e2] t2]; simpl in *;
      [|split_and!; [intros k Hk; by rewrite Hout2, Hout1|done|done]].
    match goal with
    | |- context [SlateView_call_obj ?sv ?s0] =>
        destruct (SlateView_call_obj_run sv s0) as (HT3 & Hout3 & Hok3);
        destruct (SlateView_call_obj sv s0) as [o3 t3]
    end.
    simpl in *. split_and!.
    + intros k Hk. by rewrite Hout3, Hout2, Hout1.
    + eapply only_zeroed_trans; [done|]. by apply kept_only_zeroed.
    + intros -> k Hk. apply Hok3; [done|]. by apply list_elem_of_fmap_2.
  - intros k sid nd el dev w0 s w1 w d T m lo lv lp v p Hinit Hd Hm Hv Hp Hne r.
    rewrite FixedLengthSequenceDenseNormalization_init_run in Hinit.
    simplify_eq/=. subst r.
    rewrite FixedLengthSequenceDenseNormalization_call_run. simpl.
    pose proof (FixedLengthSequences_call_obj_single
      (OSt w (mkFixedLengthSequences [k] sid [derived_key sid k] el) d T)
      k (derived_key sid k) m lo _ eq_refl eq_refl Hd Hm) as H1.
    destruct (FixedLengthSequences_call_obj _) as [[[]|e1] t1]; simpl in *; [|done].
    destruct (H1 eq_refl) as [Hb1 HT1].
    pose proof (DenseNormalization_call_obj_ok (derived_key sid k)
      (OSt (oworld t1) (mkDenseNormalization [derived_key sid k] nd (default cpu dev) None)
          (obatch t1) (otensors t1)) lv lp v p eq_refl) as H2.
    simpl in H2. rewrite <- HT1 in Hv, Hp.
    specialize (H2 ltac:(by rewrite Hb1, lookup_insert_eq) Hv Hp Hne).
    destruct (DenseNormalization_call_obj_frame
      (OSt (oworld t1) (mkDenseNormalization [derived_key sid k] nd (default cpu dev) None)
          (obatch t1) (otensors t1))) as [_ Hout2].
    simpl in Hout2.
    assert (k ∉ [derived_key sid k]) as Hk.
    { intros Hk%list_elem_of_singleton. symmetry in Hk. by apply derived_key_ne in Hk. }
    destruct (DenseNormalization_call_obj _) as [[[]|e2] t2]; simpl in *; [|done].
    destruct (H2 eq_refl) as (vm & pm & Hvm & Hpm & Hlv & Hlp & Hrest).
    match goal with
    | |- context [SlateView_call_obj ?sv ?s0] =>
        destruct (SlateView_call_obj_run sv s0) as (HT3 & Hout3 & _);
        destruct (SlateView_call_obj sv s0) as [o3 t3]
    end.
    simpl in *. intros _. exists vm, pm. split_and!; [done|done| | | |].
    + rewrite Hout3, Hout2, Hb1 by done. rewrite lookup_insert_ne; [done|].
      apply derived_key_ne.
    + by apply HT3.
    + by apply HT3.
    + intros l x Hl1 Hl2 Hl. apply HT3. apply Hrest; [done|done|]. by rewrite HT1.
  - intros k sid nd el dev w0 s w1 w d T m lo lv lp dv dp v p
      Hinit Hd Hm Hv Hdv Hp Hdp r.
    rewrite FixedLengthSequenceDenseNormalization_init_run in Hinit.
    simplify_eq/=. subst r.
    assert (k ∉ [derived_key sid k]) as Hk.
    { intros Hk%list_elem_of_singleton. symmetry in Hk. by apply derived_key_ne in Hk. }
    rewrite FixedLengthSequenceDenseNormalization_call_run. simpl.
    destruct (FixedLengthSequences_call_obj_frame
      (OSt w (mkFixedLengthSequences [k] sid [derived_key sid k] el) d T))
      as [HT1 Hout1].
    pose proof (FixedLengthSequences_call_obj_single
      (OSt w (mkFixedLengthSequences [k] sid [derived_key sid k] el) d T)
      k (derived_key sid k) m lo _ eq_refl eq_refl Hd Hm) as H1.
    destruct (FixedLengthSequences_call_obj _) as [[[]|e1] t1]; simpl in *.
    2:{ split; [by rewrite Hout1|]. rewrite HT1. apply kept_refl. }
    destruct (H1 eq_refl) as [Hb1 _].
    rewrite <- HT1 in Hv, Hp.
    pose proof (DenseNormalization_call_obj_off_device (derived_key sid k)
      (OSt (oworld t1) (mkDenseNormalization [derived_key sid k] nd (default cpu dev) None)
          (obatch t1) (otensors t1)) lv lp dv dp v p eq_refl
      ltac:(by simpl; rewrite Hb1, lookup_insert_eq) Hv Hp Hdv Hdp) as H2.
    destruct (DenseNormalization_call_obj_frame
      (OSt (oworld t1) (mkDenseNormalization [derived_key sid k] nd (default cpu dev) None)
          (obatch t1) (otensors t1))) as [_ Hout2].
    simpl in H2, Hout2. rewrite HT1 in H2 at 1.
    destruct (DenseNormalization_call_obj _) as [[[]|e2] t2]; simpl in *.
    2:{ split; [by rewrite Hout2, Hout1|done]. }
    match goal with
    | |- context [SlateView_call_obj ?sv ?s0] =>
        destruct (SlateView_call_obj_run sv s0) as (HT3 & Hout3 & _);
        destruct (SlateView_call_obj sv s0) as [o3 t3]
    end.
    simpl in *. split; [by rewrite Hout3, Hout2, Hout1|]. by eapply kept_trans.
Qed.

(** ** Cat with broadcasting *)

Lemma to_float_shape t : shape (to_float t) = tt_shape t.
Proof. by destruct t. Qed.

Lemma to_float_wf t : tt_wf t → wf (to_float t).
Proof. destruct t; simpl; [apply wf_tmap|done]. Qed.





Ltac in_range :=
  repeat (apply Forall2_cons; split; [lia|]); by apply Forall2_nil.


(** ** AppendConstant *)

(** C6, where the code departs from it.  The extra column is always built
    for the last dimension, whatever [dim] is.  With [dim = 0] a field of
    shape (2,3) cannot be concatenated with its (2,1) column and the call
    raises; a field of shape (3,1) gets three constant rows in front, not
    one. *)
Theorem AppendConstant_other_dimension k (d : gmap string value) const :
  (∀ data,
     let v := VTensor (TFloat (Tensor [2; 3]%nat data)) in
     AppendConstant_call (AppendConstant_init [k] 0 const) (<[k := v]> d)
       = (Raise RuntimeError, <[k := v]> d))
  ∧ (∀ x y z,
       let v := VTensor (TFloat (Tensor [3; 1]%nat [x; y; z])) in
       let c := f_mul const f_one in
       AppendConstant_call (AppendConstant_init [k] 0 const) (<[k := v]> d)
         = (Ok tt, <[k := VTensor (TFloat (Tensor [6; 1]%nat [c; c; c; x; y; z]))]> d)).
Proof.
  split.
  - intros data v. unfold AppendConstant_call. run. rewrite lookup_insert_eq. run.
    done.
  - intros x y z v c. unfold AppendConstant_call. run. rewrite lookup_insert_eq. run.
    change (cat _ 0) with
      (Some (Tensor [6; 1]%nat [c; c; c; x; y; z])).
    run. by rewrite insert_insert_eq.
Qed.

(** The failure is general: for any dimension other than the last, the call
    raises as soon as the last dimension has a size other than 1. *)
Lemma AppendConstant_off_last_dimension_raises k (d : gmap string value) const
    value (dim m : nat) :
  d !! k = Some (VTensor value) →
  (S dim < tt_ndim value)%nat →
  last (tt_shape value) = Some m → m ≠ 1%nat →
  AppendConstant_call (AppendConstant_init [k] (Z.of_nat dim) const) d
    = (Raise RuntimeError, d).
Proof.
  intros Hd Hdim Hlast Hm. unfold AppendConstant_call. run. rewrite Hd. run.
  set (extra := full (all_but_last (tt_shape value) ++ [1%nat]) (f_mul const f_one)).
  unfold tt_ndim in Hdim.
  assert (length (all_but_last (tt_shape value)) = (length (tt_shape value) - 1)%nat)
    as Hlen.
  { unfold all_but_last. rewrite length_take. lia. }
  assert (tt_cat_error [TFloat extra; value] (Z.of_nat dim) = RuntimeError) as ->.
  { unfold tt_cat_error, cat_error. simpl. rewrite filter_cons_True.
    2: { simpl. intros E. apply (f_equal length) in E.
         rewrite length_app, Hlen in E. simpl in E. lia. }
    unfold ndim. simpl. rewrite length_app, Hlen. simpl.
    by rewrite py_index_nat by lia. }
  assert (tt_cat [TFloat extra; value] (Z.of_nat dim) = None) as ->; [|done].
  unfold tt_cat. simpl. unfold cat.
  rewrite filter_cons_True.
  2: { simpl. intros E. apply (f_equal length) in E.
       rewrite length_app, Hlen in E. simpl in E. lia. }
  rewrite filter_cons_True.
  2: { rewrite to_float_shape. intros E. rewrite E in Hdim. simpl in Hdim. lia. }
  rewrite filter_nil. unfold ndim. simpl.
  rewrite length_app, Hlen. simpl.
  rewrite py_index_nat by lia. simpl.
  rewrite decide_False; [done|].
  intros E. apply Forall_cons_1 in E as [E _]. rewrite to_float_shape in E.
  apply (f_equal (λ l, l !! (length (tt_shape value) - 1)%nat)) in E.
  rewrite !list_lookup_insert_ne in E by lia.
  rewrite lookup_app_r in E by lia. rewrite Hlen, Nat.sub_diag in E. simpl in E.
  rewrite last_lookup in Hlast.
  replace (Nat.pred (length (tt_shape value))) with (length (tt_shape value) - 1)%nat
    in Hlast by lia.
  congruence.
Qed.

(** Along the last dimension the transform does what its name says: one
    constant column in front of a matrix. *)
Lemma AppendConstant_last_dimension_example k (d : gmap string value) const x y z u :
  let v := VTensor (TFloat (Tensor [2; 2]%nat [x; y; z; u])) in
  let c := f_mul const f_one in
  AppendConstant_call (AppendConstant_init [k] (-1) const) (<[k := v]> d)
    = (Ok tt, <[k := VTensor (TFloat (Tensor [2; 3]%nat [c; x; y; c; z; u]))]> d).
Proof.
  intros v c. unfold AppendConstant_call. run. rewrite lookup_insert_eq. run.
  change (cat _ (-1)) with (Some (Tensor [2; 3]%nat [c; x; y; c; z; u])).
  run. by rewrite insert_insert_eq.
Qed.

(** * Further properties of the transforms *)

(** ** Compose *)

(** X1.  A pipeline over a concatenation of transform lists is the first
    pipeline followed by the second; two pipelines used as the stages of a
    third behave as the single pipeline of all their stages; and when the
    first part raises, the stages after it do not run: the exception and the
    state at the raise are those of the first part. *)
Theorem Compose_call_flattens {S D} (ts1 ts2 : list (D → M S D)) (data : D) (s : S) :
  Compose_call (ts1 ++ ts2) data s = (Compose_call ts1 data ≫= Compose_call ts2) s
  ∧ Compose_call [Compose_call ts1; Compose_call ts2] data s
      = Compose_call (ts1 ++ ts2) data s
  ∧ (∀ e s', Compose_call ts1 data s = (Raise e, s') →
       Compose_call (ts1 ++ ts2) data s = (Raise e, s')).
Proof.
  assert (∀ data s,
    Compose_call (ts1 ++ ts2) data s = (Compose_call ts1 data ≫= Compose_call ts2) s)
    as Happ.
  { clear data s. induction ts1 as [|t ts1 IH]; intros data s; simpl.
    - rewrite bind_run. done.
    - rewrite !bind_run. destruct (t data s) as [[data'|e] s1]; [|done].
      rewrite IH. by rewrite bind_run. }
  split_and!.
  - apply Happ.
  - simpl. rewrite Happ, !bind_run.
    destruct (Compose_call ts1 data s) as [[data'|e] s1]; [|done].
    rewrite bind_run. by destruct (Compose_call ts2 data' s1) as [[?|?] ?].
  - intros e s' Hr. by rewrite Happ, bind_run, Hr.
Qed.

(** ** Filter: what the new dict holds *)

Lemma heap_insert_insert (h : gmap loc (gmap string value)) l d1 d2 :
  <[l := d2]> (<[l := d1]> h) = <[l := d2]> h.
Proof. apply insert_insert_eq. Qed.

Lemma Filter_keep_loop (h : gmap loc (gmap string value)) data new d ks acc :
  h !! data = Some d → data ≠ new →
  ∃ dn,
    for_each ks (λ k : string,
      present ← at_loc data (contains k);
      if present : bool then v ← at_loc data (getitem k); at_loc new (setitem k v)
      else mret tt) (<[new := acc]> h) = (Ok tt, <[new := dn]> h)
    ∧ ∀ k, dn !! k = if decide (k ∈ ks)
                     then (match d !! k with Some v => Some v | None => acc !! k end)
                     else acc !! k.
Proof.
  intros Hd Hne. revert acc. induction ks as [|k0 ks IH]; intros acc.
  { exists acc. split; [done|]. intros k. rewrite decide_False; [done|].
    apply not_elem_of_nil. }
  assert (<[new := acc]> h !! data = Some d) as Hd' by (by rewrite lookup_insert_ne).
  assert (<[new := acc]> h !! new = Some acc) as Hn by apply lookup_insert_eq.
  simpl. rewrite bind_run.
  rewrite (bind_ok _ _ _ _ _ (at_loc_contains _ _ _ k0 Hd')).
  case_bool_decide as Hk.
  - destruct (at_loc_getitem _ _ _ k0 Hd' Hk) as (v & Hv & Hget).
    rewrite (bind_ok _ _ _ _ _ Hget), (at_loc_setitem _ _ _ _ _ Hn).
    rewrite heap_insert_insert.
    destruct (IH (<[k0 := v]> acc)) as (dn & -> & Hdn).
    exists dn. split; [done|]. intros k. rewrite Hdn.
    destruct (decide (k = k0)) as [->|Hkk].
    + rewrite (decide_True (P := k0 ∈ k0 :: ks)) by apply list_elem_of_here.
      rewrite Hv, lookup_insert_eq. by case_decide.
    + rewrite lookup_insert_ne by done.
      destruct (decide (k ∈ ks)) as [Hin|Hin].
      * rewrite decide_True by (by right). done.
      * rewrite decide_False; [done|]. by intros [?|?]%elem_of_cons.
  - simpl. destruct (IH acc) as (dn & -> & Hdn).
    exists dn. split; [done|]. intros k. rewrite Hdn.
    assert (d !! k0 = None) as Hk0.
    { destruct (d !! k0) eqn:E; [|done]. exfalso. apply Hk. by eexists. }
    destruct (decide (k = k0)) as [->|Hkk].
    + rewrite (decide_True (P := k0 ∈ k0 :: ks)) by apply list_elem_of_here.
      rewrite Hk0. by case_decide.
    + destruct (decide (k ∈ ks)) as [Hin|Hin].
      * rewrite decide_True by (by right). done.
      * rewrite decide_False; [done|]. by intros [?|?]%elem_of_cons.
Qed.

Lemma Filter_remove_loop (h : gmap loc (gmap string value)) new ks acc :
  ∃ dn,
    for_each ks (λ k : string,
      present ← at_loc new (contains k);
      if present : bool then at_loc new (delitem k) else mret tt)
      (<[new := acc]> h) = (Ok tt, <[new := dn]> h)
    ∧ ∀ k, dn !! k = if decide (k ∈ ks) then None else acc !! k.
Proof.
  revert acc. induction ks as [|k0 ks IH]; intros acc.
  { exists acc. split; [done|]. intros k. rewrite decide_False; [done|].
    apply not_elem_of_nil. }
  assert (<[new := acc]> h !! new = Some acc) as Hn by apply lookup_insert_eq.
  simpl. rewrite bind_run.
  rewrite (bind_ok _ _ _ _ _ (at_loc_contains _ _ _ k0 Hn)).
  case_bool_decide as Hk.
  - rewrite (at_loc_delitem _ _ _ _ Hn Hk), heap_insert_insert.
    destruct (IH (delete k0 acc)) as (dn & -> & Hdn).
    exists dn. split; [done|]. intros k. rewrite Hdn.
    destruct (decide (k = k0)) as [->|Hkk].
    + rewrite (decide_True (P := k0 ∈ k0 :: ks)) by apply list_elem_of_here.
      rewrite lookup_delete_eq. by case_decide.
    + rewrite lookup_delete_ne by done.
      destruct (decide (k ∈ ks)) as [Hin|Hin].
      * rewrite decide_True by (by right). done.
      * rewrite decide_False; [done|]. by intros [?|?]%elem_of_cons.
  - simpl. destruct (IH acc) as (dn & -> & Hdn).
    exists dn. split; [done|]. intros k. rewrite Hdn.
    assert (acc !! k0 = None) as Hk0.
    { destruct (acc !! k0) eqn:E; [|done]. exfalso. apply Hk. by eexists. }
    destruct (decide (k = k0)) as [->|Hkk].
    + rewrite (decide_True (P := k0 ∈ k0 :: ks)) by apply list_elem_of_here.
      rewrite Hk0. by case_decide.
    + destruct (decide (k ∈ ks)) as [Hin|Hin].
      * rewrite decide_True by (by right). done.
      * rewrite decide_False; [done|]. by intros [?|?]%elem_of_cons.
Qed.

(** X2.  With a non-empty keep-list the dict that Filter returns holds
    exactly the listed keys that the input has, with the input's values;
    listed keys that the input lacks are skipped.  With a remove-list it
    holds exactly the input's keys that are not listed.  The heap changes
    only by the new dict. *)
Theorem Filter_call_selects data (h : gmap loc (gmap string value)) d :
  h !! data = Some d →
  let new := fresh (dom h) in
  (∀ k0 ks remove_keys,
     ∃ dn, Filter_call (mkFilter (Some (k0 :: ks)) remove_keys) data h
             = (Ok new, <[new := dn]> h)
           ∧ ∀ k, dn !! k = if decide (k ∈ k0 :: ks) then d !! k else None)
  ∧ (∀ remove_keys,
       ∃ dn, Filter_call (mkFilter None (Some remove_keys)) data h
               = (Ok new, <[new := dn]> h)
             ∧ ∀ k, dn !! k = if decide (k ∈ remove_keys) then None else d !! k).
Proof.
  intros Hd new.
  assert (h !! new = None) as Hnew by apply alloc_fresh.
  assert (data ≠ new) as Hne by (intros ->; congruence).
  split.
  - intros k0 ks rs. unfold Filter_call. cbn [Filter_keep_keys Filter_remove_keys].
    rewrite (bind_ok _ _ _ new (<[new := ∅]> h)) by done.
    destruct (Filter_keep_loop h data new d (k0 :: ks) ∅ Hd Hne) as (dn & Hrun & Hdn).
    exists dn. rewrite bind_run, Hrun. split; [done|].
    intros k. rewrite Hdn. case_decide; [|done]. by destruct (d !! k).
  - intros rs. unfold Filter_call. cbn [Filter_keep_keys Filter_remove_keys].
    rewrite (bind_ok _ _ _ _ _ (at_loc_get _ _ _ Hd)).
    rewrite (bind_ok _ _ _ new (<[new := d]> h)) by done.
    destruct (Filter_remove_loop h new rs d) as (dn & Hrun & Hdn).
    exists dn. rewrite !bind_run, Hrun. done.
Qed.

(** X3.  An empty keep-list passes the constructor's check, but the call
    then takes the remove-list branch, where [remove_keys] is [None]: every
    call raises [TypeError], after having copied the input. *)
Theorem Filter_empty_keep_list_raises data (h : gmap loc (gmap string value)) d :
  h !! data = Some d →
  Filter_init (Some []) None = Ok (mkFilter (Some []) None)
  ∧ Filter_call (mkFilter (Some []) None) data h
      = (Raise TypeError, <[fresh (dom h) := d]> h).
Proof.
  intros Hd. split; [done|]. unfold Filter_call. simpl.
  rewrite (bind_ok _ _ _ _ _ (at_loc_get _ _ _ Hd)).
  rewrite (bind_ok _ _ _ (fresh (dom h)) (<[fresh (dom h) := d]> h)) by done.
  by rewrite bind_run.
Qed.

(** ** Rename: what the new dict holds *)

Lemma Rename_step (h : gmap loc (gmap string value)) new dn (o n : string) :
  (v ← at_loc new (popitem o); at_loc new (setitem n v)) (<[new := dn]> h) =
  match dn !! o with
  | Some v => (Ok tt, <[new := <[n := v]> (delete o dn)]> h)
  | None => (Raise (KeyError o), <[new := dn]> h)
  end.
Proof.
  rewrite bind_run. unfold at_loc at 1, popitem. rewrite lookup_insert_eq.
  destruct (dn !! o) as [v|]; rewrite heap_insert_insert; [|done].
  unfold at_loc, setitem, modify. rewrite lookup_insert_eq.
  by rewrite heap_insert_insert.
Qed.

Lemma Rename_call_unfold self data (h : gmap loc (gmap string value)) d :
  h !! data = Some d →
  Rename_call self data h =
  (for_each (zip (Rename_old_names self) (Rename_new_names self))
     (λ on : string * string,
        v ← at_loc (fresh (dom h)) (popitem on.1);
        at_loc (fresh (dom h)) (setitem on.2 v));;
   mret (fresh (dom h))) (<[fresh (dom h) := d]> h).
Proof.
  intros Hd. unfold Rename_call.
  rewrite (bind_ok _ _ _ _ _ (at_loc_get _ _ _ Hd)).
  by rewrite (bind_ok _ _ _ (fresh (dom h)) (<[fresh (dom h) := d]> h)).
Qed.

Lemma Rename_single data (h : gmap loc (gmap string value)) d o n v :
  h !! data = Some d → d !! o = Some v →
  Rename_call (mkRename [o] [n]) data h
    = (Ok (fresh (dom h)), <[fresh (dom h) := <[n := v]> (delete o d)]> h).
Proof.
  intros Hd Ho. rewrite (Rename_call_unfold _ _ _ _ Hd).
  cbn [Rename_old_names Rename_new_names zip_with for_each].
  do 2 rewrite bind_run. cbn [fst snd]. rewrite Rename_step, Ho. done.
Qed.

(** X4.  Renaming one name moves its value to the new name in the copy;
    when the first old name is not a key of the input, the call raises
    [KeyError] for it. *)
Theorem Rename_call_moves_value data (h : gmap loc (gmap string value)) d :
  h !! data = Some d →
  let new := fresh (dom h) in
  (∀ o n v, d !! o = Some v →
     Rename_call (mkRename [o] [n]) data h
       = (Ok new, <[new := <[n := v]> (delete o d)]> h))
  ∧ (∀ o n os ns, d !! o = None →
       Rename_call (mkRename (o :: os) (n :: ns)) data h
         = (Raise (KeyError o), <[new := d]> h)).
Proof.
  intros Hd new. split.
  - intros o n v Ho. by apply Rename_single.
  - intros o n os ns Ho. rewrite (Rename_call_unfold _ _ _ _ Hd).
    cbn [Rename_old_names Rename_new_names zip_with for_each].
    do 2 rewrite bind_run. cbn [fst snd]. rewrite Rename_step, Ho. done.
Qed.

(** X5.  The pairs are applied one after the other, not at once: renaming
    [a] to [b] and [b] to [a] does not swap the two fields.  The value of [a]
    ends under [a] again and the field [b], with the value it had, is gone. *)
Theorem Rename_call_is_sequential data (h : gmap loc (gmap string value)) d a b va vb :
  h !! data = Some d → a ≠ b → d !! a = Some va → d !! b = Some vb →
  ∃ dn, Rename_call (mkRename [a; b] [b; a]) data h
          = (Ok (fresh (dom h)), <[fresh (dom h) := dn]> h)
        ∧ dn !! a = Some va
        ∧ dn !! b = None
        ∧ ∀ k, k ≠ a → k ≠ b → dn !! k = d !! k.
Proof.
  intros Hd Hab Ha Hb. rewrite (Rename_call_unfold _ _ _ _ Hd).
  cbn [Rename_old_names Rename_new_names zip_with for_each].
  do 2 rewrite bind_run. cbn [fst snd]. rewrite Rename_step, Ha.
  rewrite bind_run. rewrite Rename_step, lookup_insert_eq.
  eexists. split; [done|]. split_and!.
  - by rewrite lookup_insert_eq.
  - rewrite lookup_insert_ne by done. by rewrite lookup_delete_eq.
  - intros k Hka Hkb.
    rewrite lookup_insert_ne, lookup_delete_ne, lookup_insert_ne, lookup_delete_ne by done.
    done.
Qed.

(** X6.  Renaming a field to a name the input does not have and then back
    gives a dict equal to the input, in a new object; the input object is
    still there, unchanged. *)
Theorem Rename_call_round_trip data (h : gmap loc (gmap string value)) d o n v :
  h !! data = Some d → d !! o = Some v → d !! n = None →
  ∃ l h',
    Compose_call [Rename_call (mkRename [o] [n]); Rename_call (mkRename [n] [o])] data h
      = (Ok l, h')
    ∧ l ≠ data ∧ h' !! l = Some d ∧ h' !! data = Some d.
Proof.
  intros Hd Ho Hn.
  pose proof (alloc_fresh h) as Hnew.
  set (new := fresh (dom h)) in *.
  set (d1 := <[n := v]> (delete o d)).
  set (h1 := <[new := d1]> h).
  assert (h1 !! new = Some d1) as Hd1 by apply lookup_insert_eq.
  pose proof (alloc_fresh h1) as Hnew2.
  set (new2 := fresh (dom h1)) in *.
  assert (new ≠ data) by (intros ->; congruence).
  assert (new2 ≠ data).
  { intros ->. unfold h1 in Hnew2. rewrite lookup_insert_ne in Hnew2 by done.
    congruence. }
  exists new2, (<[new2 := <[o := v]> (delete n d1)]> h1).
  split_and!; [|done| |].
  - cbn [Compose_call]. rewrite bind_run, (Rename_single _ _ _ _ _ _ Hd Ho).
    fold new d1 h1. rewrite bind_run.
    rewrite (Rename_single _ _ d1 n o v Hd1) by apply lookup_insert_eq. done.
  - rewrite lookup_insert_eq. f_equal. unfold d1.
    rewrite delete_insert_eq.
    rewrite (delete_id (delete o d)) by (by rewrite lookup_delete_ne by congruence).
    rewrite insert_delete_eq. by apply insert_id.
  - rewrite lookup_insert_ne by done. unfold h1. by rewrite lookup_insert_ne.
Qed.

(** X7.  Renaming [a] to [b] and then keeping only [b] leaves exactly one
    field, [b], bound to what [a] held; the input dict is unchanged. *)
Theorem Rename_then_Filter data (h : gmap loc (gmap string value)) d a b v :
  h !! data = Some d → d !! a = Some v →
  ∃ l h',
    Compose_call [Rename_call (mkRename [a] [b]); Filter_call (mkFilter (Some [b]) None)]
      data h = (Ok l, h')
    ∧ h' !! l = Some {[ b := v ]} ∧ h' !! data = Some d.
Proof.
  intros Hd Ha.
  pose proof (alloc_fresh h) as Hnew.
  set (new := fresh (dom h)) in *.
  set (d1 := <[b := v]> (delete a d)).
  set (h1 := <[new := d1]> h).
  assert (h1 !! new = Some d1) as Hd1 by apply lookup_insert_eq.
  pose proof (alloc_fresh h1) as Hnew2.
  assert (new ≠ data) by (intros ->; congruence).
  assert (fresh (dom h1) ≠ data).
  { intros E. rewrite E in Hnew2. unfold h1 in Hnew2.
    rewrite lookup_insert_ne in Hnew2 by done. congruence. }
  destruct (Filter_keep_loop h1 new (fresh (dom h1)) d1 [b] ∅ Hd1) as (dn & Hrun & Hdn).
  { intros E. rewrite <- E in Hnew2. congruence. }
  exists (fresh (dom h1)), (<[fresh (dom h1) := dn]> h1).
  split_and!.
  - cbn [Compose_call]. rewrite bind_run, (Rename_single _ _ _ _ _ _ Hd Ha).
    fold new d1 h1. rewrite bind_run.
    unfold Filter_call. cbn [Filter_keep_keys Filter_remove_keys].
    rewrite (bind_ok _ _ _ (fresh (dom h1)) (<[fresh (dom h1) := ∅]> h1)) by done.
    rewrite bind_run, Hrun. done.
  - rewrite lookup_insert_eq. f_equal. apply map_eq. intros k. rewrite Hdn.
    destruct (decide (k = b)) as [->|Hk].
    + rewrite decide_True by apply list_elem_of_here.
      unfold d1. by rewrite lookup_insert_eq, lookup_singleton_eq.
    + rewrite decide_False by (by intros ->%list_elem_of_singleton).
      by rewrite lookup_empty, lookup_singleton_ne.
  - rewrite lookup_insert_ne by done. unfold h1. by rewrite lookup_insert_ne.
Qed.

(** ** FixedLengthSequences: how the stride is inferred *)

(** X8.  With more than one offset and no stride yet, the stride stored on
    the instance is the gap between the first two offsets, computed in
    int64 (it wraps around), and it is stored before the offsets are
    checked: it is on the instance in every outcome.  When the gap is zero,
    or when the number of offsets times the gap does not fit int64, the
    expected offsets cannot be built and the call raises [RuntimeError].
    When the gap is not zero and the number of offsets plus one, times the
    gap, fits int64, the call returns exactly when the offsets are the
    multiples of the gap, and raises [AssertionError] otherwise. *)
Theorem FixedLengthSequences_first_batch_pins_stride
    key to_key sid w (d : gmap string value) m n offs payload o0 o1 :
  d !! key = Some (VDict m) →
  m !! sid = Some (VTuple (VTensor (TLong (Tensor [n] offs))) payload) →
  (1 < n)%nat → offs !! 0%nat = Some o0 → offs !! 1%nat = Some o1 →
  let e := wrap64 (o1 - o0) in
  let s0 := mkFixedLengthSequences [key] sid [to_key] None in
  let s1 := mkFixedLengthSequences [key] sid [to_key] (Some e) in
  let r := FixedLengthSequences_call (St w s0 d) in
  (int64 (o1 - o0) → e = o1 - o0)
  ∧ world r.2 = w ∧ self r.2 = s1
  ∧ (e = 0 ∨ ¬ int64 (Z.of_nat n * e) → r = (Raise RuntimeError, St w s1 d))
  ∧ (e ≠ 0 → int64 (Z.of_nat (S n) * e) →
     r = if decide (offs = (λ i : nat, Z.of_nat i * e) <$> seq 0 n)
         then (Ok tt, St w s1 (<[to_key := payload]> d))
         else (Raise AssertionError, St w s1 d)).
Proof.
  intros Hd Hm Hn H0 H1 e s0 s1 r.
  assert (r = match arange_stride n e with
              | None => (Raise RuntimeError, St w s1 d)
              | Some expected =>
                  if decide (offs = expected)
                  then (Ok tt, St w s1 (<[to_key := payload]> d))
                  else (Raise AssertionError, St w s1 d)
              end) as Hr.
  { subst r. unfold FixedLengthSequences_call, FixedLengthSequences_key. run.
    rewrite Hd. run. rewrite Hm. run. rewrite decide_True by done. run.
    rewrite H1. run. rewrite H0. run. fold e.
    destruct (arange_stride n e) as [expected|]; simpl; [|done].
    unfold bool_decide. destruct (decide_rel _ _ _) as [E|E]; simpl.
    - rewrite decide_True by done. done.
    - rewrite decide_False by done. done. }
  split_and!.
  - apply wrap64_int64.
  - rewrite Hr. by repeat case_match.
  - rewrite Hr. by repeat case_match.
  - intros Hbad. rewrite Hr. unfold arange_stride.
    destruct (decide (e = 0)) as [|He]; [done|].
    destruct Hbad as [|Hbad]; [done|]. rewrite decide_False; [done|].
    intros Hb. by apply Hbad, Hb.
  - intros He Hfit. rewrite Hr. unfold arange_stride.
    rewrite decide_False by done. rewrite decide_True; [done|].
    intros _. by apply int64_multiples.
Qed.

(** X9.  With a single offset and no stride yet, the stride is not read
    from the offsets: it is the first dimension of the payload's value
    tensor.  The call then returns whenever that size is non-zero and the
    offset is 0, whatever the sequence looks like, and that size becomes the
    stride of the instance. *)
Theorem FixedLengthSequences_single_sequence
    key to_key sid w (d : gmap string value) m o t presence (rows : nat) :
  d !! key = Some (VDict m) →
  m !! sid = Some (VTuple (VTensor (TLong (Tensor [1%nat] [o])))
                          (VTuple (VTensor t) presence)) →
  tt_shape t !! 0%nat = Some rows →
  let s0 := mkFixedLengthSequences [key] sid [to_key] None in
  let s1 := mkFixedLengthSequences [key] sid [to_key] (Some (Z.of_nat rows)) in
  FixedLengthSequences_call (St w s0 d) =
    if decide (rows = 0%nat) then (Raise RuntimeError, St w s1 d)
    else if decide (o = 0)
         then (Ok tt, St w s1 (<[to_key := VTuple (VTensor t) presence]> d))
         else (Raise AssertionError, St w s1 d).
Proof.
  intros Hd Hm Hrows s0 s1.
  unfold FixedLengthSequences_call, FixedLengthSequences_key. run.
  rewrite Hd. run. rewrite Hm. run. rewrite Hrows. run.
  unfold arange_stride.
  destruct (decide (rows = 0%nat)) as [->|Hr]; [done|].
  rewrite decide_False by lia. run.
  destruct (decide (o = 0)) as [->|Ho].
  - rewrite bool_decide_true by done. done.
  - rewrite bool_decide_false; [done|]. intros [=]. lia.
Qed.

(** ** OneHotActions: indices outside the range *)

Lemma foldr_max_ge (l : list Z) x : x ∈ l → x ≤ foldr Z.max 0 l.
Proof.
  induction l as [|y l IH]; [by intros ?%elem_of_nil|].
  intros [->|Hx]%elem_of_cons; simpl; [lia|]. apply IH in Hx. lia.
Qed.

(** X10.  An index below 0 or above [num_actions] is not encoded as
    anything: the call raises and the batch is left as it was. *)
Theorem OneHotActions_index_out_of_range
    k rest num_actions (d : gmap string value) t :
  d !! k = Some (VTensor (TLong t)) → wf t →
  Exists (λ x, x < 0 ∨ num_actions < x) (data t) →
  OneHotActions_call (OneHotActions_init (k :: rest) num_actions) d
    = (Raise RuntimeError, d).
Proof.
  intros Hd Hwf Hex. unfold OneHotActions_call. run. rewrite Hd. run.
  destruct (one_hot t (num_actions + 1)) as [h|] eqn:Hh; run; [|done].
  assert (num_actions < 0) as Hneg.
  { apply Exists_exists in Hex as (x & Hx & Hbad).
    unfold one_hot in Hh.
    destruct (decide (numel (shape t) = 0%nat)) as [Hz|_].
    { rewrite <- Hwf in Hz. destruct (data t); [by apply elem_of_nil in Hx|done]. }
    destruct (decide (Forall (λ x, 0 ≤ x) (data t))) as [Hall|]; [|done].
    pose proof (proj1 (Forall_forall _ _) Hall x Hx) as Hx0. simpl in Hx0.
    pose proof (foldr_max_ge _ _ Hx) as Hmax.
    destruct (decide (num_actions + 1 = -1)) as [|Hn1]; [lia|].
    rewrite decide_False in Hh by lia. done. }
  unfold arange. rewrite decide_False by lia. done.
Qed.

(** ** ColumnVector on a list *)

(** X11.  A list field becomes a numpy column of shape (n, 1), not a
    tensor; a second application finds a value that is neither tuple, list
    nor tensor and raises [NotImplementedError].  On list fields the
    transform cannot be applied twice. *)
Theorem ColumnVector_list_not_repeatable k (d : gmap string value) l :
  d !! k = Some (VList l) →
  let d1 := <[k := VNdarray (Tensor [length l; 1%nat] l)]> d in
  ColumnVector_call (ColumnVector_init [k]) d = (Ok tt, d1)
  ∧ ColumnVector_call (ColumnVector_init [k]) d1 = (Raise NotImplementedError, d1).
Proof.
  intros Hd d1. split.
  - unfold ColumnVector_call. run. rewrite Hd. run.
    change (Nat.divmod (length l * 1) 0 0 0).1 with (length l * 1 / 1)%nat.
    by rewrite Nat.div_1_r, Nat.mul_1_r.
  - unfold ColumnVector_call. run. unfold d1. rewrite lookup_insert_eq. by run.
Qed.

(** ** DenseNormalization: a missing field *)

(** X12.  A configured key that the batch lacks makes the call raise
    [KeyError]; the preprocessor has been constructed by then, and stays on
    the instance. *)
Theorem DenseNormalization_missing_key
    k rest normalization_data dev w (d : gmap string value) :
  d !! k = None →
  DenseNormalization_call
    (St w (mkDenseNormalization (k :: rest) normalization_data dev None) d)
  = (Raise (KeyError k),
     St (w ++ [NewPreprocessor])
        (mkDenseNormalization (k :: rest) normalization_data dev
           (Some (Preprocessor_init
                    (dense_normalization_parameters normalization_data) dev)))
        d).
Proof.
  intros Hd. unfold DenseNormalization_call, DenseNormalization_key. run.
  rewrite Hd. by run.
Qed.

(** ** SlateView *)

Lemma infer_shape_slate (B s dim : nat) :
  (0 < s)%nat → (0 < dim)%nat →
  infer_shape [-1; Z.of_nat s; Z.of_nat dim] (numel [(B * s)%nat; dim])
    = Some [B; s; dim].
Proof.
  intros Hs Hdim. unfold infer_shape.
  rewrite decide_True by (repeat (apply Forall_cons_2; [lia|]); apply Forall_nil_2).
  rewrite filter_cons_True by done.
  rewrite !filter_cons_False by lia. rewrite filter_nil.
  rewrite !filter_cons_True by lia. rewrite filter_nil.
  cbn [fmap list_fmap numel foldr]. rewrite !Nat2Z.id.
  rewrite decide_False by nia.
  replace (B * s * (dim * 1))%nat with (B * (s * (dim * 1)))%nat by lia.
  rewrite Nat.Div0.mod_mul. rewrite decide_True by done.
  rewrite Nat.div_mul by nia.
  rewrite decide_True by done. rewrite !decide_False by lia.
  done.
Qed.

Lemma infer_shape_slate_indivisible (n s dim : nat) :
  (0 < s)%nat → (0 < dim)%nat → (n mod s ≠ 0)%nat →
  infer_shape [-1; Z.of_nat s; Z.of_nat dim] (numel [n; dim]) = None.
Proof.
  intros Hs Hdim Hn. unfold infer_shape.
  rewrite decide_True by (repeat (apply Forall_cons_2; [lia|]); apply Forall_nil_2).
  rewrite filter_cons_True by done.
  rewrite !filter_cons_False by lia. rewrite filter_nil.
  rewrite !filter_cons_True by lia. rewrite filter_nil.
  cbn [fmap list_fmap numel foldr]. rewrite !Nat2Z.id.
  rewrite decide_False by nia.
  rewrite Nat.Div0.mul_mod_distr_r.
  rewrite decide_False by nia. done.
Qed.

(** X13.  On a (B * s, D) tensor with slate size [s], the call gives a
    (B, s, D) tensor whose slate [b] holds the rows [b * s .. b * s + s - 1]
    of the input, in order.  When the number of rows is not a multiple of
    the slate size the call raises and the batch is left as it was. *)
Theorem SlateView_call_regroups k (d : gmap string value) t (s dim : nat) :
  d !! k = Some (VTensor t) → (0 < s)%nat → (0 < dim)%nat →
  (∀ B, tt_shape t = [(B * s)%nat; dim] →
     ∃ r, SlateView_call (mkSlateView [k] (Some (Z.of_nat s))) d
            = (Ok tt, <[k := VTensor r]> d)
          ∧ tt_shape r = [B; s; dim]
          ∧ ∀ b i c, (b < B)%nat → (i < s)%nat → (c < dim)%nat →
              tt_get r [b; i; c] = tt_get t [(b * s + i)%nat; c])
  ∧ (∀ n, tt_shape t = [n; dim] → (n mod s ≠ 0)%nat →
       SlateView_call (mkSlateView [k] (Some (Z.of_nat s))) d
         = (Raise RuntimeError, d)).
Proof.
  intros Hd Hs Hdim. split.
  - intros B Hsh. exists (with_shape [B; s; dim] t). split; [|split].
    + unfold SlateView_call, SlateView_key. run. rewrite Hd. run. rewrite Hsh. run.
      assert (tt_reshape [-1; Z.of_nat s; Z.of_nat dim] t
              = Some (with_shape [B; s; dim] t)) as ->; [|done].
      destruct t as [t|t]; unfold tt_reshape, reshape; simpl in Hsh; rewrite Hsh;
        by rewrite infer_shape_slate.
    + by destruct t.
    + intros b i c Hb Hi Hc. unfold tt_get, tget.
      assert (offset [B; s; dim] [b; i; c] = offset [(B * s)%nat; dim] [(b * s + i)%nat; c])
        as Ho.
      { assert (b * s + i < B * s)%nat.
        { apply Nat.lt_le_trans with ((b + 1) * s)%nat; [lia|].
          apply Nat.mul_le_mono_r. lia. }
        unfold offset. cbn [length]. rewrite !decide_True by done.
        rewrite ?decide_True by in_range.
        simpl. f_equal. lia. }
      destruct t as [t|t]; simpl in *; rewrite Hsh, Ho; done.
  - intros n Hsh Hn.
    unfold SlateView_call, SlateView_key. run. rewrite Hd. run. rewrite Hsh. run.
    assert (tt_reshape [-1; Z.of_nat s; Z.of_nat dim] t = None) as ->; [|done].
    destruct t as [t|t]; unfold tt_reshape, reshape; simpl in Hsh; rewrite Hsh;
      by rewrite infer_shape_slate_indivisible.
Qed.

(** ** AppendConstant along the last dimension *)

Lemma tget_full {A} sh (x : A) ix :
  Forall2 (λ i n, i < n)%nat ix sh → tget (full sh x) ix = Some x.
Proof.
  intros [o Ho]%offset_is_Some. unfold tget, full. simpl. rewrite Ho. simpl.
  apply lookup_replicate_2. by eapply offset_lt.
Qed.

Lemma cat_last_dimension {A} (a b : tensor A) (d : nat) :
  ndim a = S d → shape a ≠ [0%nat] → cat [a; b] (-1) = cat [a; b] (Z.of_nat d).
Proof.
  intros Ha Hne. unfold cat. rewrite filter_cons_True by done.
  rewrite Ha, py_index_last, py_index_nat by lia. done.
Qed.

(** X14.  With [dim = -1] the transform puts one column holding the constant
    in front of the last dimension, whatever the rank of the tensor: the
    last dimension grows by one, index 0 holds the constant, and index
    [j + 1] holds what the input had at [j].  The result is a float
    tensor. *)
Theorem AppendConstant_last_dimension k (d : gmap string value) const value sh n :
  d !! k = Some (VTensor value) → tt_wf value →
  tt_shape value = sh ++ [n] → tt_shape value ≠ [0%nat] →
  ∃ r, AppendConstant_call (AppendConstant_init [k] (-1) const) d
         = (Ok tt, <[k := VTensor (TFloat r)]> d)
       ∧ shape r = sh ++ [S n]
       ∧ ∀ ix, Forall2 (λ i m, i < m)%nat ix sh →
           tget r (ix ++ [0%nat]) = Some (f_mul const f_one)
           ∧ ∀ j, (j < n)%nat → tget r (ix ++ [S j]) = tt_get value (ix ++ [j]).
Proof.
  intros Hd Hwf Hsh Hne.
  set (extra := full (sh ++ [1%nat]) (f_mul const f_one)).
  assert (all_but_last (tt_shape value) = sh) as Habl.
  { unfold all_but_last. rewrite Hsh, length_app. simpl.
    replace (length sh + 1 - 1)%nat with (length sh) by lia.
    by rewrite take_app_length. }
  assert (wf extra) as Hwfe by (unfold wf, extra, full; simpl; apply length_replicate).
  assert (shape extra ≠ [0%nat]) as Hnee.
  { unfold extra. simpl. by destruct sh as [|? [|? ?]]. }
  destruct (cat_pair_spec extra (to_float value) (length sh) 1 n)
    as (r & Hcat & Hshr & _ & Hget).
  { done. } { by apply to_float_wf. }
  { unfold extra. simpl. by rewrite list_lookup_middle. }
  { rewrite to_float_shape, Hsh. by rewrite list_lookup_middle. }
  { rewrite to_float_shape, Hsh. unfold extra. simpl.
    rewrite <- (Nat.add_0_r (length sh)). by rewrite !insert_app_r. }
  { done. } { by rewrite to_float_shape. }
  assert (shape r = sh ++ [S n]) as Hshr'.
  { rewrite Hshr. unfold extra. simpl.
    rewrite <- (Nat.add_0_r (length sh)). by rewrite insert_app_r. }
  exists r. split; [|split; [done|]].
  - unfold AppendConstant_call. run. rewrite Hd. run. rewrite Habl.
    unfold tt_cat. cbn [mapM as_long mbind option_bind fmap list_fmap to_float].
    fold extra. rewrite (cat_last_dimension _ _ (length sh)); [|
      unfold ndim, extra; simpl; rewrite length_app; simpl; lia | done].
    rewrite Hcat. by run.
  - intros ix Hix. pose proof (Forall2_length _ _ _ Hix) as Hlen.
    assert (shape extra !! length sh = Some 1%nat) as He
      by (unfold extra; simpl; by rewrite list_lookup_middle).
    assert (shape (to_float value) !! length sh = Some n) as Hv
      by (rewrite to_float_shape, Hsh; by rewrite list_lookup_middle).
    assert (∀ x, (ix ++ [x]) !! length sh = Some x) as Hl
      by (intros x; by rewrite list_lookup_middle).
    split.
    + rewrite Hget.
      2:{ rewrite Hshr'. apply Forall2_app; [done|]. in_range. }
      cbn [cat_get]. rewrite He. cbn [mbind option_bind].
      rewrite Hl. cbn [mbind option_bind].
      rewrite decide_True by lia. apply tget_full.
      apply Forall2_app; [done|]. in_range.
    + intros j Hj. rewrite Hget.
      2:{ rewrite Hshr'. apply Forall2_app; [done|]. in_range. }
      cbn [cat_get]. rewrite He. cbn [mbind option_bind].
      rewrite Hl. cbn [mbind option_bind].
      rewrite decide_False by lia.
      rewrite Hv. cbn [mbind option_bind].
      assert (<[length sh := (S j - 1)%nat]> (ix ++ [S j]) = ix ++ [j]) as ->.
      { rewrite <- Hlen, <- (Nat.add_0_r (length ix)), insert_app_r. simpl.
        do 2 f_equal. lia. }
      rewrite Hl. cbn [mbind option_bind].
      by rewrite decide_True by lia.
Qed.

(** ** ValuePresence *)

Lemma string_app_inj_r (s a b : string) : a +:+ s = b +:+ s → a = b.
Proof.
  revert b. induction a as [|c a IH]; intros [|c' b] H.
  - done.
  - apply (f_equal String.length) in H.
    rewrite !string_length_app in H. simpl in H. lia.
  - apply (f_equal String.length) in H.
    rewrite !string_length_app in H. simpl in H. lia.
  - change (String c a +:+ s) with (String c (a +:+ s)) in H.
    change (String c' b +:+ s) with (String c' (b +:+ s)) in H.
    injection H as -> H. f_equal. by apply IH.
Qed.

Lemma presence_key_inj k1 k2 : presence_key k1 = presence_key k2 → k1 = k2.
Proof. apply string_app_inj_r. Qed.

Lemma presence_key_ne k : presence_key k ≠ k.
Proof.
  intros H. apply (f_equal String.length) in H. unfold presence_key in H.
  rewrite string_length_app in H. simpl in H. lia.
Qed.

Lemma ValuePresence_cons_absent k ks (c : gmap string value) :
  c !! presence_key k = None →
  ValuePresence_call (k :: ks) c = ValuePresence_call ks c.
Proof.
  intros Hp. unfold ValuePresence_call. cbn [for_each]. run. rewrite Hp.
  rewrite bool_decide_false by (by intros [? ?]). done.
Qed.

Lemma ValuePresence_cons_present k ks (c : gmap string value) v p :
  c !! presence_key k = Some p → c !! k = Some v →
  ValuePresence_call (k :: ks) c
    = ValuePresence_call ks (delete (presence_key k) (<[k := VTuple v p]> c)).
Proof.
  intros Hp Hv. unfold ValuePresence_call. cbn [for_each]. run. rewrite Hp.
  rewrite bool_decide_true by done. run. rewrite Hv. run. rewrite Hp. run.
  rewrite lookup_insert_ne by (by intros ?%symmetry%presence_key_ne). rewrite Hp.
  done.
Qed.

Lemma ValuePresence_cons_missing k ks (c : gmap string value) p :
  c !! presence_key k = Some p → c !! k = None →
  ValuePresence_call (k :: ks) c = (Raise (KeyError k), c).
Proof.
  intros Hp Hv. unfold ValuePresence_call. cbn [for_each]. run. rewrite Hp.
  rewrite bool_decide_true by done. run. rewrite Hv. done.
Qed.

(** The state of the dict after the keys [done] have been visited. *)
Definition ValuePresence_visited (d : gmap string value) (done : list string)
    (c : gmap string value) : Prop :=
  (∀ k, d !! k = None → c !! k = None)
  ∧ (∀ i, i ∈ done → c !! presence_key i = None)
  ∧ (∀ k v p, k ∈ done → d !! k = Some v → d !! presence_key k = Some p →
       c !! k = Some (VTuple v p))
  ∧ (∀ k, k ∉ done ∨ d !! presence_key k = None →
       (∀ i, i ∈ done → presence_key i ≠ k) → c !! k = d !! k).

Lemma ValuePresence_loop (d : gmap string value) todo :
  (∀ k, is_Some (d !! presence_key k) →
        d !! presence_key (presence_key k) = None) →
  ∀ done c,
    NoDup (done ++ todo) → (∀ k, k ∈ todo → is_Some (d !! k)) →
    ValuePresence_visited d done c →
    ∃ c', ValuePresence_call todo c = (Ok tt, c')
          ∧ ValuePresence_visited d (done ++ todo) c'.
Proof.
  intros Hchain. induction todo as [|k0 todo IH]; intros done c Hnd Hin Hvis.
  { exists c. by rewrite app_nil_r. }
  assert (k0 ∉ done) as Hk0.
  { apply NoDup_app in Hnd as (_ & Hdis & _). intros Hk. apply (Hdis _ Hk). by left. }
  destruct (Hin k0) as [v Hv]; [by left|].
  destruct Hvis as (HA & HB & HC & HD).
  assert (∀ i, i ∈ done → presence_key i ≠ presence_key k0) as Hfresh.
  { intros i Hi ->%presence_key_inj. done. }
  replace (done ++ k0 :: todo) with ((done ++ [k0]) ++ todo) in *
    by (by rewrite <- app_assoc).
  destruct (d !! presence_key k0) as [p|] eqn:Hp.
  - assert (c !! presence_key k0 = Some p) as Hcp.
    { rewrite HD, Hp; [done| |done]. right. apply Hchain. by rewrite Hp. }
    assert (∀ i, presence_key i = k0 → False) as Hnot.
    { intros i Hi. specialize (Hchain i). rewrite Hi, Hv, Hp in Hchain.
      by specialize (Hchain ltac:(done)). }
    assert (c !! k0 = Some v) as Hcv.
    { rewrite HD, Hv; [done|by left|]. intros i _ Hi. by eapply Hnot. }
    rewrite (ValuePresence_cons_present _ _ _ _ _ Hcp Hcv).
    apply IH; [done|intros k Hk; apply Hin; by right|].
    split_and!.
    + intros k Hk. rewrite lookup_delete_None. right.
      rewrite lookup_insert_ne by congruence. by apply HA.
    + intros i [Hi| ->%list_elem_of_singleton]%elem_of_app.
      * rewrite lookup_delete_None. right.
        rewrite lookup_insert_ne by (intros Hi'; by eapply Hnot). by apply HB.
      * apply lookup_delete_eq.
    + intros k v' p' [Hk| ->%list_elem_of_singleton]%elem_of_app Hv' Hp'.
      * assert (k ≠ presence_key k0) as Hne.
        { intros ->. rewrite Hchain in Hp'; [done|]. by rewrite Hp. }
        rewrite lookup_delete_ne by done.
        rewrite lookup_insert_ne by congruence. by eapply HC.
      * rewrite lookup_delete_ne by apply presence_key_ne.
        rewrite lookup_insert_eq. congruence.
    + intros k Hk Hno.
      assert (k ≠ presence_key k0) as Hne.
      { intros ->. apply (Hno k0); [|done]. apply elem_of_app. right. by left. }
      assert (k ≠ k0) as Hne0.
      { intros ->. destruct Hk as [Hk|Hk]; [|congruence].
        apply Hk, elem_of_app. right. by left. }
      rewrite lookup_delete_ne by done. rewrite lookup_insert_ne by done.
      apply HD.
      * destruct Hk as [Hk|Hk]; [left|by right].
        intros Hd. apply Hk, elem_of_app. by left.
      * intros i Hi. apply Hno, elem_of_app. by left.
  - assert (c !! presence_key k0 = None) as Hcp by (by apply HA).
    rewrite (ValuePresence_cons_absent _ _ _ Hcp).
    apply IH; [done|intros k Hk; apply Hin; by right|].
    split_and!.
    + done.
    + intros i [Hi| ->%list_elem_of_singleton]%elem_of_app; [by apply HB|done].
    + intros k v' p' [Hk| ->%list_elem_of_singleton]%elem_of_app Hv' Hp';
        [by eapply HC|congruence].
    + intros k Hk Hno. apply HD.
      * destruct Hk as [Hk|Hk]; [left|by right].
        intros Hd. apply Hk, elem_of_app. by left.
      * intros i Hi. apply Hno, elem_of_app. by left.
Qed.

(** X15.  On a dict in which no presence field has a presence field of its
    own, whatever the order of the keys: the call returns; every field
    that has a presence sibling becomes the pair of the two; the presence
    sibling of every field is gone; every other field is as it was. *)
Theorem ValuePresence_call_pairs (d : gmap string value) keys :
  NoDup keys → (∀ k, k ∈ keys ↔ is_Some (d !! k)) →
  (∀ k, is_Some (d !! presence_key k) →
        d !! presence_key (presence_key k) = None) →
  ∃ d', ValuePresence_call keys d = (Ok tt, d')
        ∧ (∀ k v p, d !! k = Some v → d !! presence_key k = Some p →
             d' !! k = Some (VTuple v p))
        ∧ (∀ k, is_Some (d !! k) → d' !! presence_key k = None)
        ∧ (∀ k, d !! presence_key k = None →
             (∀ i, is_Some (d !! i) → presence_key i ≠ k) → d' !! k = d !! k).
Proof.
  intros Hnd Hkeys Hchain.
  destruct (ValuePresence_loop d keys Hchain [] d) as (d' & Hrun & HA & HB & HC & HD).
  { done. } { intros k Hk. by apply Hkeys. }
  { split_and!; [done|by intros i ?%elem_of_nil|by intros k v p ?%elem_of_nil|done]. }
  simpl in *. exists d'. split_and!.
  - done.
  - intros k v p Hv Hp. eapply HC; [|done|done]. apply Hkeys. by rewrite Hv.
  - intros k Hk. apply HB. by apply Hkeys.
  - intros k Hp Hno. apply HD; [by right|]. intros i Hi. apply Hno. by apply Hkeys.
Qed.

(** X16.  Where a presence field has a presence field of its own
    ([k], [k_presence], [k_presence_presence]) and [k] comes first in the
    dict, the call raises [KeyError]: visiting [k] removes [k_presence], and
    visiting [k_presence] then reads it.  The dict is left with [k] paired
    and [k_presence] removed. *)
Theorem ValuePresence_call_chain_raises (d : gmap string value) k rest v p q :
  d !! k = Some v → d !! presence_key k = Some p →
  d !! presence_key (presence_key k) = Some q →
  ValuePresence_call (k :: presence_key k :: rest) d
    = (Raise (KeyError (presence_key k)),
       delete (presence_key k) (<[k := VTuple v p]> d)).
Proof.
  intros Hv Hp Hq.
  rewrite (ValuePresence_cons_present _ _ _ _ _ Hp Hv).
  apply (ValuePresence_cons_missing _ _ _ q).
  - rewrite lookup_delete_ne by (intros Hk; symmetry in Hk; by apply presence_key_ne in Hk).
    rewrite lookup_insert_ne; [done|].
    intros Hk. apply (f_equal String.length) in Hk. unfold presence_key in Hk.
    rewrite !string_length_app in Hk. simpl in Hk. lia.
  - apply lookup_delete_eq.
Qed.

(** ** Lambda *)

Lemma Lambda_call_cons k ks fn (d : gmap string value) :
  Lambda_call (mkLambda (k :: ks) fn) d =
    match d !! k with
    | None => (Raise (KeyError k), d)
    | Some v =>
        match fn v with
        | Ok r => Lambda_call (mkLambda ks fn) (<[k := r]> d)
        | Raise e => (Raise e, d)
        end
    end.
Proof.
  unfold Lambda_call. cbn [Lambda_keys Lambda_fn for_each]. run.
  destruct (d !! k) as [v|]; run; [|done]. by destruct (fn v); run.
Qed.

Lemma Lambda_call_inv keys fn (d d' : gmap string value) :
  NoDup keys → Lambda_call (mkLambda keys fn) d = (Ok tt, d') →
  (∀ k, k ∈ keys → ∃ v r, d !! k = Some v ∧ fn v = Ok r ∧ d' !! k = Some r)
  ∧ (∀ k, k ∉ keys → d' !! k = d !! k).
Proof.
  intros Hnd. revert d. induction Hnd as [|k ks Hk Hnd IH]; intros d.
  { intros [= ->]. split; [by intros k ?%elem_of_nil|done]. }
  rewrite Lambda_call_cons.
  destruct (d !! k) as [v|] eqn:Hv; [|done].
  destruct (fn v) as [r|e] eqn:Hr; [|done].
  intros [Hin Hout]%IH. split.
  - intros k' [->|Hk']%elem_of_cons.
    + exists v, r. split_and!; [done|done|].
      by rewrite Hout, lookup_insert_eq.
    + destruct (Hin k' Hk') as (v' & r' & Hv' & Hr' & Hd').
      rewrite lookup_insert_ne in Hv' by (by intros ->). by exists v', r'.
  - intros k' [Hne Hk']%not_elem_of_cons.
    by rewrite Hout, lookup_insert_ne.
Qed.

Lemma Lambda_call_intro keys fn (d d' : gmap string value) :
  NoDup keys →
  (∀ k, k ∈ keys → ∃ v r, d !! k = Some v ∧ fn v = Ok r ∧ d' !! k = Some r) →
  (∀ k, k ∉ keys → d' !! k = d !! k) →
  Lambda_call (mkLambda keys fn) d = (Ok tt, d').
Proof.
  intros Hnd. revert d. induction Hnd as [|k ks Hk Hnd IH]; intros d Hin Hout.
  { unfold Lambda_call. simpl. f_equal. apply map_eq. intros k. symmetry.
    apply Hout. by intros ?%elem_of_nil. }
  rewrite Lambda_call_cons.
  destruct (Hin k) as (v & r & -> & -> & Hd'); [by left|].
  apply IH.
  - intros k' Hk'. destruct (Hin k') as (v' & r' & Hv' & Hr' & Hd''); [by right|].
    exists v', r'. by rewrite lookup_insert_ne by (by intros ->).
  - intros k' Hk'. destruct (decide (k' = k)) as [->|Hne].
    + by rewrite lookup_insert_eq.
    + rewrite lookup_insert_ne by done. apply Hout. by intros [?|?]%elem_of_cons.
Qed.

(** X17.  Over distinct keys, the call returns exactly when every key is
    in the dict and [fn] returns on its value; the result then holds, at
    each of the keys, [fn] of what this key held at the start, and is the
    dict of the start everywhere else. *)
Theorem Lambda_call_pointwise keys fn (d d' : gmap string value) :
  NoDup keys →
  Lambda_call (mkLambda keys fn) d = (Ok tt, d') ↔
    (∀ k, k ∈ keys → ∃ v r, d !! k = Some v ∧ fn v = Ok r ∧ d' !! k = Some r)
    ∧ (∀ k, k ∉ keys → d' !! k = d !! k).
Proof.
  intros Hnd. split.
  - by apply Lambda_call_inv.
  - intros [Hin Hout]. by apply Lambda_call_intro.
Qed.

(** X18.  Over distinct keys, two passes with [f] and then [g] return
    exactly when one pass with the composition of [f] and [g] does, and
    they return the same dict. *)
Theorem Lambda_call_fuses keys f g (d d' : gmap string value) :
  NoDup keys →
  (Lambda_call (mkLambda keys f) ≫= λ _, Lambda_call (mkLambda keys g)) d
    = (Ok tt, d')
  ↔ Lambda_call (mkLambda keys (λ v, f v ≫= g)) d = (Ok tt, d').
Proof.
  intros Hnd. split.
  - intros [([] & d1 & H1 & H2)|(e & _ & [=])]%bind_inv.
    apply Lambda_call_inv in H1 as [Hin1 Hout1]; [|done].
    apply Lambda_call_inv in H2 as [Hin2 Hout2]; [|done].
    apply Lambda_call_intro; [done| |].
    + intros k Hk.
      destruct (Hin1 k Hk) as (v & r & Hv & Hr & Hd1).
      destruct (Hin2 k Hk) as (v' & r' & Hv' & Hr' & Hd').
      exists v, r'. rewrite Hr. simpl. split_and!; [done| |done]. congruence.
    + intros k Hk. by rewrite Hout2, Hout1.
  - intros [Hin Hout]%Lambda_call_inv; [|done].
    destruct (for_each_per_key
                (λ k, v ← getitem k; r ← of_outcome (f v); setitem k r)
                (λ _ v r, f v = Ok r) keys d Hnd) as (d1 & H1 & Hin1 & Hout1).
    { intros k Hk. destruct (Hin k Hk) as (v & r' & Hv & Hr' & _).
      exists v. split; [done|]. intros c Hc.
      destruct (f v) as [r|e] eqn:Hr; [|done].
      exists r. split; [done|]. run. rewrite Hc. run. by rewrite Hr. }
    rewrite bind_run. unfold Lambda_call at 1. cbn [Lambda_keys Lambda_fn].
    rewrite H1. apply Lambda_call_intro; [done| |].
    + intros k Hk.
      destruct (Hin k Hk) as (v & r' & Hv & Hr' & Hd').
      destruct (Hin1 k Hk) as (v1 & r & Hv1 & Hd1 & Hr).
      assert (v1 = v) as -> by congruence. rewrite Hr in Hr'.
      by exists r, r'.
    + intros k Hk. by rewrite Hout, Hout1.
Qed.

(** ** MaskByPresence *)

Lemma mask_mul_get value presence ix :
  tt_shape value = tt_shape presence →
  tt_get (mask_mul value presence) ix
    = (a ← tt_get value ix; b ← tt_get presence ix; Some (f_mul a b)).
Proof.
  intros Hsh. unfold tt_get, mask_mul, tget. cbn [to_float shape data].
  rewrite !to_float_shape, <- Hsh.
  destruct (offset (tt_shape value) ix) as [o|]; simpl; [|done].
  by rewrite lookup_zip_with.
Qed.

(** X19.  Over distinct keys that each hold a (value, presence) pair of
    tensors of one shape, the call replaces each pair by one float tensor
    of that shape whose entries are value times presence, and touches no
    other field.  The fields are then no longer pairs: calling the
    transform again on the result raises [AssertionError] and changes
    nothing. *)
Theorem MaskByPresence_call_masks keys (d : gmap string value) :
  NoDup keys →
  (∀ k, k ∈ keys → ∃ value presence,
     d !! k = Some (VTuple (VTensor value) (VTensor presence))
     ∧ tt_shape value = tt_shape presence) →
  ∃ d', MaskByPresence_call (mkMaskByPresence keys) d = (Ok tt, d')
        ∧ (∀ k, k ∈ keys → ∃ value presence r,
             d !! k = Some (VTuple (VTensor value) (VTensor presence))
             ∧ d' !! k = Some (VTensor (TFloat r))
             ∧ shape r = tt_shape value
             ∧ ∀ ix, tget r ix
                 = (a ← tt_get value ix; b ← tt_get presence ix; Some (f_mul a b)))
        ∧ (∀ k, k ∉ keys → d' !! k = d !! k)
        ∧ (∀ k rest, keys = k :: rest →
             MaskByPresence_call (mkMaskByPresence keys) d'
               = (Raise AssertionError, d')).
Proof.
  intros Hnd Hkeys.
  destruct (for_each_per_key
    (λ k, value_presence ← getitem k;
          match value_presence with
          | VTuple value presence =>
              match value, presence with
              | VTensor value, VTensor presence =>
                  py_assert (bool_decide (tt_shape value = tt_shape presence));;
                  setitem k (VTensor (mask_mul value presence))
              | _, _ => raise AttributeError
              end
          | _ => raise AssertionError
          end)
    (λ _ v v', ∃ value presence,
       v = VTuple (VTensor value) (VTensor presence)
       ∧ tt_shape value = tt_shape presence
       ∧ v' = VTensor (mask_mul value presence))
    keys d Hnd) as (d' & Hrun & Hin & Hout).
  { intros k Hk. destruct (Hkeys k Hk) as (value & presence & Hv & Hsh).
    eexists. split; [done|]. intros c Hc.
    exists (VTensor (mask_mul value presence)). split; [by exists value, presence|].
    run. rewrite Hc. run. rewrite bool_decide_true by done. done. }
  exists d'. split_and!.
  - done.
  - intros k Hk.
    destruct (Hin k Hk) as (v & v' & Hv & Hv' & value & presence & -> & Hsh & ->).
    exists value, presence, (Tensor (tt_shape value)
      (zip_with f_mul (data (to_float value)) (data (to_float presence)))).
    split_and!; [done|done|done|].
    intros ix. by apply (mask_mul_get value presence ix).
  - done.
  - intros k rest ->.
    destruct (Hin k ltac:(by left))
      as (v & v' & Hv & Hv' & value & presence & -> & Hsh & ->).
    unfold MaskByPresence_call. cbn [MaskByPresence_keys for_each]. run.
    rewrite Hv'. done.
Qed.

(** ** UnsqueezeRepeat *)

Lemma numel_app sh1 sh2 : numel (sh1 ++ sh2) = (numel sh1 * numel sh2)%nat.
Proof. induction sh1 as [|n sh1 IH]; simpl; [lia|]. rewrite IH. lia. Qed.

Lemma offset_unsqueeze s1 s2 i1 i2 :
  length i1 = length s1 →
  offset (s1 ++ 1%nat :: s2) (i1 ++ 0%nat :: i2) = offset (s1 ++ s2) (i1 ++ i2).
Proof.
  revert i1. induction s1 as [|n s1 IH]; intros [|i i1] Hlen; simplify_eq/=.
  - by destruct (offset s2 i2).
  - rewrite IH by done. rewrite !numel_app.
    change (numel (1%nat :: s2)) with (1 * numel s2)%nat. by rewrite Nat.mul_1_l.
Qed.

Lemma zip_with_mul_ones (l : list nat) :
  zip_with (λ n c, n * Z.to_nat c)%nat l (replicate (length l) 1) = l.
Proof. induction l as [|n l IH]; simpl; [done|]. rewrite IH. f_equal. lia. Qed.

Lemma repeat_shape (sh : list nat) p r :
  (p ≤ length sh)%nat →
  zip_with (λ n c, n * Z.to_nat c)%nat (take p sh ++ 1%nat :: drop p sh)
           (<[p := r]> (replicate (S (length sh)) 1))
    = take p sh ++ Z.to_nat r :: drop p sh.
Proof.
  intros Hp. rewrite insert_replicate_lt by lia.
  rewrite zip_with_app by (by rewrite length_take, length_replicate; lia).
  cbn [zip_with]. f_equal.
  - rewrite <- (zip_with_mul_ones (take p sh)) at 2.
    by rewrite length_take, Nat.min_l.
  - rewrite Nat.mul_1_l. f_equal.
    rewrite <- (zip_with_mul_ones (drop p sh)) at 2.
    rewrite length_drop. by replace (S (length sh) - S p)%nat with (length sh - p)%nat by lia.
Qed.

Lemma Forall2_mod_in_range (sh : list nat) (cs : list Z) ix :
  Forall2 (λ i n, i < n)%nat ix (zip_with (λ n c, n * Z.to_nat c)%nat sh cs) →
  length cs = length sh →
  Forall2 (λ i n, i < n)%nat (zip_with (λ i n, i mod n)%nat ix sh) sh.
Proof.
  revert cs ix. induction sh as [|n sh IH]; intros [|c cs] ix Hix Hlen; simplify_eq/=.
  { apply Forall2_nil_inv_r in Hix as ->. by apply Forall2_nil. }
  apply Forall2_cons_inv_r in Hix as (i & ix' & Hi & Hix' & ->).
  simpl. apply Forall2_cons. split.
  - apply Nat.mod_upper_bound. lia.
  - by eapply IH.
Qed.

Lemma zip_with_mod_small ix sh :
  Forall2 (λ i n, i < n)%nat ix sh → zip_with (λ i n, i mod n)%nat ix sh = ix.
Proof.
  induction 1 as [|i n ix sh Hi _ IH]; simpl; [done|].
  rewrite IH. f_equal. by apply Nat.mod_small.
Qed.

Lemma unsqueeze_repeat_spec {A} (t : tensor A) (p : nat) (r : Z) :
  wf t → (p ≤ ndim t)%nat → 0 ≤ r →
  ∃ u res,
    unsqueeze (Z.of_nat p) t = Some u
    ∧ shape u = take p (shape t) ++ 1%nat :: drop p (shape t)
    ∧ (∀ i1 i2, length i1 = p → tget u (i1 ++ 0%nat :: i2) = tget t (i1 ++ i2))
    ∧ tensor_repeat (<[p := r]> (replicate (ndim u) 1)) u = Some res
    ∧ shape res = take p (shape t) ++ Z.to_nat r :: drop p (shape t)
    ∧ ∀ i1 j i2,
        Forall2 (λ i n, i < n)%nat i1 (take p (shape t)) → (j < Z.to_nat r)%nat →
        Forall2 (λ i n, i < n)%nat i2 (drop p (shape t)) →
        tget res (i1 ++ j :: i2) = tget t (i1 ++ i2).
Proof.
  intros Hwf Hp Hr. unfold ndim in Hp.
  set (u := Tensor (take p (shape t) ++ 1%nat :: drop p (shape t)) (data t)).
  assert (unsqueeze (Z.of_nat p) t = Some u) as Hu.
  { unfold unsqueeze. rewrite py_index_nat by (unfold ndim; lia). done. }
  assert (ndim u = S (length (shape t))) as Hnd.
  { unfold ndim, u. cbn [shape]. rewrite length_app, length_take. simpl.
    rewrite length_drop. lia. }
  assert (∀ i1 i2, length i1 = p → tget u (i1 ++ 0%nat :: i2) = tget t (i1 ++ i2))
    as Hget.
  { intros i1 i2 Hlen. unfold tget, u. cbn [shape data].
    rewrite offset_unsqueeze by (rewrite length_take; lia).
    by rewrite take_drop. }
  assert (wf u) as Hwfu.
  { unfold wf, u. cbn [shape data]. rewrite Hwf.
    rewrite <- (take_drop p (shape t)) at 1. rewrite !numel_app. simpl. lia. }
  assert (zip_with (λ n c, n * Z.to_nat c)%nat (shape u)
            (<[p := r]> (replicate (ndim u) 1))
          = take p (shape t) ++ Z.to_nat r :: drop p (shape t)) as Hsh.
  { rewrite Hnd. unfold u. cbn [shape]. by apply repeat_shape. }
  assert (is_Some (tensor_repeat (<[p := r]> (replicate (ndim u) 1)) u)) as [res Hres].
  { unfold tensor_repeat. rewrite decide_True.
    - apply tabulate_is_Some. intros ix Hix%offset_is_Some.
      apply tget_is_Some; [done|]. apply offset_is_Some.
      eapply Forall2_mod_in_range; [done|].
      by rewrite length_insert, length_replicate.
    - split; [by rewrite length_insert, length_replicate|].
      apply Forall_forall. intros c Hc.
      apply list_elem_of_lookup in Hc as [i Hi].
      destruct (decide (i = p)) as [->|Hne].
      + rewrite list_lookup_insert_eq in Hi by (rewrite length_replicate; lia).
        by simplify_eq.
      + rewrite list_lookup_insert_ne in Hi by done.
        apply lookup_replicate_1 in Hi as [-> _]. lia. }
  exists u, res. split_and!; [done|done|done|done| |].
  - unfold tensor_repeat in Hres. case_decide; [|done].
    apply tabulate_shape in Hres. by rewrite Hres.
  - intros i1 j i2 Hi1 Hj Hi2.
    unfold tensor_repeat in Hres. case_decide; [|done].
    rewrite (tabulate_get _ _ _ _ Hres).
    2:{ apply offset_is_Some. rewrite Hsh. apply Forall2_app; [done|].
        apply Forall2_cons. by split. }
    pose proof (Forall2_length _ _ _ Hi1) as Hlen1.
    rewrite length_take in Hlen1.
    change (shape u) with (take p (shape t) ++ 1%nat :: drop p (shape t)).
    rewrite zip_with_app by (by rewrite length_take; lia).
    cbn [zip_with]. rewrite Nat.mod_1_r.
    rewrite !zip_with_mod_small by done.
    apply Hget. lia.
Qed.

Lemma tt_unsqueeze_repeat_spec t (p : nat) (r : Z) :
  tt_wf t → (p ≤ tt_ndim t)%nat → 0 ≤ r →
  ∃ u res,
    tt_unsqueeze (Z.of_nat p) t = Some u
    ∧ tt_shape u = take p (tt_shape t) ++ 1%nat :: drop p (tt_shape t)
    ∧ (∀ i1 i2, length i1 = p → tt_get u (i1 ++ 0%nat :: i2) = tt_get t (i1 ++ i2))
    ∧ tt_repeat (<[p := r]> (replicate (tt_ndim u) 1)) u = Some res
    ∧ tt_shape res = take p (tt_shape t) ++ Z.to_nat r :: drop p (tt_shape t)
    ∧ ∀ i1 j i2,
        Forall2 (λ i n, i < n)%nat i1 (take p (tt_shape t)) → (j < Z.to_nat r)%nat →
        Forall2 (λ i n, i < n)%nat i2 (drop p (tt_shape t)) →
        tt_get res (i1 ++ j :: i2) = tt_get t (i1 ++ i2).
Proof.
  intros Hwf Hp Hr. destruct t as [t|t]; simpl in *.
  - destruct (unsqueeze_repeat_spec t p r Hwf Hp Hr)
      as (u & res & Hu & Hshu & Hgetu & Hres & Hshr & Hget).
    exists (TLong u), (TLong res). unfold tt_get, tt_ndim. simpl.
    rewrite Hu. fold (ndim u). rewrite Hres. split_and!; try done.
    + intros i1 i2 Hlen. by rewrite !tget_tmap, Hgetu.
    + intros i1 j i2 H1 Hj H2. by rewrite !tget_tmap, Hget.
  - destruct (unsqueeze_repeat_spec t p r Hwf Hp Hr)
      as (u & res & Hu & Hshu & Hgetu & Hres & Hshr & Hget).
    exists (TFloat u), (TFloat res). unfold tt_get, tt_ndim. simpl.
    rewrite Hu. fold (ndim u). rewrite Hres. by split_and!.
Qed.

(** X20.  With a position [p] inside the tensor's rank and a count
    [r >= 0], the field gets a new dimension of size [r] at position [p];
    every slice along it is the original tensor.  With [r = 1] this is a
    plain unsqueeze, with [r = 0] an empty tensor. *)
Theorem UnsqueezeRepeat_call_repeats k (d : gmap string value) t (p : nat) (r : Z) :
  d !! k = Some (VTensor t) → tt_wf t → (p ≤ tt_ndim t)%nat → 0 ≤ r →
  ∃ res, UnsqueezeRepeat_call (mkUnsqueezeRepeat [k] (Z.of_nat p) r) d
           = (Ok tt, <[k := VTensor res]> d)
         ∧ tt_shape res = take p (tt_shape t) ++ Z.to_nat r :: drop p (tt_shape t)
         ∧ ∀ i1 j i2,
             Forall2 (λ i n, i < n)%nat i1 (take p (tt_shape t)) →
             (j < Z.to_nat r)%nat →
             Forall2 (λ i n, i < n)%nat i2 (drop p (tt_shape t)) →
             tt_get res (i1 ++ j :: i2) = tt_get t (i1 ++ i2).
Proof.
  intros Hd Hwf Hp Hr.
  destruct (tt_unsqueeze_repeat_spec t p r Hwf Hp Hr)
    as (u & res & Hu & Hshu & Hgetu & Hres & Hshr & Hget).
  assert (tt_ndim u = S (tt_ndim t)) as Hnd.
  { unfold tt_ndim. rewrite Hshu, length_app, length_take. simpl.
    rewrite length_drop. unfold tt_ndim in Hp. lia. }
  destruct (decide (r = 1)) as [->|Hr1].
  - exists u. split_and!.
    + unfold UnsqueezeRepeat_call.
      cbn [UnsqueezeRepeat_keys UnsqueezeRepeat_dim UnsqueezeRepeat_num_repeat for_each].
      destruct (decide (1 ≠ 1)) as [?|_]; [done|].
      run. rewrite Hd. run. rewrite Hu. by run.
    + by rewrite Hshu.
    + intros i1 j i2 H1 Hj H2. assert (j = 0%nat) as -> by lia.
      apply Hgetu. apply Forall2_length in H1. rewrite length_take in H1.
      unfold tt_ndim in Hp. lia.
  - exists res. split_and!; [|done|done].
    unfold UnsqueezeRepeat_call.
    cbn [UnsqueezeRepeat_keys UnsqueezeRepeat_dim UnsqueezeRepeat_num_repeat for_each].
    destruct (decide (r ≠ 1)) as [_|?]; [|done].
    run. rewrite Hd. run. rewrite Hu. run.
    rewrite py_index_nat by lia. run. rewrite Hres. run.
    by rewrite insert_insert_eq.
Qed.

(** X21.  With a negative count the call raises, after the field has been
    replaced by the unsqueezed tensor: the dict is not left as it was. *)
Theorem UnsqueezeRepeat_negative_count k (d : gmap string value) t (p : nat) (r : Z) :
  d !! k = Some (VTensor t) → (p ≤ tt_ndim t)%nat → r < 0 →
  ∃ u, UnsqueezeRepeat_call (mkUnsqueezeRepeat [k] (Z.of_nat p) r) d
         = (Raise RuntimeError, <[k := VTensor u]> d)
       ∧ tt_shape u = take p (tt_shape t) ++ 1%nat :: drop p (tt_shape t).
Proof.
  intros Hd Hp Hr.
  assert (∃ u, tt_unsqueeze (Z.of_nat p) t = Some u
               ∧ tt_shape u = take p (tt_shape t) ++ 1%nat :: drop p (tt_shape t)
               ∧ tt_repeat (<[p := r]> (replicate (tt_ndim u) 1)) u = None)
    as (u & Hu & Hshu & Hrep).
  { assert (∀ A (t : tensor A), (p ≤ ndim t)%nat →
      ∃ u, unsqueeze (Z.of_nat p) t = Some u
           ∧ shape u = take p (shape t) ++ 1%nat :: drop p (shape t)
           ∧ tensor_repeat (<[p := r]> (replicate (ndim u) 1)) u = None) as Hgen.
    { intros A t' Hp'. eexists. split_and!.
      - unfold unsqueeze. rewrite py_index_nat by lia. done.
      - done.
      - unfold tensor_repeat. rewrite decide_False; [done|].
        intros [_ Hall]. rewrite Forall_forall in Hall.
        assert (0 ≤ r); [|lia]. apply Hall. apply list_elem_of_lookup. exists p.
        apply list_lookup_insert_eq. rewrite length_replicate. unfold ndim. simpl.
        rewrite length_app, length_take. simpl. unfold ndim in Hp'. lia. }
    destruct t as [t|t]; simpl in *.
    - destruct (Hgen _ t Hp) as (u & Hu & Hshu & Hrep).
      exists (TLong u). unfold tt_ndim. simpl. rewrite Hu. fold (ndim u).
      by rewrite Hrep.
    - destruct (Hgen _ t Hp) as (u & Hu & Hshu & Hrep).
      exists (TFloat u). unfold tt_ndim. simpl. rewrite Hu. fold (ndim u).
      by rewrite Hrep. }
  assert (tt_ndim u = S (tt_ndim t)) as Hnd.
  { unfold tt_ndim. rewrite Hshu, length_app, length_take. simpl.
    rewrite length_drop. unfold tt_ndim in Hp. lia. }
  exists u. split; [|done].
  unfold UnsqueezeRepeat_call.
  cbn [UnsqueezeRepeat_keys UnsqueezeRepeat_dim UnsqueezeRepeat_num_repeat for_each].
  destruct (decide (r ≠ 1)) as [_|?]; [|lia].
  run. rewrite Hd. run. rewrite Hu. run.
  rewrite py_index_nat by lia. run. rewrite Hrep. done.
Qed.

(** ** SelectValuePresenceColumns *)

Lemma py_index_wrap (n : nat) (i : Z) :
  - Z.of_nat n ≤ i < Z.of_nat n →
  py_index n i = Some (Z.to_nat (i mod Z.of_nat n)) ∧ (Z.to_nat (i mod Z.of_nat n) < n)%nat.
Proof.
  intros Hi. pose proof (Z.mod_pos_bound i (Z.of_nat n) ltac:(lia)) as Hm.
  split; [|lia]. unfold py_index. destruct (decide (0 ≤ i < Z.of_nat n)) as [Hpos|Hneg].
  - by rewrite Z.mod_small.
  - rewrite decide_True by lia. f_equal. f_equal.
    rewrite <- (Z_mod_plus_full i 1 (Z.of_nat n)). rewrite Z.mod_small; lia.
Qed.

Lemma py_index_None (n : nat) (i : Z) :
  ¬ (- Z.of_nat n ≤ i < Z.of_nat n) → py_index n i = None.
Proof.
  intros Hi. unfold py_index. rewrite decide_False by lia. by rewrite decide_False by lia.
Qed.

Lemma select_columns_spec {A} (t : tensor A) (B n : nat) (indices : list Z) :
  wf t → shape t = [B; n] →
  Forall (λ i, - Z.of_nat n ≤ i < Z.of_nat n) indices →
  ∃ r, select_columns indices t = Some r
       ∧ shape r = [B; length indices]
       ∧ ∀ b j i, (b < B)%nat → indices !! j = Some i →
           tget r [b; j] = tget t [b; Z.to_nat (i mod Z.of_nat n)].
Proof.
  intros Hwf Hsh Hall.
  set (index := (λ i, Z.to_nat (i mod Z.of_nat n)) <$> indices).
  assert (mapM (py_index n) indices = Some index) as Hmap.
  { apply mapM_Some. unfold index. apply Forall2_fmap_r, Forall_Forall2_diag.
    eapply Forall_impl; [done|]. intros i Hi. by apply py_index_wrap. }
  assert (Forall (λ k, k < n)%nat index) as Hlt.
  { unfold index. apply Forall_fmap. eapply Forall_impl; [done|].
    intros i Hi. by apply py_index_wrap. }
  assert (length index = length indices) as Hlen by (unfold index; by rewrite length_fmap).
  unfold select_columns. rewrite Hsh, Hmap. cbn [mbind option_bind].
  unfold index_select, ndim. rewrite Hsh. cbn [length].
  change (py_index 2 1) with (Some 1%nat). cbn [mbind option_bind lookup list_lookup].
  rewrite decide_True by done. cbn [insert list_insert]. rewrite Hlen.
  match goal with
  | |- ∃ r, tabulate ?sh ?f = Some r ∧ _ =>
      assert (is_Some (tabulate sh f)) as [r Hr]
  end.
  { apply tabulate_is_Some. intros ix Hix%offset_is_Some.
    apply Forall2_cons_inv_r in Hix as (b & ix1 & Hb & Hix & ->).
    apply Forall2_cons_inv_r in Hix as (j & ix2 & Hj & Hix & ->).
    apply Forall2_nil_inv_r in Hix as ->. cbn [lookup list_lookup mbind option_bind].
    destruct (lookup_lt_is_Some_2 index j ltac:(lia)) as [c Hc].
    rewrite Hc. cbn [mbind option_bind insert list_insert].
    apply tget_is_Some; [done|]. rewrite Hsh. apply offset_is_Some.
    pose proof (proj1 (Forall_lookup _ _) Hlt j c Hc) as Hcn. simpl in Hcn. in_range. }
  exists r. split_and!; [done|by eapply tabulate_shape|].
  intros b j i Hb Hi.
  rewrite (tabulate_get _ _ _ _ Hr).
  2:{ apply offset_is_Some. apply lookup_lt_Some in Hi. in_range. }
  cbn [lookup list_lookup mbind option_bind].
  unfold index. rewrite list_lookup_fmap, Hi. done.
Qed.

Lemma select_columns_out_of_range {A} (t : tensor A) (B n : nat) (indices : list Z) :
  shape t = [B; n] →
  Exists (λ i, ¬ (- Z.of_nat n ≤ i < Z.of_nat n)) indices →
  select_columns indices t = None.
Proof.
  intros Hsh Hex. unfold select_columns. rewrite Hsh.
  rewrite (mapM_None_2 (py_index n)); [done|].
  eapply Exists_impl; [done|]. intros i Hi. by apply py_index_None.
Qed.

Lemma tt_select_columns_spec t (B n : nat) (indices : list Z) :
  tt_wf t → tt_shape t = [B; n] →
  Forall (λ i, - Z.of_nat n ≤ i < Z.of_nat n) indices →
  ∃ r, tt_select_columns indices t = Some r
       ∧ tt_shape r = [B; length indices]
       ∧ ∀ b j i, (b < B)%nat → indices !! j = Some i →
           tt_get r [b; j] = tt_get t [b; Z.to_nat (i mod Z.of_nat n)].
Proof.
  intros Hwf Hsh Hall. destruct t as [t|t]; simpl in *.
  - destruct (select_columns_spec t B n indices Hwf Hsh Hall) as (r & -> & Hshr & Hget).
    exists (TLong r). split_and!; [done|done|].
    intros b j i Hb Hi. unfold tt_get. simpl. rewrite !tget_tmap. f_equal. eauto.
  - destruct (select_columns_spec t B n indices Hwf Hsh Hall) as (r & -> & Hshr & Hget).
    exists (TFloat r). split_and!; [done|done|]. intros b j i Hb Hi. unfold tt_get. eauto.
Qed.

(** X22.  For a (value, presence) pair of (B, n) tensors under [source]:
    when every index lies in [-n, n), [dest] receives the pair of (B, len)
    tensors whose column [j] is column [indices[j]] of the input, negative
    indices counted from the end, and nothing else changes (so the source
    pair stays unless [dest] is [source]); when some index lies outside,
    the call raises [IndexError] and the dict is as it was. *)
Theorem SelectValuePresenceColumns_call_selects
    source dest indices (d : gmap string value) value presence (B n : nat) :
  d !! source = Some (VTuple (VTensor value) (VTensor presence)) →
  tt_wf value → tt_wf presence →
  tt_shape value = [B; n] → tt_shape presence = [B; n] →
  (Forall (λ i, - Z.of_nat n ≤ i < Z.of_nat n) indices →
   ∃ v' p',
     SelectValuePresenceColumns_call
       (mkSelectValuePresenceColumns source dest indices) d
       = (Ok tt, <[dest := VTuple (VTensor v') (VTensor p')]> d)
     ∧ tt_shape v' = [B; length indices] ∧ tt_shape p' = [B; length indices]
     ∧ ∀ b j i, (b < B)%nat → indices !! j = Some i →
         tt_get v' [b; j] = tt_get value [b; Z.to_nat (i mod Z.of_nat n)]
         ∧ tt_get p' [b; j] = tt_get presence [b; Z.to_nat (i mod Z.of_nat n)])
  ∧ (Exists (λ i, ¬ (- Z.of_nat n ≤ i < Z.of_nat n)) indices →
     SelectValuePresenceColumns_call
       (mkSelectValuePresenceColumns source dest indices) d
       = (Raise IndexError, d)).
Proof.
  intros Hd Hwfv Hwfp Hshv Hshp. split.
  - intros Hall.
    destruct (tt_select_columns_spec value B n indices Hwfv Hshv Hall)
      as (v' & Hv' & Hshv' & Hgetv).
    destruct (tt_select_columns_spec presence B n indices Hwfp Hshp Hall)
      as (p' & Hp' & Hshp' & Hgetp).
    exists v', p'. split_and!; [|done|done|].
    + unfold SelectValuePresenceColumns_call.
      cbn [SelectValuePresenceColumns_source SelectValuePresenceColumns_dest
           SelectValuePresenceColumns_indices].
      run. rewrite Hd. run. rewrite Hv'. run. rewrite Hp'. by run.
    + intros b j i Hb Hi. split; eauto.
  - intros Hex.
    assert (tt_select_columns indices value = None) as Hnone.
    { destruct value as [t|t]; simpl in *;
        by rewrite (select_columns_out_of_range t B n). }
    unfold SelectValuePresenceColumns_call.
    cbn [SelectValuePresenceColumns_source SelectValuePresenceColumns_dest
         SelectValuePresenceColumns_indices].
    run. rewrite Hd. run. rewrite Hnone. by run.
Qed.

(** ** OuterProduct *)

Lemma outer_flat_2d {A} (mul : A → A → A) (x y : tensor A) (B n m : nat) :
  wf x → wf y → shape x = [B; n] → shape y = [B; m] →
  ∃ r, outer_flat mul x y = Some r
       ∧ shape r = [B; (n * m)%nat]
       ∧ ∀ b i j, (b < B)%nat → (i < n)%nat → (j < m)%nat →
           tget r [b; (i * m + j)%nat]
             = (a ← tget x [b; i]; c ← tget y [b; j]; Some (mul a c)).
Proof.
  intros Hwfx Hwfy Hshx Hshy.
  assert (∀ (t : tensor A) (k : nat), wf t → shape t = [B; k] →
    ∃ t', expand ([B] ++ [k]) t = Some t'
          ∧ ∀ b i, (b < B)%nat → (i < k)%nat → tget t' [b; i] = tget t [b; i])
    as Hexp.
  { intros t k Hwf Hsh.
    destruct (expand_spec t [B; k] Hwf) as (t' & Ht' & _ & _ & Hget).
    { unfold ndim. by rewrite Hsh. }
    { unfold ndim. rewrite Hsh. simpl.
      repeat (apply Forall2_cons; split; [by left|]). by apply Forall2_nil. }
    exists t'. split; [done|]. intros b i Hb Hi.
    rewrite Hget by in_range. unfold ndim. rewrite Hsh. simpl.
    do 2 f_equal; [|f_equal]; case_decide; lia. }
  destruct (Hexp x n Hwfx Hshx) as (x' & Hx' & Hgetx).
  destruct (Hexp y m Hwfy Hshy) as (y' & Hy' & Hgety).
  unfold outer_flat. rewrite Hshx, Hshy.
  change (last [B; n]) with (Some n). change (last [B; m]) with (Some m).
  cbn [mbind option_bind].
  change (all_but_last [B; n]) with [B]. change (all_but_last [B; m]) with [B].
  assert (broadcast_shapes [[B]; [B]] = Some [B]) as ->.
  { unfold broadcast_shapes. simpl. rewrite decide_True by done. done. }
  cbn [mbind option_bind]. rewrite Hx', Hy'. cbn [mbind option_bind].
  match goal with
  | |- ∃ r, tabulate ?sh ?f = Some r ∧ _ =>
      assert (is_Some (tabulate sh f)) as [r Hr]
  end.
  { apply tabulate_is_Some. intros ix Hix%offset_is_Some.
    apply Forall2_cons_inv_r in Hix as (b & ix1 & Hb & Hix & ->).
    apply Forall2_cons_inv_r in Hix as (k & ix2 & Hk & Hix & ->).
    apply Forall2_nil_inv_r in Hix as ->.
    cbn [length take lookup list_lookup app mbind option_bind].
    assert (m ≠ 0)%nat as Hm by (intros ->; lia).
    assert (k / m < n)%nat as Hq by (apply Nat.Div0.div_lt_upper_bound; lia).
    pose proof (Nat.mod_upper_bound k m Hm) as Hrem.
    rewrite Hgetx, Hgety by done.
    destruct (tget_is_Some x [b; (k / m)%nat] Hwfx) as [a ->].
    { rewrite Hshx. apply offset_is_Some. in_range. }
    destruct (tget_is_Some y [b; (k mod m)%nat] Hwfy) as [c ->].
    { rewrite Hshy. apply offset_is_Some. in_range. }
    by eexists. }
  exists r. split_and!; [done|by eapply tabulate_shape|].
  intros b i j Hb Hi Hj.
  assert (i * m + j < n * m)%nat as Hlt.
  { apply Nat.lt_le_trans with ((i + 1) * m)%nat; [lia|].
    apply Nat.mul_le_mono_r. lia. }
  rewrite (tabulate_get _ _ _ _ Hr) by (apply offset_is_Some; in_range).
  cbn [length take lookup list_lookup app mbind option_bind].
  rewrite Nat.div_add_l by lia. rewrite Nat.div_small by done.
  rewrite Nat.add_0_r.
  rewrite (Nat.add_comm (i * m) j), Nat.Div0.mod_add, Nat.mod_small by done.
  by rewrite Hgetx, Hgety.
Qed.

Arguments _get_product_features : simpl never.

(** X23.  For two float tensors (B, n) and (B, m), the output field holds
    a (B, n * m) float tensor with the product of [x[b, i]] and [y[b, j]]
    at position [i * m + j] of row [b]; for two int64 tensors it holds the
    int64 tensor of the products in int64, which wrap around: the product
    of the integers when that fits int64.  Without [drop_inputs] only the
    output field changes. *)
Theorem OuterProduct_call_entries key1 key2 output_key (d : gmap string value)
    (B n m : nat) :
  (∀ x y,
     d !! key1 = Some (VTensor (TFloat x)) → d !! key2 = Some (VTensor (TFloat y)) →
     wf x → wf y → shape x = [B; n] → shape y = [B; m] →
     ∃ r, OuterProduct_call (mkOuterProduct key1 key2 output_key false) d
            = (Ok tt, <[output_key := VTensor (TFloat r)]> d)
          ∧ shape r = [B; (n * m)%nat]
          ∧ ∀ b i j, (b < B)%nat → (i < n)%nat → (j < m)%nat →
              tget r [b; (i * m + j)%nat]
                = (a ← tget x [b; i]; c ← tget y [b; j]; Some (f_mul a c)))
  ∧ (∀ x y,
     d !! key1 = Some (VTensor (TLong x)) → d !! key2 = Some (VTensor (TLong y)) →
     wf x → wf y → shape x = [B; n] → shape y = [B; m] →
     ∃ r, OuterProduct_call (mkOuterProduct key1 key2 output_key false) d
            = (Ok tt, <[output_key := VTensor (TLong r)]> d)
          ∧ shape r = [B; (n * m)%nat]
          ∧ ∀ b i j, (b < B)%nat → (i < n)%nat → (j < m)%nat →
              tget r [b; (i * m + j)%nat]
                = (a ← tget x [b; i]; c ← tget y [b; j]; Some (wrap64 (a * c)))
              ∧ ∀ a c, tget x [b; i] = Some a → tget y [b; j] = Some c →
                  int64 (a * c) → tget r [b; (i * m + j)%nat] = Some (a * c)).
Proof.
  split.
  - intros x y H1 H2 Hwfx Hwfy Hshx Hshy.
    destruct (outer_flat_2d f_mul x y B n m Hwfx Hwfy Hshx Hshy) as (r & Hr & Hsh & Hget).
    exists r. split_and!; [|done|done].
    assert (_get_product_features (TFloat x) (TFloat y) = Some (TFloat r)) as Hprod.
    { unfold _get_product_features. cbn [as_long to_float]. by rewrite Hr. }
    unfold OuterProduct_call.
    cbn [OuterProduct_key1 OuterProduct_key2 OuterProduct_output_key
         OuterProduct_drop_inputs].
    run. rewrite H1. run. rewrite H2. run. rewrite Hprod. by run.
  - intros x y H1 H2 Hwfx Hwfy Hshx Hshy.
    destruct (outer_flat_2d (λ a b, wrap64 (a * b)) x y B n m Hwfx Hwfy Hshx Hshy)
      as (r & Hr & Hsh & Hget).
    exists r. split_and!; [|done|].
    2:{ intros b i j Hb Hi Hj. split; [by apply Hget|].
        intros a c Ha Hc Hfit. rewrite Hget, Ha, Hc by done. simpl.
        by rewrite wrap64_int64. }
    assert (_get_product_features (TLong x) (TLong y) = Some (TLong r)) as Hprod.
    { unfold _get_product_features. cbn [as_long to_float]. by rewrite Hr. }
    unfold OuterProduct_call.
    cbn [OuterProduct_key1 OuterProduct_key2 OuterProduct_output_key
         OuterProduct_drop_inputs].
    run. rewrite H1. run. rewrite H2. run. rewrite Hprod. by run.
Qed.

(** X24.  With [drop_inputs], the two inputs are deleted one after the
    other once the product is stored.  Three distinct keys: the product is
    added and both inputs are gone.  The same key given twice: the second
    deletion raises [KeyError], the product being stored and the input
    removed.  The output key equal to the first input: the call returns and
    the product is deleted with the input. *)
Theorem OuterProduct_call_drop_inputs key1 key2 output_key
    (d : gmap string value) x y prod :
  d !! key1 = Some (VTensor x) → d !! key2 = Some (VTensor y) →
  _get_product_features x y = Some prod →
  let call := OuterProduct_call (mkOuterProduct key1 key2 output_key true) d in
  (key1 ≠ key2 → output_key ≠ key1 → output_key ≠ key2 →
     call = (Ok tt, delete key2 (delete key1 (<[output_key := VTensor prod]> d))))
  ∧ (key1 = key2 → output_key ≠ key1 →
     call = (Raise (KeyError key2),
             delete key1 (<[output_key := VTensor prod]> d)))
  ∧ (output_key = key1 → key1 ≠ key2 →
     call = (Ok tt, delete key2 (delete key1 d))).
Proof.
  intros H1 H2 Hprod call. subst call. unfold OuterProduct_call.
  cbn [OuterProduct_key1 OuterProduct_key2 OuterProduct_output_key
       OuterProduct_drop_inputs].
  run. rewrite H1. run. rewrite H2. run. rewrite Hprod. run.
  split_and!.
  - intros Hne Ho1 Ho2. rewrite lookup_insert_ne, H1 by done. run.
    rewrite lookup_delete_ne, lookup_insert_ne, H2 by done. done.
  - intros <- Ho1. rewrite lookup_insert_ne, H1 by done. run.
    by rewrite lookup_delete_eq.
  - intros -> Hne. rewrite lookup_insert_eq. run.
    rewrite lookup_delete_ne, lookup_insert_ne, H2 by done.
    by rewrite delete_insert_eq.
Qed.

(** ** Cat: what the call writes *)

Arguments tt_cat : simpl never.

(** X25.  Cat reads every input before it writes anything.  A call that
    returns has found a tensor under every input key and has written the
    output key, nothing else; a call that raises has left the dict as it
    was; and the first input key that is missing is the one reported by
    [KeyError]. *)
Theorem Cat_call_writes_only_output (self : Cat) (d : gmap string value) :
  match Cat_call self d with
  | (Ok _, d') =>
      (∃ r, d' = <[Cat_output_key self := VTensor r]> d)
      ∧ ∀ k, k ∈ Cat_input_keys self → ∃ t, d !! k = Some (VTensor t)
  | (Raise _, d') => d' = d
  end
  ∧ ∀ ks1 k ks2,
      Cat_input_keys self = ks1 ++ k :: ks2 →
      (∀ k', k' ∈ ks1 → is_Some (d !! k')) → d !! k = None →
      Cat_call self d = (Raise (KeyError k), d).
Proof.
  unfold Cat_call.
  set (collect := fix collect (ks : list string) : M (gmap string value) (list value) :=
          match ks with
          | [] => mret []
          | k :: ks' => v ← getitem k; vs ← collect ks'; mret (v :: vs)
          end).
  assert (∀ ks,
    match collect ks d with
    | (Ok vs, d') => d' = d ∧ Forall2 (λ k v, d !! k = Some v) ks vs
    | (Raise _, d') => d' = d
    end) as Hcollect.
  { induction ks as [|k ks IH]; [done|].
    cbn [collect]. fold collect. rewrite bind_run. unfold getitem at 1.
    destruct (d !! k) as [v|] eqn:Hv; [|done].
    rewrite bind_run. destruct (collect ks d) as [[vs|e] d1]; [|done].
    destruct IH as [-> IH]. split; [done|]. by apply Forall2_cons. }
  assert (∀ ks1 k ks2,
    (∀ k', k' ∈ ks1 → is_Some (d !! k')) → d !! k = None →
    collect (ks1 ++ k :: ks2) d = (Raise (KeyError k), d)) as Hmissing.
  { intros ks1 k ks2 Hin Hk. induction ks1 as [|k1 ks1 IH].
    - cbn [app collect]. fold collect. rewrite bind_run. unfold getitem at 1.
      by rewrite Hk.
    - cbn [app collect]. fold collect. rewrite bind_run. unfold getitem at 1.
      destruct (Hin k1) as [v ->]; [by left|].
      rewrite bind_run, IH; [done|]. intros k' Hk'. apply Hin. by right. }
  split.
  - rewrite bind_run. specialize (Hcollect (Cat_input_keys self)).
    destruct (collect (Cat_input_keys self) d) as [[vs|e] d1]; [|done].
    destruct Hcollect as [-> Hvs].
    assert (∀ e ts, mapM (as_tensor e) vs = Ok ts →
      ∀ k, k ∈ Cat_input_keys self → ∃ t, d !! k = Some (VTensor t)) as Htensors.
    { intros e ts Hm k Hk.
      apply list_elem_of_lookup in Hk as [i Hi].
      destruct (Forall2_lookup_l _ _ _ _ _ Hvs Hi) as (v & Hv & Hdv).
      assert (∀ (l : list value) ts1, mapM (as_tensor e) l = Ok ts1 →
                Forall (λ v, ∃ t, v = VTensor t) l) as Hall.
      { induction l as [|v0 l IHl]; intros ts1 Hl; [by apply Forall_nil|].
        cbn [mapM] in Hl. destruct v0; try done.
        destruct (mapM (as_tensor e) l) as [ts2|] eqn:Hl2; [|done].
        apply Forall_cons. split; [by eexists|]. by eapply IHl. }
      destruct (proj1 (Forall_lookup _ _) (Hall _ _ Hm) i v Hv) as [t ->].
      by exists t. }
    destruct (Cat_broadcast self).
    + destruct (mapM (as_tensor AttributeError) vs) as [ts0|e] eqn:Hm; [|by run].
      cbn [mbind outcome_bind].
      destruct (_broadcast_tensors_for_cat ts0 (Cat_dim self)) as [ts|e]; [|by run].
      run. destruct (tt_cat ts (Cat_dim self)) as [r|]; [|done].
      split; [by exists r|]. by eapply Htensors.
    + destruct (mapM (as_tensor TypeError) vs) as [ts|e] eqn:Hm; [|by run].
      run. destruct (tt_cat ts (Cat_dim self)) as [r|]; [|done].
      split; [by exists r|]. by eapply Htensors.
  - intros ks1 k ks2 Hkeys Hin Hk. rewrite bind_run, Hkeys.
    by rewrite (Hmissing ks1 k ks2 Hin Hk).
Qed.

(** ** MapIDListFeatures: the check at construction *)

(** X26.  The constructor accepts the two key lists exactly when they
    share no key.  When they do share one it raises [AssertionError] before
    the sparse preprocessor is constructed. *)
Theorem MapIDListFeatures_init_disjoint
    (id_list_keys id_score_list_keys : list string) feature_config dev w :
  ((∀ k, k ∈ id_list_keys → k ∉ id_score_list_keys) →
     MapIDListFeatures_init id_list_keys id_score_list_keys feature_config dev w
     = (Ok (mkMapIDListFeatures id_list_keys id_score_list_keys feature_config
              (make_sparse_preprocessor feature_config dev)),
        w ++ [NewSparsePreprocessor]))
  ∧ (∀ k, k ∈ id_list_keys → k ∈ id_score_list_keys →
     MapIDListFeatures_init id_list_keys id_score_list_keys feature_config dev w
     = (Raise AssertionError, w)).
Proof.
  unfold MapIDListFeatures_init. split.
  - intros Hdis. rewrite bool_decide_true; [done|].
    apply set_eq. intros k. rewrite elem_of_intersection, !elem_of_list_to_set.
    split; [|by intros ?%elem_of_empty]. intros [H1 H2]. by destruct (Hdis k H1).
  - intros k H1 H2. rewrite bool_decide_false; [done|].
    intros Hempty. apply (not_elem_of_empty (C:=gset string) k).
    rewrite <- Hempty. rewrite elem_of_intersection, !elem_of_list_to_set. done.
Qed.

(** ** FixedLengthSequenceDenseNormalization: the derived keys *)

Lemma derived_key_inj sequence_id k1 k2 :
  derived_key sequence_id k1 = derived_key sequence_id k2 → k1 = k2.
Proof. apply string_app_inj_r. Qed.

(** X27.  Construction never fails and constructs no preprocessor.  The
    three member transforms are wired to the same derived keys
    "key:sequence_id", one per source key and in the order of the source
    keys: they are what the first writes, the second normalizes and the third
    reshapes.  Distinct source keys give distinct derived keys. *)
Theorem FixedLengthSequenceDenseNormalization_init_wiring
    keys sequence_id normalization_data expected_length dev w :
  ∃ s, FixedLengthSequenceDenseNormalization_init
         keys sequence_id normalization_data expected_length dev w = (Ok s, w)
       ∧ FixedLengthSequences_keys (fixed_length_sequences s) = keys
       ∧ FixedLengthSequences_to_keys (fixed_length_sequences s)
           = derived_key sequence_id <$> keys
       ∧ DenseNormalization_keys (dense_normalization s)
           = FixedLengthSequences_to_keys (fixed_length_sequences s)
       ∧ SlateView_keys (slate_view s)
           = FixedLengthSequences_to_keys (fixed_length_sequences s)
       ∧ DenseNormalization__preprocessor (dense_normalization s) = None
       ∧ (NoDup keys → NoDup (FixedLengthSequences_to_keys (fixed_length_sequences s))).
Proof.
  rewrite FixedLengthSequenceDenseNormalization_init_run.
  eexists. split; [done|]. cbn. split_and!; try done.
  intros Hnd.
  assert (Inj (=) (=) (derived_key sequence_id)) as Hinj
    by (intros k1 k2; apply derived_key_inj).
  by apply (NoDup_fmap_2 _).
Qed.

End Transforms.

Arguments St {F Self} world self batch.
Arguments world {F Self} s.
Arguments self {F Self} s.
Arguments batch {F Self} s.
Arguments OSt {F Self} _ _ _ _.
Arguments oworld {F Self} _.
Arguments oself {F Self} _.
Arguments obatch {F Self} _.
Arguments otensors {F Self} _.

(** * Concrete runs

    The collaborators are instantiated by small stand-ins: integers for the
    floating-point scalars, a normalization that returns the masked value,
    and a sparse preprocessor that returns [None].  Where a run needs a NaN,
    the scalars are optional integers and [None] is the NaN. *)

Module Examples.

Definition ex_Preprocessor_call (_ : unit) (value _presence : @ttensor Z)
    : outcome (tensor Z) :=
  Ok (to_float id value).

Definition ex_sparse (_ : unit) (_ : gmap Z (@value Z)) : outcome (@value Z) :=
  Ok VNone.

Definition offsets (l : list Z) : @value Z :=
  VTensor (TLong (Tensor [length l] l)).

Definition payload : @value Z :=
  VTuple (VTensor (TFloat (Tensor [4; 3]%nat [1; 2; 3; 4; 5; 6; 7; 8; 9; 10; 11; 12])))
         (VTensor (TFloat (Tensor [4; 3]%nat [1; 1; 1; 1; 1; 1; 1; 1; 1; 1; 1; 1]))).

Definition ragged (l : list Z) : @value Z :=
  VDict {[ 7 := VTuple (offsets l) payload ]}.

Definition batch_of (l : list Z) : gmap string (@value Z) :=
  {[ "seq" := ragged l ]}.


Definition column : gmap string (@value Z) :=
  {[ "x" := VTensor (TLong (Tensor [3; 1]%nat [1; 2; 3])) ]}.

Definition dense : DenseNormalization unit unit :=
  mkDenseNormalization unit unit [] tt cpu None.

Definition sparse : MapIDListFeatures (gmap Z string) unit :=
  mkMapIDListFeatures (gmap Z string) unit ["ids"] ["scores"] {[ 1 := "f" ]} tt.

Definition composite : FixedLengthSequenceDenseNormalization unit unit :=
  mkFixedLengthSequenceDenseNormalization unit unit
    (mkFixedLengthSequences ["seq"] 7 ["seq:7"] None)
    (mkDenseNormalization unit unit ["seq:7"] tt cpu None)
    (mkSlateView ["seq:7"] (Some (-1))).

(** Floats with a NaN: [None] stands for NaN. *)
Definition is_nan (x : option Z) : bool :=
  match x with None => true | Some _ => false end.

Definition nan_Preprocessor_call (_ : unit) (value _presence : @ttensor (option Z))
    : outcome (tensor (option Z)) :=
  Ok (to_float Some value).

Definition store : gmap loc (device * @ttensor (option Z)) :=
  {[ 1%positive := (cpu, TLong (Tensor [2%nat] [0; 2]));
     2%positive := (cpu, TFloat (Tensor [4; 1]%nat [Some 1; None; Some 3; Some 4]));
     3%positive := (cpu, TFloat (Tensor [4; 1]%nat [Some 1; Some 1; Some 1; Some 1])) ]}.

Definition sequences : gmap Z ref_value :=
  {[ 7 := RTuple (RTensor 1%positive) (RTuple (RTensor 2%positive) (RTensor 3%positive)) ]}.

Definition ragged_batch : gmap string ref_value := {[ "seq" := RDict sequences ]}.

Definition composite_run
    : outcome unit * ost (FixedLengthSequenceDenseNormalization unit unit) :=
  FixedLengthSequenceDenseNormalization_call (F := option Z) (Some 0) is_nan
    unit unit id unit (λ _ _, tt) nan_Preprocessor_call
    (OSt [] composite ragged_batch store).

(** The same payload on a GPU, for a normalization on the CPU. *)
Definition remote_store : gmap loc (device * @ttensor (option Z)) :=
  {[ 1%positive := (cpu, TLong (Tensor [2%nat] [0; 2]));
     2%positive := (cuda 0, TFloat (Tensor [4; 1]%nat [Some 1; None; Some 3; Some 4]));
     3%positive := (cuda 0, TFloat (Tensor [4; 1]%nat [Some 1; Some 1; Some 1; Some 1])) ]}.

Definition remote_run
    : outcome unit * ost (FixedLengthSequenceDenseNormalization unit unit) :=
  FixedLengthSequenceDenseNormalization_call (F := option Z) (Some 0) is_nan
    unit unit id unit (λ _ _, tt) nan_Preprocessor_call
    (OSt [] composite ragged_batch remote_store).

Definition colliding : FixedLengthSequenceDenseNormalization unit unit :=
  mkFixedLengthSequenceDenseNormalization unit unit
    (mkFixedLengthSequences ["a:7"; "a"] 7 ["a:7:7"; "a:7"] None)
    (mkDenseNormalization unit unit ["a:7:7"; "a:7"] tt cpu None)
    (mkSlateView ["a:7:7"; "a:7"] (Some (-1))).

Definition colliding_batch : gmap string ref_value :=
  {[ "a" := RDict sequences; "a:7" := RDict sequences ]}.

Definition colliding_run
    : outcome unit * ost (FixedLengthSequenceDenseNormalization unit unit) :=
  FixedLengthSequenceDenseNormalization_call (F := option Z) (Some 0) is_nan
    unit unit id unit (λ _ _, tt) nan_Preprocessor_call
    (OSt [] colliding colliding_batch store).

Definition heap : gmap loc (gmap string (@value Z)) :=
  {[ 1%positive := {[ "a" := VNone ]} ]}.

Definition record : gmap string (@value Z) :=
  {[ "a" := VNone; "b" := VList ["x"] ]}.

Definition heap2 : gmap loc (gmap string (@value Z)) :=
  {[ 1%positive := record ]}.

Definition matrix : @ttensor Z :=
  TFloat (Tensor [4; 3]%nat [1; 2; 3; 4; 5; 6; 7; 8; 9; 10; 11; 12]).

Definition square : @ttensor Z := TFloat (Tensor [2; 2]%nat [1; 2; 3; 4]).

Definition vector : @ttensor Z := TLong (Tensor [2%nat] [5; 6]).

Definition field (t : @ttensor Z) : gmap string (@value Z) :=
  {[ "x" := VTensor t ]}.

Definition with_presence : gmap string (@value Z) :=
  {[ "x" := VNone; "x_presence" := VList ["p"]; "y" := VNone ]}.

Definition presence_chain : gmap string (@value Z) :=
  {[ "x" := VNone; "x_presence" := VList ["p"];
     "x_presence_presence" := VList ["q"] ]}.

Definition pair_up (v : @value Z) : outcome (@value Z) := Ok (VTuple v v).

Definition masked : gmap string (@value Z) :=
  {[ "x" := VTuple (VTensor (TFloat (Tensor [2%nat] [5; 6])))
                   (VTensor (TLong (Tensor [2%nat] [1; 0]))) ]}.

Definition columns : gmap string (@value Z) :=
  {[ "src" := VTuple (VTensor (TFloat (Tensor [2; 3]%nat [1; 2; 3; 4; 5; 6])))
                     (VTensor (TFloat (Tensor [2; 3]%nat [1; 1; 1; 1; 1; 0]))) ]}.

Definition factors : gmap string (@value Z) :=
  {[ "x" := VTensor (TFloat (Tensor [1; 2]%nat [2; 3]));
     "y" := VTensor (TFloat (Tensor [1; 2]%nat [5; 7])) ]}.

Definition long_factors : gmap string (@value Z) :=
  {[ "x" := VTensor (TLong (Tensor [1; 2]%nat [2 ^ 62; 3]));
     "y" := VTensor (TLong (Tensor [1; 2]%nat [4; 5])) ]}.

End Examples.

Lemma FixedLengthSequences_stride_is_cached_witness :
  ∃ s1,
    FixedLengthSequences_call
      (St [] (mkFixedLengthSequences ["seq"] 7 ["out"] None)
          (Examples.batch_of [0; 4; 8])) =
      (Ok tt, St [] s1 (<["out" := Examples.payload]> (Examples.batch_of [0; 4; 8])))
    ∧ FixedLengthSequences_expected_length s1 = Some 4
    ∧ FixedLengthSequences_call (St [] s1 (Examples.batch_of [0; 5; 10])) =
        (Raise AssertionError, St [] s1 (Examples.batch_of [0; 5; 10]))
    ∧ FixedLengthSequences_call
        (St [] (mkFixedLengthSequences ["seq"] 7 ["out"] (Some 5))
            (Examples.batch_of [0; 5; 10])) =
        (Ok tt, St [] (mkFixedLengthSequences ["seq"] 7 ["out"] (Some 5))
                  (<["out" := Examples.payload]> (Examples.batch_of [0; 5; 10]))).
Proof.
  destruct (FixedLengthSequences_stride_is_cached (F := Z) "seq" "out" 7 [] []
    (Examples.batch_of [0; 4; 8]) (Examples.batch_of [0; 5; 10])
    {[ 7 := VTuple (Examples.offsets [0; 4; 8]) Examples.payload ]}
    {[ 7 := VTuple (Examples.offsets [0; 5; 10]) Examples.payload ]}
    Examples.payload Examples.payload
    (mkFixedLengthSequences ["seq"] 7 ["out"] None))
    as (s1 & H1 & H2 & H3 & H4); try reflexivity.
  exists s1. split; [exact H1|]. split; [exact H2|]. split; [exact H3|].
  apply (H4 5 3%nat [0; 5; 10] (Examples.batch_of [0; 5; 10])
            {[ 7 := VTuple (Examples.offsets [0; 5; 10]) Examples.payload ]}
            Examples.payload);
    [discriminate|unfold int64; lia|reflexivity|reflexivity].
Defined.

Lemma OneHotActions_encodes_witness :
  ∃ d', OneHotActions_call (OneHotActions_init ["action"] 3)
          ({[ "action" := VTensor (TLong (Tensor [4%nat] [0; 2; 3; 1])) ]}
             : gmap string (@value Z))
        = (Ok tt, d').
Proof.
  destruct (OneHotActions_encodes (F := Z) ["action"] 3
    {[ "action" := VTensor (TLong (Tensor [4%nat] [0; 2; 3; 1])) ]})
    as (d' & H & _).
  - apply NoDup_singleton.
  - lia.
  - intros k ->%list_elem_of_singleton. eexists. split_and!; [reflexivity|reflexivity|].
    repeat (apply Forall_cons; split; [lia|]). apply Forall_nil_2.
  - by exists d'.
Defined.


Lemma collaborators_lazy_and_eager_witness :
  world (DenseNormalization_call (F := Z) 0 (λ _, false) unit unit id unit (λ _ _, tt)
           Examples.ex_Preprocessor_call (St [] Examples.dense ∅)).2 = [NewPreprocessor].
Proof.
  destruct (collaborators_lazy_and_eager (F := Z) 0 (λ _, false) unit unit id unit
              (λ _ _, tt) Examples.ex_Preprocessor_call
              (gmap Z string) id unit (λ _ _, tt) Examples.ex_sparse Examples.ex_sparse)
    as (_ & H & _).
  destruct (H Examples.dense [] ∅ eq_refl) as [Hw _]. exact Hw.
Defined.

(** C4: the sparse preprocessor is constructed by the constructor of
    MapIDListFeatures, before any call. *)
Lemma MapIDListFeatures_built_at_construction :
  (MapIDListFeatures_init (gmap Z string) unit (λ _ _, tt) ["ids"] ["scores"] ∅ cpu []).2
    = [NewSparsePreprocessor]
  ∧ is_ok (MapIDListFeatures_init (gmap Z string) unit (λ _ _, tt)
             ["ids"] ["scores"] ∅ cpu []).1 = true.
Proof. split; reflexivity. Qed.

(** C5: two name lists of lengths 2 and 1 are accepted by the constructor. *)
Lemma Rename_unequal_lengths_accepted :
  length ["a"; "b"] ≠ length ["c"]
  ∧ Rename_init ["a"; "b"] ["c"] = Ok (mkRename ["a"; "b"] ["c"]).
Proof. split; [discriminate|reflexivity]. Qed.

Lemma ColumnVector_contract_witness :
  ColumnVector_call (ColumnVector_init ["x"]) Examples.column = (Ok tt, Examples.column).
Proof.
  destruct (ColumnVector_contract (F := Z)) as (H & _ & _).
  destruct (H ["x"] Examples.column) as [Hc _]; [|exact Hc].
  apply Forall_cons; split; [|apply Forall_nil_2].
  eexists _, 3%nat. split; reflexivity.
Defined.

Lemma MapIDListFeatures_never_misses_a_key_witness :
  (MapIDListFeatures_call (F := Z) (gmap Z string) id unit
     Examples.ex_sparse Examples.ex_sparse (St [] Examples.sparse ∅)).1
    ≠ Raise (KeyError "ids")
  ∧ batch (MapIDListFeatures_call (F := Z) (gmap Z string) id unit
             Examples.ex_sparse Examples.ex_sparse (St [] Examples.sparse ∅)).2 !! "ids"
    = Some VNone.
Proof.
  destruct (MapIDListFeatures_never_misses_a_key (F := Z) (gmap Z string) id unit
              Examples.ex_sparse Examples.ex_sparse Examples.sparse)
    as (H1 & _ & H3 & _); [done|done|].
  split; [apply H1|].
  apply H3; [|reflexivity|reflexivity]. apply list_elem_of_here.
Defined.

Lemma FixedLengthSequences_keeps_source_fields_witness :
  (obatch Examples.composite_run.2 !! "seq" = Some (RDict Examples.sequences)
   ∧ otensors Examples.composite_run.2 !! 2%positive
     = Some (cpu, TFloat (Tensor [4; 1]%nat [Some 1; Some 0; Some 3; Some 4]))
   ∧ otensors Examples.composite_run.2 !! 3%positive
     = Some (cpu, TFloat (Tensor [4; 1]%nat [Some 1; Some 0; Some 1; Some 1]))
   ∧ otensors Examples.composite_run.2 !! 1%positive
     = Some (cpu, TLong (Tensor [2%nat] [0; 2])))
  ∧ (obatch Examples.remote_run.2 !! "seq" = Some (RDict Examples.sequences)
     ∧ otensors Examples.remote_run.2 !! 2%positive
       = Some (cuda 0, TFloat (Tensor [4; 1]%nat [Some 1; None; Some 3; Some 4]))).
Proof.
  destruct (FixedLengthSequences_keeps_source_fields (F := option Z) (Some 0)
              Examples.is_nan unit unit id unit (λ _ _, tt)
              Examples.nan_Preprocessor_call) as (_ & _ & H & H').
  split.
  - destruct (H "seq" 7 tt None None [] _ [] [] Examples.ragged_batch Examples.store
                Examples.sequences 1%positive 2%positive 3%positive
                (TFloat (Tensor [4; 1]%nat [Some 1; None; Some 3; Some 4]))
                (TFloat (Tensor [4; 1]%nat [Some 1; Some 1; Some 1; Some 1]))
                eq_refl eq_refl eq_refl eq_refl eq_refl ltac:(discriminate) eq_refl)
      as (vm & pm & Hvm & Hpm & Hb & Hv & Hp & Hrest).
    vm_compute in Hvm. vm_compute in Hpm.
    injection Hvm as <-. injection Hpm as <-.
    split; [exact Hb|]. split; [exact Hv|]. split; [exact Hp|].
    apply Hrest; [discriminate|discriminate|reflexivity].
  - destruct (H' "seq" 7 tt None None [] _ [] [] Examples.ragged_batch
                Examples.remote_store
                Examples.sequences 1%positive 2%positive 3%positive (cuda 0) (cuda 0)
                (TFloat (Tensor [4; 1]%nat [Some 1; None; Some 3; Some 4]))
                (TFloat (Tensor [4; 1]%nat [Some 1; Some 1; Some 1; Some 1]))
                eq_refl eq_refl eq_refl eq_refl ltac:(discriminate)
                eq_refl ltac:(discriminate))
      as [Hb Hk].
    split; [exact Hb|]. apply Hk. reflexivity.
Defined.

(** C9: the composite returns with the field "seq" bound to the dict it was
    bound to, and with the NaN entry of the value tensor of its payload,
    and the entry of the presence tensor at that position, set to zero in
    the store.  With the source keys "a:7" and "a", the composite returns
    with the source field "a:7" bound to a tensor. *)
Lemma FixedLengthSequenceDenseNormalization_rewrites_sources :
  Examples.composite_run.1 = Ok tt
  ∧ obatch Examples.composite_run.2 !! "seq" = Examples.ragged_batch !! "seq"
  ∧ Examples.store !! 2%positive
    = Some (cpu, TFloat (Tensor [4; 1]%nat [Some 1; None; Some 3; Some 4]))
  ∧ otensors Examples.composite_run.2 !! 2%positive
    = Some (cpu, TFloat (Tensor [4; 1]%nat [Some 1; Some 0; Some 3; Some 4]))
  ∧ Examples.store !! 3%positive
    = Some (cpu, TFloat (Tensor [4; 1]%nat [Some 1; Some 1; Some 1; Some 1]))
  ∧ otensors Examples.composite_run.2 !! 3%positive
    = Some (cpu, TFloat (Tensor [4; 1]%nat [Some 1; Some 0; Some 1; Some 1]))
  ∧ Examples.colliding_run.1 = Ok tt
  ∧ Examples.colliding_batch !! "a:7" = Some (RDict Examples.sequences)
  ∧ obatch Examples.colliding_run.2 !! "a:7" = Some (RTensor 7%positive).
Proof. split_and!; reflexivity. Qed.

Lemma Rename_Filter_do_not_mutate_witness :
  (Rename_call (mkRename ["a"] ["b"]) 1%positive Examples.heap).2 !! 1%positive
    = Some {[ "a" := VNone ]}
  ∧ is_ok (Filter_call (mkFilter (Some ["b"]) None) 1%positive Examples.heap).1 = true.
Proof.
  destruct (Rename_Filter_do_not_mutate (F := Z) 1%positive Examples.heap
              {[ "a" := VNone ]} eq_refl) as [HR HF].
  split.
  - exact (proj1 (HR (mkRename ["a"] ["b"]))).
  - apply (HF (mkFilter (Some ["b"]) None)). left. by eexists _, _.
Defined.

Lemma Filter_call_selects_witness :
  ∃ dn, Filter_call (mkFilter (Some ["a"]) None) 1%positive Examples.heap2
          = (Ok (fresh (dom Examples.heap2)),
             <[fresh (dom Examples.heap2) := dn]> Examples.heap2)
        ∧ dn !! "a" = Some VNone ∧ dn !! "b" = None.
Proof.
  pose proof (Filter_call_selects (F := Z) 1%positive Examples.heap2
                Examples.record eq_refl) as H.
  cbv zeta in H. destruct H as [H _].
  destruct (H "a" [] None) as (dn & Hrun & Hdn).
  exists dn. split; [exact Hrun|]. split; rewrite Hdn; reflexivity.
Defined.

Lemma Filter_empty_keep_list_raises_witness :
  Filter_call (mkFilter (Some []) None) 1%positive Examples.heap
    = (Raise TypeError,
       <[fresh (dom Examples.heap) := {[ "a" := VNone ]}]> Examples.heap).
Proof.
  exact (proj2 (Filter_empty_keep_list_raises (F := Z) 1%positive Examples.heap
                  {[ "a" := VNone ]} eq_refl)).
Defined.

Lemma Rename_call_moves_value_witness :
  Rename_call (mkRename ["a"] ["c"]) 1%positive Examples.heap2
    = (Ok (fresh (dom Examples.heap2)),
       <[fresh (dom Examples.heap2) := <["c" := VNone]> (delete "a" Examples.record)]>
         Examples.heap2).
Proof.
  pose proof (Rename_call_moves_value (F := Z) 1%positive Examples.heap2
                Examples.record eq_refl) as H.
  cbv zeta in H. destruct H as [H _]. exact (H "a" "c" VNone eq_refl).
Defined.

Lemma Rename_call_is_sequential_witness :
  ∃ dn, Rename_call (mkRename ["a"; "b"] ["b"; "a"]) 1%positive Examples.heap2
          = (Ok (fresh (dom Examples.heap2)),
             <[fresh (dom Examples.heap2) := dn]> Examples.heap2)
        ∧ dn !! "a" = Some VNone ∧ dn !! "b" = None.
Proof.
  destruct (Rename_call_is_sequential (F := Z) 1%positive Examples.heap2
              Examples.record "a" "b" VNone (VList ["x"]))
    as (dn & H1 & H2 & H3 & _); [reflexivity|discriminate|reflexivity|reflexivity|].
  exists dn. split; [exact H1|]. split; [exact H2|exact H3].
Defined.

Lemma Rename_call_round_trip_witness :
  ∃ l h', Compose_call [Rename_call (mkRename ["a"] ["c"]);
                        Rename_call (mkRename ["c"] ["a"])]
            1%positive Examples.heap2 = (Ok l, h')
          ∧ l ≠ 1%positive ∧ h' !! l = Some Examples.record.
Proof.
  destruct (Rename_call_round_trip (F := Z) 1%positive Examples.heap2
              Examples.record "a" "c" VNone)
    as (l & h' & H1 & H2 & H3 & _); [reflexivity|reflexivity|reflexivity|].
  exists l, h'. split; [exact H1|]. split; [exact H2|exact H3].
Defined.

Lemma Rename_then_Filter_witness :
  ∃ l h', Compose_call [Rename_call (mkRename ["a"] ["c"]);
                        Filter_call (mkFilter (Some ["c"]) None)]
            1%positive Examples.heap2 = (Ok l, h')
          ∧ h' !! l = Some {[ "c" := VNone ]}.
Proof.
  destruct (Rename_then_Filter (F := Z) 1%positive Examples.heap2
              Examples.record "a" "c" VNone)
    as (l & h' & H1 & H2 & _); [reflexivity|reflexivity|].
  exists l, h'. split; [exact H1|exact H2].
Defined.

Lemma FixedLengthSequences_first_batch_pins_stride_witness :
  FixedLengthSequences_call
    (St [] (mkFixedLengthSequences ["seq"] 7 ["out"] None)
        (Examples.batch_of [0; 5; 9]))
  = (Raise AssertionError,
     St [] (mkFixedLengthSequences ["seq"] 7 ["out"] (Some 5))
        (Examples.batch_of [0; 5; 9])).
Proof.
  destruct (FixedLengthSequences_first_batch_pins_stride (F := Z) "seq" "out" 7 []
              (Examples.batch_of [0; 5; 9])
              {[ 7 := VTuple (Examples.offsets [0; 5; 9]) Examples.payload ]}
              3 [0; 5; 9] Examples.payload 0 5
              eq_refl eq_refl ltac:(lia) eq_refl eq_refl) as (_ & _ & _ & _ & H).
  apply H; [vm_compute; discriminate|]. vm_compute. split; [discriminate|reflexivity].
Defined.

Lemma FixedLengthSequences_single_sequence_witness :
  FixedLengthSequences_call
    (St [] (mkFixedLengthSequences ["seq"] 7 ["out"] None) (Examples.batch_of [0]))
  = (Ok tt,
     St [] (mkFixedLengthSequences ["seq"] 7 ["out"] (Some 4))
        (<["out" := Examples.payload]> (Examples.batch_of [0]))).
Proof.
  exact (FixedLengthSequences_single_sequence (F := Z) "seq" "out" 7 []
           (Examples.batch_of [0])
           {[ 7 := VTuple (Examples.offsets [0]) Examples.payload ]}
           0 Examples.matrix
           (VTensor (TFloat (Tensor [4; 3]%nat [1; 1; 1; 1; 1; 1; 1; 1; 1; 1; 1; 1])))
           4 eq_refl eq_refl eq_refl).
Defined.

Lemma OneHotActions_index_out_of_range_witness :
  OneHotActions_call (OneHotActions_init ["x"] 3)
    (Examples.field (TLong (Tensor [2%nat] [0; 5])))
  = (Raise RuntimeError, Examples.field (TLong (Tensor [2%nat] [0; 5]))).
Proof.
  apply (OneHotActions_index_out_of_range (F := Z) "x" [] 3
           (Examples.field (TLong (Tensor [2%nat] [0; 5]))) (Tensor [2%nat] [0; 5]));
    [reflexivity|reflexivity|].
  apply Exists_cons_tl, Exists_cons_hd. right. lia.
Defined.

Lemma ColumnVector_list_not_repeatable_witness :
  ColumnVector_call (ColumnVector_init ["mdp_id"])
    ({[ "mdp_id" := VList ["a"; "b"] ]} : gmap string (@value Z))
  = (Ok tt, <["mdp_id" := VNdarray (Tensor [2; 1]%nat ["a"; "b"])]>
              {[ "mdp_id" := VList ["a"; "b"] ]}).
Proof.
  exact (proj1 (ColumnVector_list_not_repeatable (F := Z) "mdp_id"
                  {[ "mdp_id" := VList ["a"; "b"] ]} ["a"; "b"] eq_refl)).
Defined.

Lemma DenseNormalization_missing_key_witness :
  (DenseNormalization_call (F := Z) 0 (λ _, false) unit unit id unit (λ _ _, tt)
     Examples.ex_Preprocessor_call
     (St [] (mkDenseNormalization unit unit ["x"] tt cpu None) ∅)).1
  = Raise (KeyError "x").
Proof.
  rewrite (DenseNormalization_missing_key (F := Z) 0 (λ _, false) unit unit id unit
             (λ _ _, tt) Examples.ex_Preprocessor_call "x" [] tt cpu [] ∅
             (lookup_empty "x")).
  reflexivity.
Defined.

Lemma SlateView_call_regroups_witness :
  ∃ r, SlateView_call (mkSlateView ["x"] (Some 2)) (Examples.field Examples.matrix)
         = (Ok tt, <["x" := VTensor r]> (Examples.field Examples.matrix))
       ∧ tt_shape r = [2; 2; 3]%nat
       ∧ tt_get id r [1; 0; 2]%nat = Some 9.
Proof.
  destruct (SlateView_call_regroups (F := Z) id "x" (Examples.field Examples.matrix)
              Examples.matrix 2 3 eq_refl ltac:(lia) ltac:(lia))
    as [H _].
  destruct (H 2%nat eq_refl) as (r & Hr & Hs & Hg).
  exists r. split; [exact Hr|]. split; [exact Hs|].
  exact (Hg 1%nat 0%nat 2%nat ltac:(lia) ltac:(lia) ltac:(lia)).
Defined.

Lemma AppendConstant_last_dimension_witness :
  ∃ r, AppendConstant_call 1 Z.mul id (AppendConstant_init ["x"] (-1) 7)
         (Examples.field Examples.square)
       = (Ok tt, <["x" := VTensor (TFloat r)]> (Examples.field Examples.square))
       ∧ shape r = [2; 3]%nat
       ∧ tget r [1; 0]%nat = Some 7 ∧ tget r [1; 2]%nat = Some 4.
Proof.
  destruct (AppendConstant_last_dimension (F := Z) 1 Z.mul id "x"
              (Examples.field Examples.square) 7 Examples.square [2%nat] 2)
    as (r & Hr & Hs & Hg); [reflexivity|reflexivity|reflexivity|discriminate|].
  exists r. split; [exact Hr|]. split; [exact Hs|].
  destruct (Hg [1%nat]) as [H0 Hj].
  { apply Forall2_cons_2; [lia|apply Forall2_nil_2]. }
  split; [exact H0|]. exact (Hj 1%nat ltac:(lia)).
Defined.

Lemma ValuePresence_call_pairs_witness :
  ∃ d', ValuePresence_call ["x"; "x_presence"; "y"] Examples.with_presence = (Ok tt, d')
        ∧ d' !! "x" = Some (VTuple VNone (VList ["p"]))
        ∧ d' !! "x_presence" = None.
Proof.
  destruct (ValuePresence_call_pairs (F := Z) Examples.with_presence
              ["x"; "x_presence"; "y"]) as (d' & Hrun & Hpair & Hgone & _).
  - apply (bool_decide_unpack _). vm_compute. exact I.
  - intros k. unfold Examples.with_presence.
    rewrite !elem_of_cons, elem_of_nil.
    rewrite <- elem_of_dom, !dom_insert_L, dom_singleton_L.
    rewrite !elem_of_union, !elem_of_singleton. tauto.
  - intros k Hk. apply elem_of_dom in Hk. unfold Examples.with_presence in Hk.
    rewrite !dom_insert_L, dom_singleton_L in Hk.
    rewrite !elem_of_union, !elem_of_singleton in Hk.
    destruct Hk as [Hk|[Hk|Hk]].
    + apply (f_equal String.length) in Hk. unfold presence_key in Hk.
      rewrite string_length_app in Hk. simpl in Hk. lia.
    + apply (presence_key_inj k "x") in Hk. subst k. reflexivity.
    + apply (f_equal String.length) in Hk. unfold presence_key in Hk.
      rewrite string_length_app in Hk. simpl in Hk. lia.
  - exists d'. split; [exact Hrun|]. split.
    + apply (Hpair "x" VNone (VList ["p"])); reflexivity.
    + apply (Hgone "x"). by eexists.
Defined.

Lemma ValuePresence_call_chain_raises_witness :
  (ValuePresence_call ["x"; "x_presence"; "x_presence_presence"]
     Examples.presence_chain).1
  = Raise (KeyError "x_presence").
Proof.
  exact (f_equal fst
           (ValuePresence_call_chain_raises (F := Z) Examples.presence_chain "x"
              ["x_presence_presence"] VNone (VList ["p"]) (VList ["q"])
              eq_refl eq_refl eq_refl)).
Defined.

Lemma Lambda_call_pointwise_witness :
  Lambda_call (mkLambda ["a"] Examples.pair_up) {[ "a" := VNone ]}
  = (Ok tt, <["a" := VTuple VNone VNone]> {[ "a" := VNone ]}).
Proof.
  apply (Lambda_call_pointwise (F := Z) ["a"] Examples.pair_up {[ "a" := VNone ]}
           (<["a" := VTuple VNone VNone]> {[ "a" := VNone ]}) (NoDup_singleton "a")).
  split.
  - intros k ->%list_elem_of_singleton. exists VNone, (VTuple VNone VNone).
    split; [reflexivity|]. split; reflexivity.
  - intros k Hk. apply lookup_insert_ne. intros <-. apply Hk, list_elem_of_here.
Defined.

Lemma Lambda_call_fuses_witness :
  Lambda_call (mkLambda ["a"] (λ v, Examples.pair_up v ≫= Examples.pair_up))
    {[ "a" := VNone ]}
  = (Ok tt, <["a" := VTuple (VTuple VNone VNone) (VTuple VNone VNone)]>
              {[ "a" := VNone ]}).
Proof.
  apply (Lambda_call_fuses (F := Z) ["a"] Examples.pair_up Examples.pair_up
           {[ "a" := VNone ]}
           (<["a" := VTuple (VTuple VNone VNone) (VTuple VNone VNone)]> {[ "a" := VNone ]})
           (NoDup_singleton "a")).
  vm_compute. reflexivity.
Defined.

Lemma MaskByPresence_call_masks_witness :
  ∃ d', MaskByPresence_call Z.mul id (mkMaskByPresence ["x"]) Examples.masked = (Ok tt, d')
        ∧ d' !! "x" = Some (VTensor (TFloat (Tensor [2%nat] [5; 0])))
        ∧ MaskByPresence_call Z.mul id (mkMaskByPresence ["x"]) d'
          = (Raise AssertionError, d').
Proof.
  destruct (MaskByPresence_call_masks (F := Z) Z.mul id ["x"] Examples.masked
              (NoDup_singleton "x")) as (d' & H1 & _ & _ & H4).
  { intros k ->%list_elem_of_singleton. eexists _, _. split; reflexivity. }
  exists d'. split; [exact H1|]. split; [|exact (H4 "x" [] eq_refl)].
  assert (d' = (MaskByPresence_call Z.mul id (mkMaskByPresence ["x"]) Examples.masked).2)
    as -> by (by rewrite H1).
  reflexivity.
Defined.

Lemma UnsqueezeRepeat_call_repeats_witness :
  ∃ res, UnsqueezeRepeat_call (mkUnsqueezeRepeat ["x"] 1 3) (Examples.field Examples.vector)
           = (Ok tt, <["x" := VTensor res]> (Examples.field Examples.vector))
         ∧ tt_shape res = [2; 3]%nat
         ∧ tt_get id res [1; 2]%nat = Some 6.
Proof.
  destruct (UnsqueezeRepeat_call_repeats (F := Z) id "x" (Examples.field Examples.vector)
              Examples.vector 1 3)
    as (res & Hr & Hs & Hg); [reflexivity|reflexivity|vm_compute; lia|lia|].
  exists res. split; [exact Hr|]. split; [exact Hs|].
  apply (Hg [1%nat] 2%nat []).
  - apply Forall2_cons_2; [lia|apply Forall2_nil_2].
  - lia.
  - apply Forall2_nil_2.
Defined.

Lemma UnsqueezeRepeat_negative_count_witness :
  (UnsqueezeRepeat_call (mkUnsqueezeRepeat ["x"] 1 (-1))
     (Examples.field Examples.vector)).1
  = Raise RuntimeError.
Proof.
  destruct (UnsqueezeRepeat_negative_count (F := Z) "x" (Examples.field Examples.vector)
              Examples.vector 1 (-1)) as (u & Hu & _);
    [reflexivity|vm_compute; lia|lia|].
  change (Z.of_nat 1) with 1 in Hu. rewrite Hu. reflexivity.
Defined.

Lemma SelectValuePresenceColumns_call_selects_witness :
  ∃ v' p', SelectValuePresenceColumns_call
             (mkSelectValuePresenceColumns "src" "dst" [-1; 0]) Examples.columns
           = (Ok tt, <["dst" := VTuple (VTensor v') (VTensor p')]> Examples.columns)
           ∧ tt_get id v' [1; 0]%nat = Some 6
           ∧ tt_get id p' [1; 0]%nat = Some 0.
Proof.
  destruct (SelectValuePresenceColumns_call_selects (F := Z) id "src" "dst" [-1; 0]
              Examples.columns
              (TFloat (Tensor [2; 3]%nat [1; 2; 3; 4; 5; 6]))
              (TFloat (Tensor [2; 3]%nat [1; 1; 1; 1; 1; 0]))
              2 3 eq_refl eq_refl eq_refl eq_refl eq_refl) as [H _].
  destruct H as (v' & p' & Hr & _ & _ & Hg).
  { apply Forall_cons_2; [lia|]. apply Forall_cons_2; [lia|]. apply Forall_nil_2. }
  exists v', p'. split; [exact Hr|].
  exact (Hg 1%nat 0%nat (-1) ltac:(lia) eq_refl).
Defined.

Lemma OuterProduct_call_entries_witness :
  (∃ r, OuterProduct_call Z.mul id (mkOuterProduct "x" "y" "z" false) Examples.factors
          = (Ok tt, <["z" := VTensor (TFloat r)]> Examples.factors)
        ∧ shape r = [1; 4]%nat
        ∧ tget r [0; 3]%nat = Some 21)
  ∧ (∃ r, OuterProduct_call Z.mul id (mkOuterProduct "x" "y" "z" false)
            Examples.long_factors
          = (Ok tt, <["z" := VTensor (TLong r)]> Examples.long_factors)
        ∧ tget r [0; 0]%nat = Some 0
        ∧ tget r [0; 3]%nat = Some 15).
Proof.
  destruct (OuterProduct_call_entries (F := Z) Z.mul id "x" "y" "z" Examples.factors
              1 2 2) as [H _].
  destruct (OuterProduct_call_entries (F := Z) Z.mul id "x" "y" "z"
              Examples.long_factors 1 2 2) as [_ H'].
  split.
  - destruct (H (Tensor [1; 2]%nat [2; 3]) (Tensor [1; 2]%nat [5; 7])
                eq_refl eq_refl eq_refl eq_refl eq_refl eq_refl) as (r & Hr & Hs & Hg).
    exists r. split; [exact Hr|]. split; [exact Hs|].
    exact (Hg 0%nat 1%nat 1%nat ltac:(lia) ltac:(lia) ltac:(lia)).
  - destruct (H' (Tensor [1; 2]%nat [2 ^ 62; 3]) (Tensor [1; 2]%nat [4; 5])
                eq_refl eq_refl eq_refl eq_refl eq_refl eq_refl) as (r & Hr & Hs & Hg).
    exists r. split; [exact Hr|]. split.
    + exact (proj1 (Hg 0%nat 0%nat 0%nat ltac:(lia) ltac:(lia) ltac:(lia))).
    + apply (proj2 (Hg 0%nat 1%nat 1%nat ltac:(lia) ltac:(lia) ltac:(lia)) 3 5);
        [reflexivity|reflexivity|]. unfold int64. lia.
Defined.

Lemma OuterProduct_call_drop_inputs_witness :
  OuterProduct_call Z.mul id (mkOuterProduct "x" "x" "z" true) Examples.factors
  = (Raise (KeyError "x"),
     delete "x" (<["z" := VTensor (TFloat (Tensor [1; 4]%nat [4; 6; 6; 9]))]>
                   Examples.factors)).
Proof.
  pose proof (OuterProduct_call_drop_inputs (F := Z) Z.mul id "x" "x" "z"
                Examples.factors
                (TFloat (Tensor [1; 2]%nat [2; 3])) (TFloat (Tensor [1; 2]%nat [2; 3]))
                (TFloat (Tensor [1; 4]%nat [4; 6; 6; 9]))
                eq_refl eq_refl eq_refl) as H.
  cbv zeta in H. destruct H as (_ & H & _). apply H; [reflexivity|discriminate].
Defined.

Lemma MapIDListFeatures_init_disjoint_witness :
  MapIDListFeatures_init (gmap Z string) unit (λ _ _, tt) ["ids"] ["ids"] ∅ cpu []
  = (Raise AssertionError, []).
Proof.
  destruct (MapIDListFeatures_init_disjoint (gmap Z string) unit (λ _ _, tt)
              ["ids"] ["ids"] ∅ cpu []) as [_ H].
  apply (H "ids"); apply list_elem_of_here.
Defined.
